(** * Sentinel-based circular doubly linked lists: pool-backed and intrusive

    Shallow embedding of [ll_list_pool.hpp] (class [ll_list_pool<T>]) and
    [ll_intrusive_list.hpp] (struct [intrusive_hook], class [intrusive_list]).

    Pointers are [option] of a location ([None] is [nullptr]); every
    operation is a function on an explicit memory that faults where the
    C++ code would dereference a null or dangling pointer. *)

From Stdlib Require Import NArith Lia.
From stdpp Require Import base option list gmap.

(** ** Link functions and rings

    The [next] fields of a memory form a partial function from locations to
    locations, and so do the [prev] fields.  A ring is what both lists
    maintain: following the first function from the sentinel visits the
    elements in order and comes back, following the second one visits them
    in reverse order and comes back. *)

(** Distinctness side conditions: unfold [NoDup] over [::] and [++] and
    leave the membership reasoning to [set_solver]. *)
Ltac nodup_unfold_in H :=
  repeat first
    [ rewrite NoDup_cons in H | rewrite NoDup_app in H | rewrite NoDup_nil in H ].

Ltac nodup_solver :=
  repeat match goal with
         | H : NoDup _ |- _ => nodup_unfold_in H; revert H
         end;
  repeat first [ rewrite NoDup_cons | rewrite NoDup_app | rewrite NoDup_nil ];
  set_solver by eauto with congruence.

Module Ring.
Section Ring.
Context {A : Type} `{!EqDecision A}.
Implicit Types (f g : A → option A) (l r : list A) (a b s x : A).

(** [lastd a l] is the last element of [a :: l]. *)
Definition lastd a l : A := List.last l a.

(** [walk f a l]: starting at [a], following [f] yields the elements of
    [l] one after the other. *)
Fixpoint walk f a l : Prop :=
  match l with
  | [] => True
  | x :: l' => f a = Some x ∧ walk f x l'
  end.

(** [ring f g s l]: circular list with sentinel [s] and elements [l];
    [f] is the next function, [g] the prev function. *)
Definition ring f g s l : Prop :=
  NoDup (s :: l) ∧ walk f s (l ++ [s]) ∧ walk g s (reverse l ++ [s]).

(** A detached but internally linked run of nodes. *)
Definition seg f g s r : Prop :=
  walk f (hd s r) (tl r) ∧ walk g (lastd s r) (tl (reverse r)).

(** [iter_fn f k a]: follow [f] exactly [k] times from [a]. *)
Fixpoint iter_fn f (k : nat) a : option A :=
  match k with
  | O => Some a
  | S k' => match f a with Some b => iter_fn f k' b | None => None end
  end.

Global Arguments lastd : simpl never.

Lemma lastd_nil a : lastd a [] = a.
Proof. reflexivity. Qed.

Lemma lastd_cons a x l : lastd a (x :: l) = lastd x l.
Proof.
  unfold lastd. revert a x. induction l as [|y l IH]; intros a x; [done|].
  change (List.last (x :: y :: l) a) with (List.last (y :: l) a).
  by rewrite (IH a y), (IH x y).
Qed.

Lemma lastd_app a l1 l2 : lastd a (l1 ++ l2) = lastd (lastd a l1) l2.
Proof.
  revert a. induction l1 as [|x l1 IH]; intros a; [done|].
  by rewrite <- app_comm_cons, !lastd_cons, IH.
Qed.

Lemma lastd_singleton a x : lastd a [x] = x.
Proof. reflexivity. Qed.

Lemma lastd_snoc a l x : lastd a (l ++ [x]) = x.
Proof. by rewrite lastd_app. Qed.

Lemma lastd_reverse a l : lastd a (reverse l) = hd a l.
Proof. destruct l as [|x l]; [done|]. rewrite reverse_cons. apply lastd_snoc. Qed.

Lemma hd_reverse a l : hd a (reverse l) = lastd a l.
Proof. by rewrite <- (reverse_involutive l) at 2; rewrite lastd_reverse. Qed.

Lemma hd_app a l1 l2 : hd a (l1 ++ l2) = hd (hd a l2) l1.
Proof. by destruct l1. Qed.

Lemma hd_indep a b l : l ≠ [] → hd a l = hd b l.
Proof. by destruct l. Qed.

Lemma hd_elem_nonempty a l : l ≠ [] → hd a l ∈ l.
Proof. destruct l; [done|]. set_solver. Qed.

Lemma lastd_elem a l : lastd a l ∈ a :: l.
Proof.
  revert a. induction l as [|x l IH]; intros a.
  - rewrite lastd_nil. set_solver.
  - rewrite lastd_cons. specialize (IH x). set_solver.
Qed.

Lemma lastd_elem_nonempty a l : l ≠ [] → lastd a l ∈ l.
Proof. destruct l as [|x l]; [done|]. intros _. rewrite lastd_cons. apply lastd_elem. Qed.

Lemma lastd_indep a b l : l ≠ [] → lastd a l = lastd b l.
Proof. destruct l; [done|]. intros _. by rewrite !lastd_cons. Qed.

Lemma hd_elem a l : hd a l ∈ l ++ [a].
Proof. destruct l; set_solver. Qed.

Lemma walk_app f a l1 l2 :
  walk f a (l1 ++ l2) ↔ walk f a l1 ∧ walk f (lastd a l1) l2.
Proof.
  revert a. induction l1 as [|x l1 IH]; intros a; simpl.
  - rewrite lastd_nil. tauto.
  - rewrite lastd_cons, IH. tauto.
Qed.

Lemma walk_snoc f a l b :
  walk f a (l ++ [b]) ↔ walk f a l ∧ f (lastd a l) = Some b.
Proof. rewrite walk_app. simpl. tauto. Qed.

(** [walk f a l] reads [f] at [a] and at the elements of [l] except the
    last one; agreeing on [a :: l] is therefore enough. *)
Lemma walk_frame f f' a l :
  (∀ u, u ∈ a :: l → f' u = f u) → walk f a l → walk f' a l.
Proof.
  revert a. induction l as [|x l IH]; intros a Hag; simpl; [done|].
  intros [Hx Hw]. split.
  - rewrite Hag; [done|set_solver].
  - apply IH; [|done]. intros u Hu. apply Hag. set_solver.
Qed.

Lemma walk_frame_snoc f f' a l b :
  (∀ u, u ∈ a :: l → f' u = f u) → walk f a (l ++ [b]) → walk f' a (l ++ [b]).
Proof.
  intros Hag. rewrite !walk_snoc. intros [Hw Hl]. split.
  - by apply (walk_frame f).
  - rewrite Hag; [done|]. apply lastd_elem.
Qed.


Lemma walk_split_hd f a l1 l2 e :
  walk f a (l1 ++ l2 ++ [e]) ↔
  walk f a (l1 ++ [hd e l2]) ∧ walk f (hd e l2) (tl (l2 ++ [e])).
Proof.
  destruct l2 as [|n l2]; simpl.
  - tauto.
  - replace (l1 ++ n :: l2 ++ [e]) with ((l1 ++ [n]) ++ l2 ++ [e])
      by (by rewrite <- app_assoc).
    by rewrite walk_app, lastd_snoc.
Qed.

(** Appending one more step to a walk after rewriting its last link. *)
Lemma walk_extend f f' a l b :
  NoDup (a :: l) →
  f' (lastd a l) = Some b →
  (∀ u, u ∈ a :: l → u ≠ lastd a l → f' u = f u) →
  walk f a l → walk f' a (l ++ [b]).
Proof.
  revert a. induction l as [|x l IH]; intros a Hnd Hlast Hag; simpl.
  - by rewrite lastd_nil in Hlast.
  - rewrite lastd_cons in Hlast, Hag. intros [Hx Hw].
    apply NoDup_cons in Hnd as [Hin Hnd]. split.
    + rewrite Hag; [done|set_solver|]. intros ->. apply Hin, lastd_elem.
    + apply IH; [done|done| |done]. intros u Hu. apply Hag. set_solver.
Qed.

Lemma walk_redirect f f' a l b b' :
  NoDup (a :: l) →
  f' (lastd a l) = Some b' →
  (∀ u, u ∈ a :: l → u ≠ lastd a l → f' u = f u) →
  walk f a (l ++ [b]) → walk f' a (l ++ [b']).
Proof.
  intros Hnd Hlast Hag [Hw _]%walk_snoc. by apply (walk_extend f).
Qed.

(** Forward half of cutting the run [r] out of a closed walk. *)
Lemma walk_cut f f' s l1 r l2 e :
  NoDup (s :: l1 ++ r ++ l2) →
  f' (lastd s l1) = Some (hd e l2) →
  (∀ u, u ≠ lastd s l1 → f' u = f u) →
  walk f s (l1 ++ r ++ l2 ++ [e]) → walk f' s (l1 ++ l2 ++ [e]).
Proof.
  intros Hnd Hp Hag Hw.
  apply walk_split_hd. split.
  - replace (l1 ++ r ++ l2 ++ [e]) with (l1 ++ (r ++ l2) ++ [e]) in Hw
      by (by rewrite <- app_assoc).
    apply walk_split_hd in Hw as [Hw _].
    apply (walk_redirect f f' s l1 (hd e (r ++ l2))); [|done| |done].
    + apply NoDup_cons in Hnd as [Hin Hnd]. apply NoDup_cons. split; [set_solver|].
      by apply NoDup_app in Hnd as [? _].
    + intros u _ Hu. by apply Hag.
  - destruct l2 as [|n l2]; [done|]. simpl.
    replace (l1 ++ r ++ (n :: l2) ++ [e]) with ((l1 ++ r ++ [n]) ++ l2 ++ [e]) in Hw
      by (by rewrite <- !app_assoc).
    apply walk_app in Hw as [_ Hw].
    rewrite app_assoc, lastd_snoc in Hw.
    apply (walk_frame_snoc f); [|done].
    intros u Hu. apply Hag. intros ->.
    pose proof (lastd_elem s l1) as Hl.
    rewrite app_comm_cons, app_assoc in Hnd.
    apply NoDup_app in Hnd as (_ & Hdisj & _).
    apply (Hdisj (lastd s l1)); [|done].
    rewrite <- app_comm_cons. set_solver.
Qed.

(** Forward half of pasting a detached run [r] between [ra] and [rb]. *)
Lemma walk_paste f f' s ra r rb e :
  r ≠ [] →
  NoDup (s :: ra ++ rb) → NoDup r →
  (∀ u, u ∈ r → u ∉ s :: ra ++ rb) →
  f' (lastd s ra) = Some (hd s r) →
  f' (lastd s r) = Some (hd e rb) →
  (∀ u, u ≠ lastd s ra → u ≠ lastd s r → f' u = f u) →
  walk f s (ra ++ rb ++ [e]) → walk f (hd s r) (tl r) →
  walk f' s (ra ++ r ++ rb ++ [e]).
Proof.
  intros Hr Hnd Hndr Hdisj Hp Ht Hag Hw Hin.
  destruct r as [|a r]; [done|]. clear Hr. simpl in Hp, Hin.
  rewrite lastd_cons in Ht, Hag.
  assert (Hta : lastd a r ∈ a :: r) by apply lastd_elem.
  assert (Hps : lastd s ra ∈ s :: ra) by apply lastd_elem.
  apply walk_split_hd in Hw as [Hw1 Hw2].
  replace (ra ++ (a :: r) ++ rb ++ [e]) with (((ra ++ [a]) ++ r) ++ rb ++ [e])
    by (by rewrite <- !app_assoc).
  apply walk_split_hd. split.
  - rewrite <- app_assoc. apply walk_app. rewrite lastd_snoc. split.
    + apply (walk_redirect f f' s ra (hd e rb)); [|done| |done].
      * apply NoDup_cons in Hnd as [Hi Hnd]. apply NoDup_cons. split; [set_solver|].
        by apply NoDup_app in Hnd as [? _].
      * intros u Hu Hne. apply Hag; [done|]. intros ->.
        apply (Hdisj _ Hta). set_solver.
    + apply (walk_extend f); [done|done| |done].
      intros u Hu Hne. apply Hag; [|done]. intros ->.
      apply (Hdisj _ Hu). set_solver.
  - destruct rb as [|n rb]; [done|]. simpl in *.
    apply (walk_frame_snoc f); [|done].
    intros u Hu. apply Hag.
    + intros ->. apply NoDup_cons in Hnd as [Hi Hnd].
      apply elem_of_cons in Hps as [Heq|Hps]; [rewrite Heq in Hu; set_solver|].
      apply NoDup_app in Hnd as (_ & Hd & _). by apply (Hd _ Hps).
    + intros ->. apply (Hdisj _ Hta). set_solver.
Qed.

Lemma ring_NoDup f g s l : ring f g s l → NoDup (s :: l).
Proof. by intros [? _]. Qed.

Lemma ring_reverse f g s l : ring f g s l ↔ ring g f s (reverse l).
Proof.
  unfold ring. rewrite reverse_involutive.
  assert (NoDup (s :: l) ↔ NoDup (s :: reverse l)) as ->; [|tauto].
  by rewrite reverse_Permutation.
Qed.

Lemma ring_frame f g f' g' s l :
  (∀ u, u ∈ s :: l → f' u = f u) →
  (∀ u, u ∈ s :: l → g' u = g u) →
  ring f g s l → ring f' g' s l.
Proof.
  intros Hf Hg (Hnd & Hw & Hv). split; [done|]. split.
  - by apply (walk_frame_snoc f).
  - apply (walk_frame_snoc g); [|done].
    intros u Hu. apply Hg. set_solver.
Qed.

Lemma ring_next_pos f g s ra rb :
  ring f g s (ra ++ rb) → f (lastd s ra) = Some (hd s rb).
Proof.
  intros (_ & Hw & _). rewrite <- app_assoc in Hw.
  apply walk_split_hd in Hw as [Hw _]. by apply walk_snoc in Hw as [_ ?].
Qed.

Lemma ring_prev_pos f g s ra rb :
  ring f g s (ra ++ rb) → g (hd s rb) = Some (lastd s ra).
Proof.
  intros Hr%ring_reverse. rewrite reverse_app in Hr.
  apply ring_next_pos in Hr. by rewrite lastd_reverse, hd_reverse in Hr.
Qed.


Lemma walk_inner f a l1 r rest :
  walk f a (l1 ++ r ++ rest) → walk f (hd a r) (tl r).
Proof.
  destruct r as [|x r]; [done|]. simpl.
  replace (l1 ++ x :: r ++ rest) with ((l1 ++ [x]) ++ r ++ rest)
    by (by rewrite <- app_assoc).
  intros [_ Hw]%walk_app. rewrite lastd_snoc in Hw. by apply walk_app in Hw as [? _].
Qed.

Lemma half_cut f f' s l1 r l2 :
  NoDup (s :: l1 ++ r ++ l2) →
  walk f s (l1 ++ r ++ l2 ++ [s]) →
  f' (lastd s l1) = Some (hd s l2) →
  (∀ u, u ≠ lastd s l1 → f' u = f u) →
  walk f' s (l1 ++ l2 ++ [s]) ∧ walk f' (hd s r) (tl r).
Proof.
  intros Hnd Hw Hp Hag. split; [by apply (walk_cut f f' s l1 r)|].
  destruct r as [|x r]; [done|].
  apply (walk_frame f); [|by apply walk_inner in Hw]. simpl.
  intros u Hu. apply Hag. intros ->.
  pose proof (lastd_elem s l1) as Hl. nodup_solver.
Qed.

(** Cutting the run [r] out of a ring: one [next] link and one [prev]
    link are rewritten, everything else is left as it is. *)
Lemma ring_cut f g f' g' s l1 r l2 :
  ring f g s (l1 ++ r ++ l2) →
  f' (lastd s l1) = Some (hd s l2) →
  (∀ u, u ≠ lastd s l1 → f' u = f u) →
  g' (hd s l2) = Some (lastd s l1) →
  (∀ u, u ≠ hd s l2 → g' u = g u) →
  ring f' g' s (l1 ++ l2) ∧ seg f' g' s r.
Proof.
  intros (Hnd & Hw & Hv) Hf Hfo Hg Hgo.
  rewrite <- !app_assoc in Hw.
  destruct (half_cut f f' s l1 r l2) as [Hw1 Hw2]; [done..|].
  rewrite !reverse_app, <- !app_assoc in Hv.
  destruct (half_cut g g' s (reverse l2) (reverse r) (reverse l1)) as [Hv1 Hv2].
  - rewrite !reverse_Permutation. nodup_solver.
  - done.
  - by rewrite lastd_reverse, hd_reverse.
  - by rewrite lastd_reverse.
  - split.
    + split; [|split].
      * nodup_solver.
      * by rewrite <- app_assoc.
      * by rewrite reverse_app, <- app_assoc.
    + split; [done|]. by rewrite hd_reverse in Hv2.
Qed.


(** Pasting a detached run [r] into a ring between [ra] and [rb]: the
    two links facing the gap and the two outer links of the run are
    rewritten. *)
Lemma ring_paste f g f' g' s ra r rb :
  r ≠ [] →
  ring f g s (ra ++ rb) → seg f g s r →
  NoDup r → (∀ u, u ∈ r → u ∉ s :: ra ++ rb) →
  f' (lastd s ra) = Some (hd s r) →
  f' (lastd s r) = Some (hd s rb) →
  (∀ u, u ≠ lastd s ra → u ≠ lastd s r → f' u = f u) →
  g' (hd s r) = Some (lastd s ra) →
  g' (hd s rb) = Some (lastd s r) →
  (∀ u, u ≠ hd s r → u ≠ hd s rb → g' u = g u) →
  ring f' g' s (ra ++ r ++ rb).
Proof.
  intros Hr (Hnd & Hw & Hv) [Hs1 Hs2] Hndr Hdisj Hf1 Hf2 Hfo Hg1 Hg2 Hgo.
  split; [|split].
  - nodup_solver.
  - rewrite <- !app_assoc in Hw. rewrite <- !app_assoc.
    by apply (walk_paste f f' s ra r rb s).
  - rewrite !reverse_app, <- !app_assoc in Hv. rewrite !reverse_app, <- !app_assoc.
    apply (walk_paste g g' s (reverse rb) (reverse r) (reverse ra) s).
    + intros Hn. apply Hr. by rewrite <- (reverse_involutive r), Hn.
    + rewrite !reverse_Permutation. nodup_solver.
    + by rewrite reverse_Permutation.
    + intros u Hu. rewrite !reverse_Permutation. rewrite elem_of_reverse in Hu.
      specialize (Hdisj u Hu). set_solver.
    + by rewrite lastd_reverse, hd_reverse.
    + by rewrite lastd_reverse, hd_reverse.
    + intros u. rewrite !lastd_reverse. auto.
    + done.
    + by rewrite hd_reverse.
Qed.

(** Taking one node out of a ring; what happens to the links of the
    removed node itself does not matter. *)
Lemma ring_remove f g f' g' s l1 x l2 :
  ring f g s (l1 ++ x :: l2) →
  f' (lastd s l1) = Some (hd s l2) →
  (∀ u, u ≠ lastd s l1 → u ≠ x → f' u = f u) →
  g' (hd s l2) = Some (lastd s l1) →
  (∀ u, u ≠ hd s l2 → u ≠ x → g' u = g u) →
  ring f' g' s (l1 ++ l2).
Proof.
  intros Hring Hf Hfo Hg Hgo.
  pose proof (ring_NoDup _ _ _ _ Hring) as Hnd.
  pose proof (lastd_elem s l1) as HA. pose proof (hd_elem s l2) as HB.
  assert (HAx : lastd s l1 ≠ x) by (intros Heq; rewrite Heq in HA; nodup_solver).
  assert (HBx : hd s l2 ≠ x) by (intros Heq; rewrite Heq in HB; nodup_solver).
  destruct (ring_cut f g
              (λ u, if decide (u = x) then f u else f' u)
              (λ u, if decide (u = x) then g u else g' u)
              s l1 [x] l2) as [Hcut _].
  - done.
  - by rewrite decide_False.
  - intros u Hu. case_decide; [done|]. by apply Hfo.
  - by rewrite decide_False.
  - intros u Hu. case_decide; [done|]. by apply Hgo.
  - apply (ring_frame _ _ f' g') in Hcut; [done|..].
    + intros u Hu. rewrite decide_False; [done|]. intros ->. nodup_solver.
    + intros u Hu. rewrite decide_False; [done|]. intros ->. nodup_solver.
Qed.

(** Putting one fresh node into the gap between [ra] and [rb]. *)
Lemma ring_insert f g f' g' s ra x rb :
  ring f g s (ra ++ rb) → x ∉ s :: ra ++ rb →
  f' (lastd s ra) = Some x →
  f' x = Some (hd s rb) →
  (∀ u, u ≠ lastd s ra → u ≠ x → f' u = f u) →
  g' x = Some (lastd s ra) →
  g' (hd s rb) = Some x →
  (∀ u, u ≠ x → u ≠ hd s rb → g' u = g u) →
  ring f' g' s (ra ++ x :: rb).
Proof.
  intros Hring Hx Hf1 Hf2 Hfo Hg1 Hg2 Hgo.
  apply (ring_paste f g f' g' s ra [x] rb); rewrite ?lastd_singleton; simpl hd;
    try done.
  - apply NoDup_singleton.
  - by intros u ->%list_elem_of_singleton.
Qed.

(** Two prefixes of a duplicate-free list that end in the same element
    are the same prefix. *)
Lemma lastd_prefix_inj s l1 l2 ra rb :
  NoDup (s :: l1 ++ l2) → l1 ++ l2 = ra ++ rb →
  lastd s l1 = lastd s ra → l1 = ra.
Proof.
  revert s ra. induction l1 as [|x l1 IH]; intros s ra Hnd Hsplit Hlast.
  - destruct ra as [|y ra]; [done|]. exfalso.
    rewrite lastd_nil in Hlast.
    pose proof (lastd_elem_nonempty s (y :: ra)) as Hin.
    rewrite <- Hlast in Hin. simpl in Hsplit. rewrite Hsplit in Hnd.
    specialize (Hin ltac:(done)). nodup_solver.
  - destruct ra as [|y ra].
    + exfalso. rewrite lastd_nil in Hlast.
      pose proof (lastd_elem_nonempty s (x :: l1)) as Hin.
      rewrite Hlast in Hin. specialize (Hin ltac:(done)). nodup_solver.
    + simpl in Hsplit. injection Hsplit as <- Hsplit.
      rewrite !lastd_cons in Hlast. f_equal.
      apply (IH x ra); [|done..]. nodup_solver.
Qed.

(** The predecessor of a position that is not the successor of [x] is the
    same with and without [x]. *)
Lemma ring_prev_without f g s l1 x l2 ra rb :
  ring f g s (l1 ++ x :: l2) → l1 ++ l2 = ra ++ rb →
  hd s rb ≠ hd s l2 →
  g (hd s rb) = Some (lastd s ra).
Proof.
  intros Hring Hsplit Hne.
  assert (ring (λ u, if decide (u = x) then f u
                     else if decide (u = lastd s l1) then Some (hd s l2) else f u)
               (λ u, if decide (u = x) then g u
                     else if decide (u = hd s l2) then Some (lastd s l1) else g u)
               s (l1 ++ l2)) as Hcut.
  { pose proof (ring_NoDup _ _ _ _ Hring) as Hnd.
    pose proof (lastd_elem s l1) as HA. pose proof (hd_elem s l2) as HB.
    apply (ring_remove f g _ _ s l1 x l2 Hring).
    - rewrite decide_False; [by rewrite decide_True|].
      intros Heq. rewrite Heq in HA. nodup_solver.
    - intros u Hu1 Hu2. by rewrite !decide_False.
    - rewrite decide_False; [by rewrite decide_True|].
      intros Heq. rewrite Heq in HB. nodup_solver.
    - intros u Hu1 Hu2. by rewrite !decide_False. }
  rewrite Hsplit in Hcut. apply ring_prev_pos in Hcut.
  pose proof (ring_NoDup _ _ _ _ Hring) as Hnd.
  pose proof (hd_elem s rb) as Hp.
  rewrite decide_False in Hcut.
  - by rewrite decide_False in Hcut.
  - intros Heq. rewrite Heq in Hp.
    assert (x ∈ (l1 ++ l2) ++ [s]) as Hin by (rewrite Hsplit; set_solver).
    nodup_solver.
Qed.

(** What the single-node splice leaves behind, read off the rewritten
    link functions: [A] and [B] are the old neighbours of [x], [C] the old
    predecessor of the destination [hd s rb]. *)
Lemma splice_links f g f' g' s l1 x l2 ra rb C :
  ring f g s (l1 ++ x :: l2) → l1 ++ l2 = ra ++ rb →
  hd s rb ≠ hd s l2 →
  g (hd s rb) = Some C →
  (∀ u, f' u =
     if decide (u = lastd s ra) then Some x
     else if decide (u = x) then Some (hd s rb)
     else if decide (u = lastd s l1) then Some (hd s l2) else f u) →
  (∀ u, g' u =
     if decide (u = hd s rb) then Some x
     else if decide (u = x) then Some (lastd s ra)
     else if decide (u = hd s l2) then Some (lastd s l1) else g u) →
  f' (lastd s l1) = Some (hd s l2) ∧ g' x = Some C ∧
  f' x = Some (hd s rb) ∧ g' (hd s rb) = Some x.
Proof.
  intros Hring Hsplit Hne HC Hf Hg.
  pose proof (ring_NoDup _ _ _ _ Hring) as Hnd.
  pose proof (ring_prev_without _ _ _ _ _ _ _ _ Hring Hsplit Hne) as HC'.
  rewrite HC in HC'. injection HC' as ->.
  pose proof (lastd_elem s l1) as HA. pose proof (lastd_elem s ra) as Hb.
  pose proof (hd_elem s rb) as Hp.
  assert (Hx : x ∉ s :: ra ++ rb) by (rewrite <- Hsplit; nodup_solver).
  assert (HAx : lastd s l1 ≠ x) by (intros Heq; rewrite Heq in HA; nodup_solver).
  assert (Hbx : x ≠ lastd s ra) by (intros Heq; rewrite <- Heq in Hb; set_solver).
  assert (Hpx : x ≠ hd s rb) by (intros Heq; rewrite <- Heq in Hp; set_solver).
  assert (HAb : lastd s l1 ≠ lastd s ra).
  { intros Heq. apply Hne.
    assert (NoDup (s :: l1 ++ l2)) as Hnd' by nodup_solver.
    pose proof (lastd_prefix_inj s l1 l2 ra rb Hnd' Hsplit Heq) as ->.
    by apply app_inv_head in Hsplit as ->. }
  split_and!.
  - rewrite Hf. rewrite !decide_False by done. by rewrite decide_True.
  - rewrite Hg. rewrite decide_False by done. by rewrite decide_True.
  - rewrite Hf. rewrite decide_False by done. by rewrite decide_True.
  - rewrite Hg. by rewrite decide_True.
Qed.

(** The nodes of a moved run are none of the nodes around the gap. *)
Lemma ring_move_fresh f g s l1 r l2 ra rb u :
  ring f g s (l1 ++ r ++ l2) → l1 ++ l2 = ra ++ rb → u ∈ r →
  u ≠ lastd s ra ∧ u ≠ hd s rb ∧ u ≠ lastd s l1 ∧ u ≠ hd s l2 ∧ u ≠ s.
Proof.
  intros Hring Hsplit Hu.
  pose proof (ring_NoDup _ _ _ _ Hring) as Hnd.
  assert (Hfr : u ∉ s :: l1 ++ l2) by nodup_solver.
  pose proof (lastd_elem s ra). pose proof (hd_elem s rb).
  pose proof (lastd_elem s l1). pose proof (hd_elem s l2).
  assert (∀ v, v ∈ s :: ra ++ rb → v ≠ u) as Hne.
  { intros v Hv ->. apply Hfr. by rewrite Hsplit. }
  split_and!; intros ->; set_solver.
Qed.

(** A position of a ring (an element or the sentinel, which stands for
    the end) splits the elements into those before it and those from it on. *)
Lemma split_at_pos s l p :
  p ∈ l ++ [s] → ∃ ra rb, l = ra ++ rb ∧ p = hd s rb.
Proof.
  intros [Hp|Hp]%elem_of_app.
  - apply list_elem_of_split in Hp as (ra & rb & ->). by exists ra, (p :: rb).
  - apply list_elem_of_singleton in Hp as ->. exists l, []. by rewrite app_nil_r.
Qed.

Lemma walk_source f a l b u :
  walk f a (l ++ [b]) → u ∈ a :: l → is_Some (f u).
Proof.
  revert a. induction l as [|x l IH]; intros a; simpl.
  - intros [Ha _] Hu. assert (u = a) as -> by set_solver. by eexists.
  - intros [Ha Hw] [->|Hu]%elem_of_cons; [by eexists|]. by apply (IH x).
Qed.

(** Every node of a ring has both links set. *)
Lemma ring_links f g s l u :
  ring f g s l → u ∈ s :: l → is_Some (f u) ∧ is_Some (g u).
Proof.
  intros (_ & Hw & Hv) Hu. split.
  - by apply (walk_source f s l s).
  - apply (walk_source g s (reverse l) s); [done|]. set_solver.
Qed.

Lemma walk_iter f a l k x :
  walk f a l → l !! k = Some x → iter_fn f (S k) a = Some x.
Proof.
  revert a k. induction l as [|y l IH]; intros a k; [done|].
  intros [Hy Hw] Hk. simpl. rewrite Hy.
  destruct k as [|k]; simpl in Hk.
  - by injection Hk as ->.
  - by apply IH.
Qed.

(** Following the first link function from the sentinel comes back to
    the sentinel after exactly [length l + 1] steps, and not earlier. *)
Lemma ring_iter f g s l :
  ring f g s l →
  iter_fn f (S (length l)) s = Some s ∧
  (∀ k, k < length l → iter_fn f (S k) s ≠ Some s) ∧
  (∀ k x, l !! k = Some x → iter_fn f (S k) s = Some x).
Proof.
  intros (Hnd & Hw & _). split; [|split].
  - apply (walk_iter f s (l ++ [s])); [done|].
    by rewrite lookup_app_r, Nat.sub_diag.
  - intros k Hk. destruct (lookup_lt_is_Some_2 l k Hk) as [x Hx].
    rewrite (walk_iter f s (l ++ [s]) k x); [|done|by rewrite lookup_app_l].
    intros [= ->]. apply NoDup_cons in Hnd as [Hin _].
    by apply Hin, list_elem_of_lookup_2 with k.
  - intros k x Hx. apply (walk_iter f s (l ++ [s])); [done|].
    rewrite lookup_app_l; [done|]. by apply lookup_lt_Some in Hx.
Qed.

Lemma walk_unique f a s l l' :
  s ∉ l → s ∉ l' → walk f a (l ++ [s]) → walk f a (l' ++ [s]) → l = l'.
Proof.
  revert a l'. induction l as [|x l IH]; intros a [|x' l'] Hs Hs'; simpl.
  - done.
  - intros [H1 _] [H2 _]. rewrite H1 in H2. injection H2 as <-. set_solver.
  - intros [H1 _] [H2 _]. rewrite H1 in H2. injection H2 as <-. set_solver.
  - intros [H1 Hw] [H2 Hw']. rewrite H1 in H2. injection H2 as <-.
    f_equal. apply (IH x); [set_solver|set_solver|done|done].
Qed.

Lemma ring_unique f g s l l' : ring f g s l → ring f g s l' → l = l'.
Proof.
  intros (Hnd & Hw & _) (Hnd' & Hw' & _).
  apply (walk_unique f s s); [| |done|done].
  - by apply NoDup_cons in Hnd as [? _].
  - by apply NoDup_cons in Hnd' as [? _].
Qed.

End Ring.
End Ring.

(** ** Execution monad

    A call either returns a result and a new state, leaves by an exception
    (the state it left behind is kept, so that what the caller sees
    afterwards can be stated), or has undefined behaviour.  Loops of the
    source are run with an explicit bound. *)

Module Exec.

Inductive outcome (S A : Type) : Type :=
| Ok (a : A) (s : S)
| Throw (s : S)
| Fault
| OutOfFuel.
Global Arguments Ok {S A} a s.
Global Arguments Throw {S A} s.
Global Arguments Fault {S A}.
Global Arguments OutOfFuel {S A}.

Definition M (S A : Type) : Type := S → outcome S A.

Definition ret {S A} (a : A) : M S A := λ s, Ok a s.

Definition bind {S A B} (m : M S A) (k : A → M S B) : M S B :=
  λ s, match m s with
       | Ok a s' => k a s'
       | Throw s' => Throw s'
       | Fault => Fault
       | OutOfFuel => OutOfFuel
       end.

Definition fault {S A} : M S A := λ _, Fault.
Definition throw {S A} : M S A := λ s, Throw s.
Definition out_of_fuel {S A} : M S A := λ _, OutOfFuel.
Definition gets {S A} (f : S → A) : M S A := λ s, Ok (f s) s.
Definition modify {S} (f : S → S) : M S unit := λ s, Ok tt (f s).

(** Reading or writing through a pointer: [None] is the fault. *)
Definition read {S A} (f : S → option A) : M S A :=
  λ s, match f s with Some a => Ok a s | None => Fault end.
Definition write {S} (f : S → option S) : M S unit :=
  λ s, match f s with Some s' => Ok tt s' | None => Fault end.

(** The state a call left behind ([d] where it left none). *)
Definition state_of {S A} (d : S) (o : outcome S A) : S :=
  match o with
  | Ok _ s => s
  | Throw s => s
  | Fault | OutOfFuel => d
  end.

Global Instance M_ret {S} : MRet (M S) := λ A a, ret a.
Global Instance M_bind {S} : MBind (M S) := λ A B k m, bind m k.

Lemma bind_Ok {S A B} (m : M S A) (k : A → M S B) s a s' :
  m s = Ok a s' → (m ≫= k) s = k a s'.
Proof. unfold mbind, M_bind, bind. by intros ->. Qed.

Lemma bind_Throw {S A B} (m : M S A) (k : A → M S B) s s' :
  m s = Throw s' → (m ≫= k) s = Throw s'.
Proof. unfold mbind, M_bind, bind. by intros ->. Qed.

End Exec.

(** ** The pool-backed list: [ll_list_pool<T>] *)

Module Pool.
Import Exec.

(** Where a [node*] can point: at the sentinel member of the list object
    or at a slot of the slab; [None] is [nullptr]. *)
Inductive loc : Type :=
| Sentinel
| Slot (i : nat).

Global Instance loc_eq_dec : EqDecision loc.
Proof. solve_decision. Defined.

Definition ptr : Type := option loc.

(** [std::size_t]: 64 bits, arithmetic wraps. *)
Definition size_max : N := 2 ^ 64.
Definition size_incr (n : N) : N := ((n + 1) mod size_max)%N.
Definition size_decr (n : N) : N := ((n + size_max - 1) mod size_max)%N.

Section Pool.
Context {T : Type}.

(** [struct node { node* prev; node* next; T value; }].  The value slot
    holds [None] while no [T] is alive in it (raw storage, or after the
    destructor has run). *)
Record node : Type := Node {
  prev : ptr;
  next : ptr;
  value : option T;
}.

(** The data members of [ll_list_pool]; [slab_] is the block the member
    points to, [Slot i] is the address [&slab_[i]]. *)
Record ll_list_pool : Type := ListPool {
  sentinel_ : node;
  slab_ : list node;
  free_ : ptr;
  cap_ : N;
  size_ : N;
}.

Definition set_sentinel (n : node) (st : ll_list_pool) : ll_list_pool :=
  ListPool n (slab_ st) (free_ st) (cap_ st) (size_ st).
Definition set_slab (sl : list node) (st : ll_list_pool) : ll_list_pool :=
  ListPool (sentinel_ st) sl (free_ st) (cap_ st) (size_ st).
Definition set_free (p : ptr) (st : ll_list_pool) : ll_list_pool :=
  ListPool (sentinel_ st) (slab_ st) p (cap_ st) (size_ st).
Definition set_size (k : N) (st : ll_list_pool) : ll_list_pool :=
  ListPool (sentinel_ st) (slab_ st) (free_ st) (cap_ st) k.

(** [*p] for reading. *)
Definition deref (p : ptr) (st : ll_list_pool) : option node :=
  match p with
  | None => None
  | Some Sentinel => Some (sentinel_ st)
  | Some (Slot i) => slab_ st !! i
  end.

(** [*p = n]. *)
Definition assign (p : ptr) (n : node) (st : ll_list_pool) : option ll_list_pool :=
  match p with
  | None => None
  | Some Sentinel => Some (set_sentinel n st)
  | Some (Slot i) =>
      if decide (i < length (slab_ st)) then Some (set_slab (<[i:=n]> (slab_ st)) st)
      else None
  end.

Definition with_prev (v : ptr) (n : node) : node := Node v (next n) (value n).
Definition with_next (v : ptr) (n : node) : node := Node (prev n) v (value n).
Definition with_value (v : option T) (n : node) : node := Node (prev n) (next n) v.

Definition update (p : ptr) (f : node → node) : M ll_list_pool unit :=
  write (λ st, match deref p st with Some n => assign p (f n) st | None => None end).

(** [p->prev], [p->next], [p->value]. *)
Definition load_prev (p : ptr) : M ll_list_pool ptr := read (λ st, prev <$> deref p st).
Definition load_next (p : ptr) : M ll_list_pool ptr := read (λ st, next <$> deref p st).
Definition load_value (p : ptr) : M ll_list_pool T := read (λ st, deref p st ≫= value).

(** [p->prev = v], [p->next = v]. *)
Definition store_prev (p v : ptr) : M ll_list_pool unit := update p (with_prev v).
Definition store_next (p v : ptr) : M ll_list_pool unit := update p (with_next v).

(** [::new (&p->value) T(std::forward<Args>(args)...)]: [c] is what the
    constructor of [T] does with the arguments, [Some v] when it builds
    the value [v], [None] when it throws; the exception leaves the call. *)
Definition construct_value (p : ptr) (c : option T) : M ll_list_pool unit :=
  match c with
  | Some v => update p (with_value (Some v))
  | None => throw
  end.

(** [p->value.~T()]: there must be a live value to destroy. *)
Definition destroy_value (p : ptr) : M ll_list_pool unit :=
  _ ← load_value p; update p (with_value None).

(** [static void link_between(node* x, node* a, node* b)]. *)
Definition link_between (x a b : ptr) : M ll_list_pool unit :=
  store_prev x a;;
  store_next x b;;
  store_next a x;;
  store_prev b x.

(** [static void unlink(node* x)]. *)
Definition unlink (x : ptr) : M ll_list_pool unit :=
  p ← load_prev x; n ← load_next x; store_next p n;;
  n' ← load_next x; p' ← load_prev x; store_prev n' p'.

(** [node* alloc_node()]: throws [std::bad_alloc] when the free list is
    empty (the failure the specification calls PoolExhausted). *)
Definition alloc_node : M ll_list_pool ptr :=
  f ← gets free_;
  match f with
  | None => throw
  | Some _ =>
      nx ← load_next f;
      modify (set_free nx);;
      mret f
  end.

(** [void free_node(node* n)]. *)
Definition free_node (n : ptr) : M ll_list_pool unit :=
  f ← gets free_;
  store_next n f;;
  modify (set_free n).

(** [class iterator]: a wrapper around [node* n_]. *)
Definition iterator : Type := ptr.

(** [operator*], [operator++], [operator--]. *)
Definition iter_deref (it : iterator) : M ll_list_pool T := load_value it.
Definition iter_incr (it : iterator) : M ll_list_pool iterator := load_next it.
Definition iter_decr (it : iterator) : M ll_list_pool iterator := load_prev it.

(** The loop of the constructor that threads the slots onto the free list:
    [for (i = from; i < from + count; ++i) { slab_[i].next = free_; free_ = &slab_[i]; }] *)
Fixpoint build_free_list (from count : nat) : M ll_list_pool unit :=
  match count with
  | O => mret tt
  | S count' =>
      f ← gets free_;
      store_next (Some (Slot from)) f;;
      modify (set_free (Some (Slot from)));;
      build_free_list (S from) count'
  end.

(** Storage before anything has been written to it. *)
Definition raw_node : node := Node None None None.

(** The object when the body of the constructor starts: the member
    initialisers [slab_(nullptr), free_(nullptr), cap_(capacity), size_(0)]
    have run, the sentinel is not yet written. *)
Definition raw_list (capacity : N) : ll_list_pool :=
  ListPool raw_node [] None capacity 0.

(** [slab_ = static_cast<node*>(::operator new(sizeof(node) * cap_, ...))].
    The product is computed in [std::size_t], so it wraps.  [avail] is
    the number of bytes the allocator can give: asked for more,
    [operator new] throws [std::bad_alloc].  The block it returns holds
    as many nodes as fit into the bytes asked for; an access past it
    faults. *)
Definition alloc_slab (sizeof_node avail : N) : M ll_list_pool unit :=
  cap ← gets cap_;
  let bytes := ((sizeof_node * cap) mod size_max)%N in
  if decide (bytes ≤ avail)%N
  then modify (set_slab (replicate (N.to_nat (bytes / sizeof_node)) raw_node))
  else throw.

(** [explicit ll_list_pool(std::size_t capacity)], for an element type
    whose [node] has [sizeof_node] bytes and an allocator that can give
    [avail] bytes. *)
Definition construct (sizeof_node avail capacity : N) : outcome ll_list_pool unit :=
  (alloc_slab sizeof_node avail;;
   build_free_list 0 (N.to_nat capacity);;
   store_prev (Some Sentinel) (Some Sentinel);;
   store_next (Some Sentinel) (Some Sentinel)) (raw_list capacity).

Definition empty (st : ll_list_pool) : bool := bool_decide (size_ st = 0%N).
Definition size (st : ll_list_pool) : N := size_ st.
Definition begin_ (st : ll_list_pool) : iterator := next (sentinel_ st).
Definition end_ (st : ll_list_pool) : iterator := Some Sentinel.

(** The loop of [clear]: [while (cur != end) { ... cur = next; }]. *)
Fixpoint clear_loop (fuel : nat) (cur : ptr) : M ll_list_pool unit :=
  if decide (cur = Some Sentinel) then mret tt
  else match fuel with
       | O => out_of_fuel
       | S fuel' =>
           nx ← load_next cur;
           destroy_value cur;;
           free_node cur;;
           clear_loop fuel' nx
       end.

(** [void clear()]. *)
Definition clear (fuel : nat) : M ll_list_pool unit :=
  cur ← load_next (Some Sentinel);
  clear_loop fuel cur;;
  store_prev (Some Sentinel) (Some Sentinel);;
  store_next (Some Sentinel) (Some Sentinel);;
  modify (set_size 0).

(** [iterator emplace_front(Args&&...)]; [c] is what the constructor of
    [T] does with the arguments. *)
Definition emplace_front (c : option T) : M ll_list_pool iterator :=
  n ← alloc_node;
  construct_value n c;;
  first ← load_next (Some Sentinel);
  link_between n (Some Sentinel) first;;
  modify (λ st, set_size (size_incr (size_ st)) st);;
  mret n.

(** [iterator emplace_back(Args&&...)]; [c] is what the constructor of
    [T] does with the arguments. *)
Definition emplace_back (c : option T) : M ll_list_pool iterator :=
  n ← alloc_node;
  construct_value n c;;
  last ← load_prev (Some Sentinel);
  link_between n last (Some Sentinel);;
  modify (λ st, set_size (size_incr (size_ st)) st);;
  mret n.

(** [iterator erase(iterator it)]. *)
Definition erase (it : iterator) : M ll_list_pool iterator :=
  nx ← load_next it;
  unlink it;;
  destroy_value it;;
  free_node it;;
  modify (λ st, set_size (size_decr (size_ st)) st);;
  mret nx.

(** [void splice(iterator pos, iterator what)]. *)
Definition splice (pos what : iterator) : M ll_list_pool unit :=
  if decide (what = pos) then mret tt
  else
    unlink what;;
    before ← load_prev pos;
    link_between what before pos.

(** [void splice(iterator pos, iterator first, iterator last)]. *)
Definition splice_range (pos first last : iterator) : M ll_list_pool unit :=
  if decide (first = last) then mret tt
  else
    tail ← load_prev last;
    a_prev ← load_prev first;
    store_next a_prev last;;
    a_prev' ← load_prev first;
    store_prev last a_prev';;
    before ← load_prev pos;
    store_next before first;;
    store_prev first before;;
    store_next tail pos;;
    store_prev pos tail.

(** The loop [for (it = cur; it != end(); ++it)] collecting the value
    each [it] dereferences to. *)
Fixpoint values_from (fuel : nat) (cur : iterator) : M ll_list_pool (list T) :=
  if decide (cur = Some Sentinel) then mret []
  else match fuel with
       | O => out_of_fuel
       | S fuel' =>
           v ← iter_deref cur;
           nx ← iter_incr cur;
           vs ← values_from fuel' nx;
           mret (v :: vs)
       end.

(** Forward traversal from [begin()] to [end()]. *)
Definition to_list (fuel : nat) : M ll_list_pool (list T) :=
  b ← gets begin_; values_from fuel b.

(** The loop [for (it = cur; it != end(); --it)] collecting the value
    each [it] dereferences to. *)
Fixpoint values_back_from (fuel : nat) (cur : iterator) : M ll_list_pool (list T) :=
  if decide (cur = Some Sentinel) then mret []
  else match fuel with
       | O => out_of_fuel
       | S fuel' =>
           v ← iter_deref cur;
           pv ← iter_decr cur;
           vs ← values_back_from fuel' pv;
           mret (v :: vs)
       end.

(** Backward traversal from the last element ([--end()]) to [end()]. *)
Definition to_list_back (fuel : nat) : M ll_list_pool (list T) :=
  b ← iter_decr (Some Sentinel); values_back_from fuel b.


(** *** Views of a state

    The [next], [prev] and [value] fields as functions of the location. *)

Definition nextf (st : ll_list_pool) (u : loc) : option loc := deref (Some u) st ≫= next.
Definition prevf (st : ll_list_pool) (u : loc) : option loc := deref (Some u) st ≫= prev.
Definition valuef (st : ll_list_pool) (u : loc) : option T := deref (Some u) st ≫= value.
Definition valid (st : ll_list_pool) (u : loc) : Prop := is_Some (deref (Some u) st).

(** [updated a n' st st']: [st'] is [st] with the node at [a] replaced by [n']. *)
Definition updated (a : loc) (n' : node) (st st' : ll_list_pool) : Prop :=
  (∀ u, deref (Some u) st' = if decide (u = a) then Some n' else deref (Some u) st) ∧
  free_ st' = free_ st ∧ cap_ st' = cap_ st ∧ size_ st' = size_ st ∧
  length (slab_ st') = length (slab_ st).

(** What no pointer write changes. *)
Definition same_pool (st st' : ll_list_pool) : Prop :=
  free_ st' = free_ st ∧ cap_ st' = cap_ st ∧ size_ st' = size_ st ∧
  length (slab_ st') = length (slab_ st).

(** [contents st l]: the list holds the nodes [l], in this order. *)
Definition contents (st : ll_list_pool) (l : list loc) : Prop :=
  Ring.ring (nextf st) (prevf st) Sentinel l.

(** [values st l vs]: the nodes [l] hold the values [vs]. *)
Definition values (st : ll_list_pool) (l : list loc) (vs : list T) : Prop :=
  Forall2 (λ u v, valuef st u = Some v) l vs.

(** [free_chain f p fl]: starting at [p], the singly linked chain through
    [f] consists of [fl] and ends in [nullptr]. *)
Fixpoint free_chain (f : loc → option loc) (p : ptr) (fl : list loc) : Prop :=
  match fl with
  | [] => p = None
  | x :: fl' => p = Some x ∧ free_chain f (f x) fl'
  end.

(** The slots of the slab. *)
Definition slots (st : ll_list_pool) : list loc := Slot <$> seq 0 (length (slab_ st)).

(** The class invariant: the live nodes [l] form the ring, the free nodes
    [fl] form the free chain; [lost] are the nodes that were taken from
    the free chain for an element whose constructor then threw, and that
    are on neither since.  Together they are exactly the slots of the
    slab, each once; live nodes hold a value, the others do not. *)
Record pool_inv (st : ll_list_pool) (l fl lost : list loc) : Prop := PoolInv {
  inv_ring : contents st l;
  inv_free : free_chain (nextf st) (free_ st) fl;
  inv_slots : l ++ fl ++ lost ≡ₚ slots st;
  inv_size : size_ st = N.of_nat (length l);
  inv_cap : cap_ st = N.of_nat (length (slab_ st));
  inv_cap_bound : (cap_ st < size_max)%N;
  inv_live : ∀ u, u ∈ l → is_Some (valuef st u);
  inv_dead : ∀ u, u ∈ fl ++ lost → valuef st u = None;
}.

(** A run of emplace calls, each with what the constructor of its
    element does; [true] stands for [emplace_front], [false] for
    [emplace_back]. *)
Fixpoint emplace_all (calls : list (bool * option T)) : M ll_list_pool unit :=
  match calls with
  | [] => mret tt
  | (front, c) :: calls' =>
      (if front then emplace_front c else emplace_back c);;
      emplace_all calls'
  end.

(** Emplace calls whose element constructors all return, each building
    the value given. *)
Definition returning (calls : list (bool * T)) : list (bool * option T) :=
  (λ c, (c.1, Some c.2)) <$> calls.

(** The sequence of values such a run makes of the sequence [vs]. *)
Definition emplaced (vs : list T) (calls : list (bool * T)) : list T :=
  foldl (λ (acc : list T) (c : bool * T), if c.1 then c.2 :: acc else acc ++ [c.2])
    vs calls.

(** *** Sequences of calls *)

Inductive call : Type :=
| EmplaceFront (c : option T)
| EmplaceBack (c : option T)
| Erase (it : iterator)
| Splice (pos what : iterator)
| SpliceRange (pos first last : iterator)
| Clear (fuel : nat).

Definition run (c : call) : M ll_list_pool unit :=
  match c with
  | EmplaceFront c0 => emplace_front c0;; mret tt
  | EmplaceBack c0 => emplace_back c0;; mret tt
  | Erase it => erase it;; mret tt
  | Splice pos what => splice pos what
  | SpliceRange pos first last => splice_range pos first last
  | Clear fuel => clear fuel
  end.

(** The contract of a call on a list that holds the nodes [l]: iterators
    name live nodes ([pos] may be [end()]), a range is a run of the list
    and [pos] lies outside it; the bound given to [clear] is large enough
    for its loop. *)
Definition allowed (l : list loc) (c : call) : Prop :=
  match c with
  | EmplaceFront _ | EmplaceBack _ => True
  | Erase it => ∃ x, it = Some x ∧ x ∈ l
  | Splice pos what =>
      ∃ p x, pos = Some p ∧ what = Some x ∧ x ∈ l ∧ p ∈ l ++ [Sentinel]
  | SpliceRange pos first last =>
      ∃ l1 r l2 p, l = l1 ++ r ++ l2 ∧
        first = Some (hd Sentinel (r ++ l2)) ∧ last = Some (hd Sentinel l2) ∧
        pos = Some p ∧ p ∈ l1 ++ l2 ++ [Sentinel]
  | Clear fuel => length l ≤ fuel
  end.

(** The states a list can be in: freshly constructed (whatever the size
    of its nodes and whatever the allocator could give, as long as the
    constructor returned), or after a call made within its contract has
    returned or thrown; an emplace may throw out of the element's
    constructor. *)
Inductive reachable : ll_list_pool → Prop :=
| reach_construct sizeof_node avail capacity st :
    (0 < sizeof_node)%N → (capacity < size_max)%N →
    construct sizeof_node avail capacity = Ok tt st → reachable st
| reach_return st l c st' :
    reachable st → contents st l → allowed l c → run c st = Ok tt st' → reachable st'
| reach_throw st l c st' :
    reachable st → contents st l → allowed l c → run c st = Throw st' → reachable st'.

(** The element constructor of the call, if it has one, returns. *)
Definition constructs (c : call) : Prop :=
  match c with
  | EmplaceFront None | EmplaceBack None => False
  | _ => True
  end.

(** The states a list can be in as long as no element constructor has
    thrown: freshly constructed, or after a call made within its contract
    whose element constructor returns (an emplace that throws
    [std::bad_alloc] leaves the list as it is). *)
Inductive intact : ll_list_pool → Prop :=
| intact_construct sizeof_node avail capacity st :
    (0 < sizeof_node)%N → (capacity < size_max)%N →
    construct sizeof_node avail capacity = Ok tt st → intact st
| intact_return st l c st' :
    intact st → contents st l → allowed l c → constructs c →
    run c st = Ok tt st' → intact st'.

(** Following [next], or [prev], [k] times from [p]. *)
Fixpoint follow (step : iterator → M ll_list_pool iterator) (k : nat) (p : iterator)
    : M ll_list_pool iterator :=
  match k with
  | O => mret p
  | S k' => q ← step p; follow step k' q
  end.

End Pool.
Global Arguments node : clear implicits.
Global Arguments ll_list_pool : clear implicits.
Global Arguments call : clear implicits.
Global Arguments inv_ring {T} st l fl {lost} _.
Global Arguments inv_free {T} st l fl {lost} _.
Global Arguments inv_slots {T} st l fl {lost} _.
Global Arguments inv_size {T} st l fl {lost} _.
Global Arguments inv_cap {T} st l fl {lost} _.
Global Arguments inv_cap_bound {T} st l fl {lost} _.
Global Arguments inv_live {T} st l fl {lost} _.
Global Arguments inv_dead {T} st l fl {lost} _.

(** Side conditions about the node lists only: forget the states, then
    solve the distinctness and membership goal. *)
Ltac list_solver :=
  repeat match goal with
         | st : ll_list_pool _ |- _ => clear dependent st
         end;
  nodup_solver.

(** *** Memory accesses *)

Section Facts.
Context {T : Type} {lost : list loc}.
Implicit Types (st : ll_list_pool T) (u a b x : loc).

Lemma bind_gets {A B} (f : ll_list_pool T → A) (k : A → M (ll_list_pool T) B) st :
  (gets f ≫= k) st = k (f st) st.
Proof. done. Qed.

Lemma bind_modify {B} (f : ll_list_pool T → ll_list_pool T)
    (k : unit → M (ll_list_pool T) B) st :
  (modify f ≫= k) st = k tt (f st).
Proof. done. Qed.

Lemma valid_iff st u :
  valid st u ↔ u = Sentinel ∨ ∃ i, u = Slot i ∧ i < length (slab_ st).
Proof.
  unfold valid. destruct u as [|i]; simpl.
  - split; [by left|by eexists].
  - rewrite lookup_lt_is_Some. naive_solver.
Qed.

Lemma valid_same st st' u :
  length (slab_ st') = length (slab_ st) → valid st u → valid st' u.
Proof. rewrite !valid_iff. intros ->. done. Qed.

Lemma nextf_valid st u b : nextf st u = Some b → valid st u.
Proof. unfold nextf, valid. destruct (deref _ _); naive_solver. Qed.

Lemma prevf_valid st u b : prevf st u = Some b → valid st u.
Proof. unfold prevf, valid. destruct (deref _ _); naive_solver. Qed.

Lemma update_ok a (f : node T → node T) st (n : node T) :
  deref (Some a) st = Some n →
  ∃ st', update (Some a) f st = Ok tt st' ∧ updated a (f n) st st'.
Proof.
  intros Hd. unfold update, write. rewrite Hd.
  destruct a as [|i]; simpl in *.
  - eexists. split; [done|]. split; [|done].
    intros [|j]; by simpl.
  - apply lookup_lt_Some in Hd as Hlt. rewrite decide_True by done.
    eexists. split; [done|]. split; [|by simpl; rewrite length_insert].
    intros [|j]; simpl; [done|].
    destruct (decide (j = i)) as [->|Hne].
    + rewrite decide_True by done. by apply list_lookup_insert_eq.
    + rewrite decide_False by congruence. by apply list_lookup_insert_ne.
Qed.

Lemma updated_nextf a n' st st' u :
  updated a n' st st' → nextf st' u = if decide (u = a) then next n' else nextf st u.
Proof. intros [Hd _]. unfold nextf. rewrite Hd. by case_decide. Qed.

Lemma updated_prevf a n' st st' u :
  updated a n' st st' → prevf st' u = if decide (u = a) then prev n' else prevf st u.
Proof. intros [Hd _]. unfold prevf. rewrite Hd. by case_decide. Qed.

Lemma updated_valuef a n' st st' u :
  updated a n' st st' → valuef st' u = if decide (u = a) then value n' else valuef st u.
Proof. intros [Hd _]. unfold valuef. rewrite Hd. by case_decide. Qed.

Lemma updated_same_pool a n' st st' : updated a n' st st' → same_pool st st'.
Proof. by intros [_ ?]. Qed.

Lemma same_pool_trans st1 st2 st3 :
  same_pool st1 st2 → same_pool st2 st3 → same_pool st1 st3.
Proof. unfold same_pool. intros (?&?&?&?) (?&?&?&?). repeat split; congruence. Qed.

Lemma same_pool_valid st st' u : same_pool st st' → valid st u → valid st' u.
Proof. intros (_&_&_&Hl). by apply valid_same. Qed.

(** Field writes, in terms of the views. *)
Lemma store_next_ok a v st :
  valid st a →
  ∃ st', store_next (Some a) v st = Ok tt st' ∧
    (∀ u, nextf st' u = if decide (u = a) then v else nextf st u) ∧
    (∀ u, prevf st' u = prevf st u) ∧
    (∀ u, valuef st' u = valuef st u) ∧
    same_pool st st'.
Proof.
  intros [n Hn]. destruct (update_ok a (with_next v) st n Hn) as (st' & Hst & Hu).
  exists st'. split; [done|]. split_and!.
  - intros u. by rewrite (updated_nextf _ _ _ _ _ Hu).
  - intros u. rewrite (updated_prevf _ _ _ _ _ Hu). case_decide; [subst|done].
    unfold prevf. by rewrite Hn.
  - intros u. rewrite (updated_valuef _ _ _ _ _ Hu). case_decide; [subst|done].
    unfold valuef. by rewrite Hn.
  - by apply updated_same_pool in Hu.
Qed.

Lemma store_prev_ok a v st :
  valid st a →
  ∃ st', store_prev (Some a) v st = Ok tt st' ∧
    (∀ u, nextf st' u = nextf st u) ∧
    (∀ u, prevf st' u = if decide (u = a) then v else prevf st u) ∧
    (∀ u, valuef st' u = valuef st u) ∧
    same_pool st st'.
Proof.
  intros [n Hn]. destruct (update_ok a (with_prev v) st n Hn) as (st' & Hst & Hu).
  exists st'. split; [done|]. split_and!.
  - intros u. rewrite (updated_nextf _ _ _ _ _ Hu). case_decide; [subst|done].
    unfold nextf. by rewrite Hn.
  - intros u. by rewrite (updated_prevf _ _ _ _ _ Hu).
  - intros u. rewrite (updated_valuef _ _ _ _ _ Hu). case_decide; [subst|done].
    unfold valuef. by rewrite Hn.
  - by apply updated_same_pool in Hu.
Qed.

Lemma store_value_ok a (v : option T) st :
  valid st a →
  ∃ st', update (Some a) (with_value v) st = Ok tt st' ∧
    (∀ u, nextf st' u = nextf st u) ∧
    (∀ u, prevf st' u = prevf st u) ∧
    (∀ u, valuef st' u = if decide (u = a) then v else valuef st u) ∧
    same_pool st st'.
Proof.
  intros [n Hn]. destruct (update_ok a (with_value v) st n Hn) as (st' & Hst & Hu).
  exists st'. split; [done|]. split_and!.
  - intros u. rewrite (updated_nextf _ _ _ _ _ Hu). case_decide; [subst|done].
    unfold nextf. by rewrite Hn.
  - intros u. rewrite (updated_prevf _ _ _ _ _ Hu). case_decide; [subst|done].
    unfold prevf. by rewrite Hn.
  - intros u. by rewrite (updated_valuef _ _ _ _ _ Hu).
  - by apply updated_same_pool in Hu.
Qed.

Lemma load_next_ok a b st : nextf st a = Some b → load_next (Some a) st = Ok (Some b) st.
Proof.
  unfold nextf, load_next, read. destruct (deref _ _) as [n|]; [|done].
  simpl. by intros ->.
Qed.

Lemma load_prev_ok a b st : prevf st a = Some b → load_prev (Some a) st = Ok (Some b) st.
Proof.
  unfold prevf, load_prev, read. destruct (deref _ _) as [n|]; [|done].
  simpl. by intros ->.
Qed.

Lemma load_value_ok a v st : valuef st a = Some v → load_value (Some a) st = Ok v st.
Proof. unfold valuef, load_value, read. by intros ->. Qed.


(** Running a sequence of calls: rewrite with the outcome of the first. *)
Ltac exec_step H := rewrite (bind_Ok _ _ _ _ _ H).

Lemma link_between_ok x a b st :
  valid st x → valid st a → valid st b →
  ∃ st', link_between (Some x) (Some a) (Some b) st = Ok tt st' ∧
    (∀ u, nextf st' u =
       if decide (u = a) then Some x else if decide (u = x) then Some b else nextf st u) ∧
    (∀ u, prevf st' u =
       if decide (u = b) then Some x else if decide (u = x) then Some a else prevf st u) ∧
    (∀ u, valuef st' u = valuef st u) ∧
    same_pool st st'.
Proof.
  intros Hx Ha Hb.
  destruct (store_prev_ok x (Some a) st Hx) as (st1 & E1 & N1 & P1 & V1 & S1).
  destruct (store_next_ok x (Some b) st1) as (st2 & E2 & N2 & P2 & V2 & S2);
    [by eapply same_pool_valid|].
  pose proof (same_pool_trans _ _ _ S1 S2) as S12.
  destruct (store_next_ok a (Some x) st2) as (st3 & E3 & N3 & P3 & V3 & S3);
    [by eapply same_pool_valid|].
  pose proof (same_pool_trans _ _ _ S12 S3) as S13.
  destruct (store_prev_ok b (Some x) st3) as (st4 & E4 & N4 & P4 & V4 & S4);
    [by eapply same_pool_valid|].
  exists st4. split.
  { unfold link_between. exec_step E1. exec_step E2. exec_step E3. exact E4. }
  split_and!.
  - intros u. by rewrite N4, N3, N2, N1.
  - intros u. by rewrite P4, P3, P2, P1.
  - intros u. by rewrite V4, V3, V2, V1.
  - by eapply same_pool_trans.
Qed.

Lemma unlink_ok x (p n : loc) st :
  prevf st x = Some p → nextf st x = Some n → valid st p → valid st n →
  ∃ st', unlink (Some x) st = Ok tt st' ∧
    (∀ u, nextf st' u = if decide (u = p) then Some n else nextf st u) ∧
    (∀ u, prevf st' u = if decide (u = n) then Some p else prevf st u) ∧
    (∀ u, valuef st' u = valuef st u) ∧
    same_pool st st'.
Proof.
  intros Hp Hn Vp Vn.
  destruct (store_next_ok p (Some n) st Vp) as (st1 & E1 & N1 & P1 & V1 & S1).
  destruct (store_prev_ok n (Some p) st1) as (st2 & E2 & N2 & P2 & V2 & S2);
    [by eapply same_pool_valid|].
  assert (nextf st1 x = Some n) as Hn1.
  { rewrite N1. by case_decide. }
  assert (prevf st1 x = Some p) as Hp1 by by rewrite P1.
  exists st2. split.
  { unfold unlink.
    exec_step (load_prev_ok _ _ _ Hp). exec_step (load_next_ok _ _ _ Hn).
    exec_step E1.
    exec_step (load_next_ok _ _ _ Hn1). exec_step (load_prev_ok _ _ _ Hp1).
    exact E2. }
  split_and!.
  - intros u. by rewrite N2, N1.
  - intros u. by rewrite P2, P1.
  - intros u. by rewrite V2, V1.
  - by eapply same_pool_trans.
Qed.

Lemma contents_valid st l u : contents st l → u ∈ Sentinel :: l → valid st u.
Proof.
  intros Hr Hu. destruct (Ring.ring_links _ _ _ _ _ Hr Hu) as [[b Hb] _].
  by eapply nextf_valid.
Qed.

Lemma elem_of_slots st u : u ∈ slots st ↔ ∃ i, u = Slot i ∧ i < length (slab_ st).
Proof.
  unfold slots. rewrite list_elem_of_fmap. setoid_rewrite elem_of_seq. naive_solver lia.
Qed.

Lemma slots_valid st u : u ∈ slots st → valid st u.
Proof. rewrite elem_of_slots, valid_iff. naive_solver. Qed.

Lemma slots_same st st' : same_pool st st' → slots st' = slots st.
Proof. intros (_&_&_&Hl). unfold slots. by rewrite Hl. Qed.

Lemma free_chain_frame (f f' : loc → option loc) p fl :
  (∀ u, u ∈ fl → f' u = f u) → free_chain f p fl → free_chain f' p fl.
Proof.
  revert p. induction fl as [|x fl IH]; intros p Hag; simpl; [done|].
  intros [-> Hc]. split; [done|]. rewrite Hag by set_solver.
  apply IH; [|done]. intros u Hu. apply Hag. set_solver.
Qed.

Lemma free_chain_unique (f : loc → option loc) p fl fl' :
  free_chain f p fl → free_chain f p fl' → fl = fl'.
Proof.
  revert p fl'. induction fl as [|x fl IH]; intros p [|y fl']; simpl.
  - done.
  - by intros -> [? _].
  - by intros [-> _] ?.
  - intros [-> H1] [[= <-] H2]. f_equal. eauto.
Qed.

Lemma pool_inv_NoDup_lost st l fl :
  pool_inv st l fl lost → NoDup (Sentinel :: l ++ fl ++ lost).
Proof.
  intros [_ _ Hs _ _ _ _ _]. apply NoDup_cons. split.
  - rewrite Hs, elem_of_slots. naive_solver.
  - rewrite Hs. unfold slots. apply NoDup_fmap_2; [|apply NoDup_seq].
    by intros ?? [= ->].
Qed.

Lemma pool_inv_NoDup st l fl : pool_inv st l fl lost → NoDup (Sentinel :: l ++ fl).
Proof.
  intros Hnd%pool_inv_NoDup_lost. rewrite !NoDup_cons, !NoDup_app in *.
  set_solver.
Qed.

(** Relinking the live nodes without touching the free chain, the values
    or the counters keeps the invariant. *)
Lemma pool_inv_relink st st' l l' fl :
  pool_inv st l fl lost → contents st' l' → l' ≡ₚ l →
  (∀ u, u ∈ fl → nextf st' u = nextf st u) →
  (∀ u, valuef st' u = valuef st u) →
  same_pool st st' →
  pool_inv st' l' fl lost.
Proof.
  intros [Hr Hf Hs Hz Hc Hb Hl Hd] Hr' Hp Hn Hv Hsp.
  pose proof Hsp as (Hfree & Hcap & Hsize & Hlen).
  split.
  - done.
  - rewrite Hfree. by apply (free_chain_frame (nextf st)).
  - by rewrite (slots_same st st'), Hp.
  - by rewrite Hsize, Hz, Hp.
  - by rewrite Hcap, Hlen.
  - by rewrite Hcap.
  - intros u Hu. rewrite Hv. apply Hl. by rewrite <- Hp.
  - intros u Hu. rewrite Hv. by apply Hd.
Qed.


(** *** Single-node splice *)

Lemma contents_prev_at st l1 x l2 :
  contents st (l1 ++ x :: l2) → prevf st x = Some (Ring.lastd Sentinel l1).
Proof. intros Hr. by apply Ring.ring_prev_pos in Hr. Qed.

Lemma contents_next_at st l1 x l2 :
  contents st (l1 ++ x :: l2) → nextf st x = Some (hd Sentinel l2).
Proof.
  intros Hr. replace (l1 ++ x :: l2) with ((l1 ++ [x]) ++ l2) in Hr
    by (by rewrite <- app_assoc).
  apply Ring.ring_next_pos in Hr. by rewrite Ring.lastd_snoc in Hr.
Qed.

Lemma splice_self (p : iterator) st : splice p p st = Ok tt st.
Proof. unfold splice. by rewrite decide_True. Qed.

(** Moving the node [x] to the gap between [ra] and [rb] of the
    remaining nodes. *)
Lemma splice_contents st l1 x l2 ra rb :
  contents st (l1 ++ x :: l2) → l1 ++ l2 = ra ++ rb →
  let A := Ring.lastd Sentinel l1 in
  let B := hd Sentinel l2 in
  let before := Ring.lastd Sentinel ra in
  let pos := hd Sentinel rb in
  ∃ st', splice (Some pos) (Some x) st = Ok tt st' ∧
    contents st' (ra ++ x :: rb) ∧
    (∀ u, nextf st' u =
       if decide (u = before) then Some x
       else if decide (u = x) then Some pos
       else if decide (u = A) then Some B else nextf st u) ∧
    (∀ u, prevf st' u =
       if decide (u = pos) then Some x
       else if decide (u = x) then Some before
       else if decide (u = B) then Some A else prevf st u) ∧
    (∀ u, valuef st' u = valuef st u) ∧
    same_pool st st'.
Proof.
  intros Hr Hsplit A B before pos.
  pose proof (Ring.ring_NoDup _ _ _ _ Hr) as Hnd.
  pose proof (contents_prev_at _ _ _ _ Hr) as HpA.
  pose proof (contents_next_at _ _ _ _ Hr) as HnB.
  assert (HA : A ∈ Sentinel :: l1) by apply Ring.lastd_elem.
  assert (HB : B ∈ l2 ++ [Sentinel]) by apply Ring.hd_elem.
  assert (Hbef : before ∈ Sentinel :: ra) by apply Ring.lastd_elem.
  assert (Hpos : pos ∈ rb ++ [Sentinel]) by apply Ring.hd_elem.
  assert (Hrest : ∀ u, u ∈ Sentinel :: ra ++ rb → u ∈ Sentinel :: l1 ++ l2)
    by (by rewrite Hsplit).
  destruct (unlink_ok x A B st) as (st1 & E1 & N1 & P1 & V1 & S1); [done|done|..].
  { apply (contents_valid st _ _ Hr). list_solver. }
  { apply (contents_valid st _ _ Hr). list_solver. }
  destruct (Ring.ring_cut (nextf st) (prevf st) (nextf st1) (prevf st1)
              Sentinel l1 [x] l2) as [Hr1 _].
  { done. }
  { rewrite N1. by rewrite decide_True. }
  { intros u Hu. rewrite N1. by rewrite decide_False. }
  { rewrite P1. by rewrite decide_True. }
  { intros u Hu. rewrite P1. by rewrite decide_False. }
  rewrite Hsplit in Hr1.
  assert (Hxpos : x ≠ pos).
  { intros ->. assert (pos ∈ Sentinel :: l1 ++ l2) by (apply Hrest; list_solver).
    list_solver. }
  assert (Hxbef : x ≠ before).
  { intros ->. assert (before ∈ Sentinel :: l1 ++ l2) by (apply Hrest; list_solver).
    list_solver. }
  pose proof (Ring.ring_prev_pos _ _ _ _ _ Hr1) as Hbefore. fold pos before in Hbefore.
  destruct (link_between_ok x before pos st1) as (st2 & E2 & N2 & P2 & V2 & S2).
  { eapply same_pool_valid; [done|]. apply (contents_valid st _ _ Hr). list_solver. }
  { apply (contents_valid st1 _ _ Hr1). list_solver. }
  { apply (contents_valid st1 _ _ Hr1). list_solver. }
  exists st2. split.
  { unfold splice. rewrite decide_False by congruence.
    exec_step E1. exec_step (load_prev_ok _ _ _ Hbefore). exact E2. }
  split_and!.
  - apply (Ring.ring_paste (nextf st1) (prevf st1) _ _ Sentinel ra [x] rb).
    + done.
    + done.
    + done.
    + apply NoDup_singleton.
    + intros u ->%list_elem_of_singleton Hu. apply Hrest in Hu. list_solver.
    + rewrite N2. by rewrite decide_True.
    + rewrite N2. rewrite decide_False by done. by rewrite decide_True.
    + intros u Hu1 Hu2. rewrite N2. by rewrite !decide_False.
    + rewrite P2. rewrite decide_False by done. by rewrite decide_True.
    + rewrite P2. by rewrite decide_True.
    + intros u Hu1 Hu2. rewrite P2. by rewrite !decide_False.
  - intros u. by rewrite N2, N1.
  - intros u. by rewrite P2, P1.
  - intros u. by rewrite V2, V1.
  - by eapply same_pool_trans.
Qed.


(** *** Range splice *)

Lemma splice_range_empty (pos p : iterator) st : splice_range pos p p st = Ok tt st.
Proof. unfold splice_range. by rewrite decide_True. Qed.

(** Moving the run [r] to the gap between [ra] and [rb] of the remaining
    nodes. *)
Lemma splice_range_contents st l1 r l2 ra rb :
  r ≠ [] → contents st (l1 ++ r ++ l2) → l1 ++ l2 = ra ++ rb →
  let A := Ring.lastd Sentinel l1 in
  let b := hd Sentinel l2 in
  let a := hd Sentinel r in
  let tail := Ring.lastd Sentinel r in
  let before := Ring.lastd Sentinel ra in
  let pos := hd Sentinel rb in
  ∃ st', splice_range (Some pos) (Some a) (Some b) st = Ok tt st' ∧
    contents st' (ra ++ r ++ rb) ∧
    (∀ u, nextf st' u =
       if decide (u = tail) then Some pos
       else if decide (u = before) then Some a
       else if decide (u = A) then Some b else nextf st u) ∧
    (∀ u, prevf st' u =
       if decide (u = pos) then Some tail
       else if decide (u = a) then Some before
       else if decide (u = b) then Some A else prevf st u) ∧
    (∀ u, valuef st' u = valuef st u) ∧
    same_pool st st'.
Proof.
  intros Hne Hr Hsplit A b a tail before pos.
  pose proof (Ring.ring_NoDup _ _ _ _ Hr) as Hnd.
  assert (Ha : a ∈ r) by by apply Ring.hd_elem_nonempty.
  assert (Ht : tail ∈ r) by by apply Ring.lastd_elem_nonempty.
  destruct (Ring.ring_move_fresh _ _ _ _ _ _ _ _ a Hr Hsplit Ha)
    as (Ha1 & Ha2 & Ha3 & Ha4 & Ha5).
  destruct (Ring.ring_move_fresh _ _ _ _ _ _ _ _ tail Hr Hsplit Ht)
    as (Ht1 & Ht2 & Ht3 & Ht4 & Ht5).
  assert (HA : A ∈ Sentinel :: l1) by apply Ring.lastd_elem.
  assert (Hb : b ∈ l2 ++ [Sentinel]) by apply Ring.hd_elem.
  assert (Hbef : before ∈ Sentinel :: ra) by apply Ring.lastd_elem.
  assert (Hpos : pos ∈ rb ++ [Sentinel]) by apply Ring.hd_elem.
  assert (Hrest : ∀ u, u ∈ Sentinel :: ra ++ rb → u ∈ Sentinel :: l1 ++ l2)
    by (by rewrite Hsplit).
  assert (Hval : ∀ u, u ∈ Sentinel :: l1 ++ r ++ l2 → valid st u)
    by (intros u; apply contents_valid; done).
  assert (VA : valid st A) by (apply Hval; list_solver).
  assert (Vb : valid st b) by (apply Hval; list_solver).
  assert (Va : valid st a) by (apply Hval; list_solver).
  assert (Vt : valid st tail) by (apply Hval; list_solver).
  assert (Vbef : valid st before).
  { apply Hval. assert (before ∈ Sentinel :: l1 ++ l2) as Hin
      by (apply Hrest; clear -Hbef; set_solver).
    clear -Hin. set_solver. }
  assert (Vpos : valid st pos).
  { apply Hval. assert (pos ∈ Sentinel :: l1 ++ l2) as Hin
      by (apply Hrest; clear -Hpos; set_solver).
    clear -Hin. set_solver. }
  assert (Hfresh : ∀ u, u ∈ r → u ∉ Sentinel :: ra ++ rb).
  { intros u Hu Hu'. apply Hrest in Hu'. clear -Hu Hu' Hnd. list_solver. }
  assert (Hnd' : NoDup r) by (clear -Hnd; list_solver).
  clear Hval Hrest HA Hb Hbef Hpos.
  assert (Hptail : prevf st b = Some tail).
  { pose proof Hr as Hr'. rewrite app_assoc in Hr'.
    apply Ring.ring_prev_pos in Hr'. rewrite Ring.lastd_app in Hr'.
    by rewrite (Ring.lastd_indep _ Sentinel) in Hr'. }
  assert (HpA : prevf st a = Some A).
  { pose proof Hr as Hr'. apply Ring.ring_prev_pos in Hr'.
    rewrite Ring.hd_app in Hr'. by rewrite (Ring.hd_indep _ Sentinel) in Hr'. }
  destruct (store_next_ok A (Some b) st) as (st1 & E1 & N1 & P1 & V1 & S1); [done|].
  destruct (store_prev_ok b (Some A) st1) as (st2 & E2 & N2 & P2 & V2 & S2);
    [by eapply same_pool_valid|].
  pose proof (same_pool_trans _ _ _ S1 S2) as S02.
  destruct (Ring.ring_cut (nextf st) (prevf st) (nextf st2) (prevf st2)
              Sentinel l1 r l2) as [Hr2 Hseg].
  { done. }
  { rewrite N2, N1. by rewrite decide_True. }
  { intros u Hu. rewrite N2, N1. by rewrite decide_False. }
  { rewrite P2. by rewrite decide_True. }
  { intros u Hu. rewrite P2, P1. by rewrite decide_False. }
  rewrite Hsplit in Hr2.
  pose proof (Ring.ring_prev_pos _ _ _ _ _ Hr2) as Hbefore. fold pos before in Hbefore.
  destruct (store_next_ok before (Some a) st2) as (st3 & E3 & N3 & P3 & V3 & S3);
    [by eapply same_pool_valid|].
  pose proof (same_pool_trans _ _ _ S02 S3) as S03.
  destruct (store_prev_ok a (Some before) st3) as (st4 & E4 & N4 & P4 & V4 & S4);
    [by eapply same_pool_valid|].
  pose proof (same_pool_trans _ _ _ S03 S4) as S04.
  destruct (store_next_ok tail (Some pos) st4) as (st5 & E5 & N5 & P5 & V5 & S5);
    [by eapply same_pool_valid|].
  pose proof (same_pool_trans _ _ _ S04 S5) as S05.
  destruct (store_prev_ok pos (Some tail) st5) as (st6 & E6 & N6 & P6 & V6 & S6);
    [by eapply same_pool_valid|].
  assert (HpA1 : prevf st1 a = Some A) by by rewrite P1.
  exists st6. split.
  { unfold splice_range. rewrite decide_False by (intros [= Heq]; by apply Ha4).
    exec_step (load_prev_ok _ _ _ Hptail). exec_step (load_prev_ok _ _ _ HpA).
    exec_step E1. exec_step (load_prev_ok _ _ _ HpA1). exec_step E2.
    exec_step (load_prev_ok _ _ _ Hbefore).
    exec_step E3. exec_step E4. exec_step E5. exact E6. }
  split_and!.
  - apply (Ring.ring_paste (nextf st2) (prevf st2) _ _ Sentinel ra r rb); try done.
    + rewrite N6, N5, N4, N3. rewrite decide_False by done. by rewrite decide_True.
    + rewrite N6, N5. by rewrite decide_True.
    + intros u Hu1 Hu2. rewrite N6, N5, N4, N3. by rewrite !decide_False.
    + rewrite P6. rewrite decide_False by done. rewrite P5, P4. by rewrite decide_True.
    + rewrite P6. by rewrite decide_True.
    + intros u Hu1 Hu2. rewrite P6, P5, P4, P3. by rewrite !decide_False.
  - intros u. by rewrite N6, N5, N4, N3, N2, N1.
  - intros u. by rewrite P6, P5, P4, P3, P2, P1.
  - intros u. by rewrite V6, V5, V4, V3, V2, V1.
  - by eapply same_pool_trans.
Qed.


(** *** Allocation, emplacement and erasure *)

Lemma load_next_valid a st : valid st a → load_next (Some a) st = Ok (nextf st a) st.
Proof. intros [n Hn]. unfold load_next, read, nextf. by rewrite Hn. Qed.

Lemma size_incr_of_nat (k : nat) :
  (N.of_nat (S k) < size_max)%N → size_incr (N.of_nat k) = N.of_nat (S k).
Proof.
  intros Hlt. unfold size_incr. rewrite N.mod_small by lia. lia.
Qed.

Lemma size_decr_of_nat (k : nat) :
  (N.of_nat (S k) < size_max)%N → size_decr (N.of_nat (S k)) = N.of_nat k.
Proof.
  intros Hlt. unfold size_decr.
  replace (N.of_nat (S k) + size_max - 1)%N with (N.of_nat k + 1 * size_max)%N by lia.
  rewrite N.Div0.mod_add. apply N.mod_small. lia.
Qed.

Lemma length_slots st : length (slots st) = length (slab_ st).
Proof. unfold slots. by rewrite length_fmap, length_seq. Qed.

Lemma pool_inv_length st l fl :
  pool_inv st l fl lost →
  length l + length fl + length lost = length (slab_ st).
Proof.
  intros [_ _ Hs _ _ _ _ _]. rewrite <- length_slots, <- Hs, !length_app. lia.
Qed.

Lemma alloc_node_ok st x fl :
  free_chain (nextf st) (free_ st) (x :: fl) → valid st x →
  alloc_node st = Ok (Some x) (set_free (nextf st x) st).
Proof.
  intros [Hf _] Hv. unfold alloc_node. rewrite bind_gets, Hf.
  exec_step (load_next_valid _ _ Hv). by rewrite bind_modify.
Qed.

(** An empty free list: the call throws and leaves the object as it was. *)
Lemma alloc_node_throw st : free_ st = None → alloc_node st = Throw st.
Proof. intros Hf. unfold alloc_node. by rewrite bind_gets, Hf. Qed.

Lemma emplace_back_throw st (c : option T) :
  free_ st = None → emplace_back c st = Throw st.
Proof.
  intros Hf. unfold emplace_back. apply bind_Throw. by apply alloc_node_throw.
Qed.

Lemma emplace_front_throw st (c : option T) :
  free_ st = None → emplace_front c st = Throw st.
Proof.
  intros Hf. unfold emplace_front. apply bind_Throw. by apply alloc_node_throw.
Qed.

Lemma destroy_value_ok a (v : T) st :
  valuef st a = Some v →
  ∃ st', destroy_value (Some a) st = Ok tt st' ∧
    (∀ u, nextf st' u = nextf st u) ∧
    (∀ u, prevf st' u = prevf st u) ∧
    (∀ u, valuef st' u = if decide (u = a) then None else valuef st u) ∧
    same_pool st st'.
Proof.
  intros Hv.
  destruct (store_value_ok a None st) as (st' & E & Hrest).
  { unfold valid. unfold valuef in Hv. destruct (deref _ _); [by eexists|done]. }
  exists st'. split; [|done].
  unfold destroy_value. by exec_step (load_value_ok _ _ _ Hv).
Qed.

Lemma free_node_ok a st :
  valid st a →
  ∃ st', free_node (Some a) st = Ok tt st' ∧
    (∀ u, nextf st' u = if decide (u = a) then free_ st else nextf st u) ∧
    (∀ u, prevf st' u = prevf st u) ∧
    (∀ u, valuef st' u = valuef st u) ∧
    free_ st' = Some a ∧ cap_ st' = cap_ st ∧ size_ st' = size_ st ∧
    length (slab_ st') = length (slab_ st).
Proof.
  intros Hv.
  destruct (store_next_ok a (free_ st) st Hv) as (st1 & E1 & N1 & P1 & V1 & _ & S1).
  exists (set_free (Some a) st1). split; [|done].
  unfold free_node. rewrite bind_gets. by exec_step E1.
Qed.

(** Linking a freshly allocated node into the gap between [ra] and [rb]. *)
Lemma emplace_at st ra rb x fl (v : T) :
  pool_inv st (ra ++ rb) (x :: fl) lost →
  ∃ st1 st2 st',
    alloc_node st = Ok (Some x) st1 ∧
    construct_value (Some x) (Some v) st1 = Ok tt st2 ∧
    prevf st2 Sentinel = Some (Ring.lastd Sentinel (ra ++ rb)) ∧
    nextf st2 Sentinel = Some (hd Sentinel (ra ++ rb)) ∧
    (link_between (Some x) (Some (Ring.lastd Sentinel ra)) (Some (hd Sentinel rb));;
     modify (λ st, set_size (size_incr (size_ st)) st);;
     mret (Some x)) st2 = Ok (Some x) st' ∧
    pool_inv st' (ra ++ x :: rb) fl lost ∧
    valuef st' x = Some v ∧
    (∀ u, u ≠ x → valuef st' u = valuef st u).
Proof.
  intros Hinv.
  pose proof (pool_inv_NoDup_lost _ _ _ Hinv) as Hnd.
  pose proof (pool_inv_length _ _ _ Hinv) as Hlen.
  destruct Hinv as [Hr Hf Hs Hz Hc Hb Hl Hd].
  assert (Hvx : valid st x).
  { apply slots_valid. rewrite <- Hs. list_solver. }
  destruct (store_value_ok x (Some v) (set_free (nextf st x) st))
    as (st2 & E2 & N2 & P2 & V2 & S2); [done|].
  exists (set_free (nextf st x) st), st2.
  assert (HA : Ring.lastd Sentinel ra ∈ Sentinel :: ra) by apply Ring.lastd_elem.
  assert (HB : hd Sentinel rb ∈ rb ++ [Sentinel]) by apply Ring.hd_elem.
  destruct (link_between_ok x (Ring.lastd Sentinel ra) (hd Sentinel rb) st2)
    as (st3 & E3 & N3 & P3 & V3 & S3).
  { by eapply same_pool_valid. }
  { eapply same_pool_valid; [done|]. apply (contents_valid st _ _ Hr). list_solver. }
  { eapply same_pool_valid; [done|]. apply (contents_valid st _ _ Hr). list_solver. }
  pose proof (same_pool_trans _ _ _ S2 S3) as (Hfree & Hcap & Hsize & Hslab).
  simpl in Hfree, Hcap, Hsize, Hslab.
  assert (Hxr : x ∉ Sentinel :: ra ++ rb) by list_solver.
  assert (Hxfl : x ∉ fl ++ lost) by list_solver.
  eexists. split; [by apply (alloc_node_ok st x fl)|]. split; [done|]. split_and!.
  - rewrite P2. change (prevf st Sentinel = Some (Ring.lastd Sentinel (ra ++ rb))).
    rewrite <- (app_nil_r (ra ++ rb)) in Hr. by apply Ring.ring_prev_pos in Hr.
  - rewrite N2. change (nextf st Sentinel = Some (hd Sentinel (ra ++ rb))).
    by apply (Ring.ring_next_pos _ _ _ [] (ra ++ rb)) in Hr.
  - exec_step E3. by rewrite bind_modify.
  - split; simpl.
    + change (Ring.ring (nextf st3) (prevf st3) Sentinel (ra ++ [x] ++ rb)).
      apply (Ring.ring_paste (nextf st) (prevf st) _ _ Sentinel ra [x] rb);
        rewrite ?Ring.lastd_singleton; simpl hd; try done.
      * apply NoDup_singleton.
      * by intros u ->%list_elem_of_singleton.
      * rewrite N3. by rewrite decide_True.
      * rewrite N3. rewrite decide_False by list_solver. by rewrite decide_True.
      * intros u Hu1 Hu2. rewrite N3, N2. by rewrite !decide_False.
      * rewrite P3. rewrite decide_False by list_solver. by rewrite decide_True.
      * rewrite P3. by rewrite decide_True.
      * intros u Hu1 Hu2. rewrite P3, P2. by rewrite !decide_False.
    + rewrite Hfree. destruct Hf as [_ Hf].
      apply (free_chain_frame (nextf st)); [|done].
      intros u Hu. change (nextf st3 u = nextf st u). rewrite N3, N2.
      rewrite !decide_False; [done| |]; intros ->; list_solver.
    + unfold slots. simpl. rewrite Hslab. fold (slots st). rewrite <- Hs.
      rewrite <- !app_assoc. f_equiv. simpl. apply Permutation_middle.
    + rewrite Hsize, Hz. rewrite !length_app. simpl.
      replace (length ra + S (length rb)) with (S (length ra + length rb)) by lia.
      apply size_incr_of_nat. rewrite length_app in Hlen. simpl in Hlen.
      unfold size_max in Hb |- *. lia.
    + by rewrite Hcap, Hslab.
    + by rewrite Hcap.
    + intros u Hu. change (is_Some (valuef st3 u)). rewrite V3, V2.
      case_decide; [done|]. apply Hl. list_solver.
    + intros u Hu. change (valuef st3 u = None). rewrite V3, V2.
      rewrite decide_False by (intros ->; done). apply Hd. list_solver.
  - change (valuef st3 x = Some v). rewrite V3, V2. by rewrite decide_True.
  - intros u Hu. change (valuef st3 u = valuef st u). rewrite V3, V2.
    by rewrite decide_False.
Qed.

Lemma emplace_back_ok st l x fl (v : T) :
  pool_inv st l (x :: fl) lost →
  ∃ st', emplace_back (Some v) st = Ok (Some x) st' ∧
    pool_inv st' (l ++ [x]) fl lost ∧
    valuef st' x = Some v ∧
    (∀ u, u ≠ x → valuef st' u = valuef st u).
Proof.
  intros Hinv. rewrite <- (app_nil_r l) in Hinv.
  destruct (emplace_at st l [] x fl v Hinv)
    as (st1 & st2 & st' & E1 & E2 & HP & _ & E3 & Hinv' & Hv & Hvo).
  rewrite app_nil_r in HP.
  exists st'. split; [|done].
  unfold emplace_back. exec_step E1. exec_step E2.
  by exec_step (load_prev_ok _ _ _ HP).
Qed.

Lemma emplace_front_ok st l x fl (v : T) :
  pool_inv st l (x :: fl) lost →
  ∃ st', emplace_front (Some v) st = Ok (Some x) st' ∧
    pool_inv st' (x :: l) fl lost ∧
    valuef st' x = Some v ∧
    (∀ u, u ≠ x → valuef st' u = valuef st u).
Proof.
  intros Hinv.
  destruct (emplace_at st [] l x fl v Hinv)
    as (st1 & st2 & st' & E1 & E2 & _ & HN & E3 & Hinv' & Hv & Hvo).
  exists st'. split; [|done].
  unfold emplace_front. exec_step E1. exec_step E2.
  by exec_step (load_next_ok _ _ _ HN).
Qed.

(** [erase] of the live node [x]. *)
Lemma erase_ok st l1 x l2 fl :
  pool_inv st (l1 ++ x :: l2) fl lost →
  ∃ st', erase (Some x) st = Ok (Some (hd Sentinel l2)) st' ∧
    pool_inv st' (l1 ++ l2) (x :: fl) lost ∧
    (∀ u, u ≠ x → valuef st' u = valuef st u).
Proof.
  intros Hinv.
  pose proof (pool_inv_NoDup_lost _ _ _ Hinv) as Hnd.
  pose proof (pool_inv_length _ _ _ Hinv) as Hlen.
  destruct Hinv as [Hr Hf Hs Hz Hc Hb Hl Hd].
  pose proof (contents_prev_at _ _ _ _ Hr) as HpA.
  pose proof (contents_next_at _ _ _ _ Hr) as HnB.
  set (A := Ring.lastd Sentinel l1) in *. set (B := hd Sentinel l2) in *.
  assert (HA : A ∈ Sentinel :: l1) by apply Ring.lastd_elem.
  assert (HB : B ∈ l2 ++ [Sentinel]) by apply Ring.hd_elem.
  assert (Hvx : valid st x) by (apply (contents_valid st _ _ Hr); list_solver).
  destruct (unlink_ok x A B st) as (st1 & E1 & N1 & P1 & V1 & S1); [done|done|..].
  { apply (contents_valid st _ _ Hr). list_solver. }
  { apply (contents_valid st _ _ Hr). list_solver. }
  destruct (Hl x) as [v Hv]; [list_solver|].
  assert (Hv1 : valuef st1 x = Some v) by by rewrite V1.
  destruct (destroy_value_ok x v st1 Hv1) as (st2 & E2 & N2 & P2 & V2 & S2).
  pose proof (same_pool_trans _ _ _ S1 S2) as S02.
  destruct (free_node_ok x st2) as (st3 & E3 & N3 & P3 & V3 & Hfree3 & Hcap3 & Hsize3 & Hslab3);
    [by eapply same_pool_valid|].
  destruct S02 as (Hfree2 & Hcap2 & Hsize2 & Hslab2).
  assert (Hcut : Ring.ring (nextf st1) (prevf st1) Sentinel (l1 ++ l2)).
  { destruct (Ring.ring_cut (nextf st) (prevf st) (nextf st1) (prevf st1)
                Sentinel l1 [x] l2) as [Hr1 _]; [done|..|done].
    - rewrite N1. by rewrite decide_True.
    - intros u Hu. rewrite N1. by rewrite decide_False.
    - rewrite P1. by rewrite decide_True.
    - intros u Hu. rewrite P1. by rewrite decide_False. }
  assert (Hxr : x ∉ Sentinel :: l1 ++ l2) by list_solver.
  assert (Hxfl : x ∉ fl ++ lost) by list_solver.
  eexists. split; [|split].
  - unfold erase. exec_step (load_next_ok _ _ _ HnB). exec_step E1.
    exec_step E2. exec_step E3. by rewrite bind_modify.
  - split; simpl.
    + apply (Ring.ring_frame (nextf st1) (prevf st1)); [| |done].
      * intros u Hu. change (nextf st3 u = nextf st1 u). rewrite N3, N2.
        by rewrite decide_False by (intros ->; done).
      * intros u Hu. change (prevf st3 u = prevf st1 u). by rewrite P3, P2.
    + split; [done|]. change (free_chain (nextf st3) (nextf st3 x) fl).
      rewrite (N3 x), decide_True by done. rewrite Hfree2.
      apply (free_chain_frame (nextf st)); [|done].
      intros u Hu. rewrite N3, N2, N1.
      rewrite !decide_False; [done| |]; intros ->; list_solver.
    + unfold slots. simpl. rewrite Hslab3, Hslab2. fold (slots st). rewrite <- Hs.
      rewrite <- !app_assoc. simpl. f_equiv. symmetry. apply Permutation_middle.
    + rewrite Hsize3, Hsize2, Hz. rewrite !length_app. simpl.
      replace (length l1 + S (length l2)) with (S (length l1 + length l2)) by lia.
      apply size_decr_of_nat. rewrite length_app in Hlen. simpl in Hlen.
      unfold size_max in Hb |- *. lia.
    + by rewrite Hcap3, Hcap2, Hslab3, Hslab2.
    + by rewrite Hcap3, Hcap2.
    + intros u Hu. change (is_Some (valuef st3 u)). rewrite V3, V2, V1.
      rewrite decide_False by (intros ->; list_solver). apply Hl. list_solver.
    + intros u Hu. change (valuef st3 u = None). rewrite V3, V2, V1.
      case_decide; [done|]. apply Hd. list_solver.
  - intros u Hu. change (valuef st3 u = valuef st u). rewrite V3, V2, V1.
    by rewrite decide_False.
Qed.


(** *** [clear] *)

(** The loop of [clear] on the remaining chain [l]: every node of it is
    destroyed and pushed onto the free list. *)
Lemma clear_loop_ok l : ∀ st fl fuel,
  length l ≤ fuel → Sentinel ∉ l → NoDup (l ++ fl) →
  Ring.walk (nextf st) (hd Sentinel l) (tl (l ++ [Sentinel])) →
  free_chain (nextf st) (free_ st) fl →
  (∀ u, u ∈ l → is_Some (valuef st u)) →
  ∃ st', clear_loop fuel (Some (hd Sentinel l)) st = Ok tt st' ∧
    free_chain (nextf st') (free_ st') (reverse l ++ fl) ∧
    (∀ u, u ∈ l → valuef st' u = None) ∧
    (∀ u, u ∉ l → valuef st' u = valuef st u) ∧
    (∀ u, u ∉ l → nextf st' u = nextf st u) ∧
    (∀ u, prevf st' u = prevf st u) ∧
    cap_ st' = cap_ st ∧ size_ st' = size_ st ∧
    length (slab_ st') = length (slab_ st).
Proof.
  induction l as [|x l IH]; intros st fl fuel Hfuel Hs Hnd Hw Hf Hl.
  - exists st. split; [by destruct fuel|].
    split_and!; try done. intros u Hu. set_solver.
  - simpl in *. destruct fuel as [|fuel]; [lia|].
    assert (Hx : nextf st x = Some (hd Sentinel l) ∧
                 Ring.walk (nextf st) (hd Sentinel l) (tl (l ++ [Sentinel]))).
    { destruct l; simpl in *; tauto. }
    destruct Hx as [Hx Hw'].
    destruct (Hl x) as [v Hv]; [list_solver|].
    destruct (destroy_value_ok x v st Hv) as (st1 & E1 & N1 & P1 & V1 & S1).
    destruct (free_node_ok x st1) as (st2 & E2 & N2 & P2 & V2 & F2 & C2 & Z2 & L2).
    { eapply same_pool_valid; [done|]. by eapply nextf_valid. }
    destruct S1 as (F1 & C1 & Z1 & L1).
    assert (Hxl : x ∉ l) by list_solver.
    assert (Hxs : x ≠ Sentinel) by list_solver.
    destruct (IH st2 (x :: fl) fuel) as (st' & E & Hf' & Hd' & Hv' & Hn' & Hp' & C' & Z' & L').
    + lia.
    + list_solver.
    + rewrite <- Permutation_middle. done.
    + apply (Ring.walk_frame (nextf st)); [|done].
      intros u Hu. rewrite N2, N1. rewrite decide_False; [done|].
      intros ->. pose proof (Ring.hd_elem Sentinel l) as Hh.
      assert (x ∈ l ++ [Sentinel]) as Hin.
      { apply elem_of_cons in Hu as [->|Hu]; [done|].
        destruct l; simpl in *; list_solver. }
      list_solver.
    + simpl. split; [done|]. rewrite (N2 x), decide_True by done. rewrite F1.
      apply (free_chain_frame (nextf st)); [|done].
      intros u Hu. rewrite N2, N1. rewrite decide_False; [done|].
      intros ->. list_solver.
    + intros u Hu. rewrite V2, V1. rewrite decide_False by (intros ->; done).
      apply Hl. list_solver.
    + exists st'. split; [|split_and!].
      * simpl. rewrite decide_False by congruence.
        exec_step (load_next_ok _ _ _ Hx). exec_step E1. by exec_step E2.
      * by rewrite reverse_cons, <- app_assoc.
      * intros u [->|Hu]%elem_of_cons; [|by apply Hd'].
        rewrite Hv' by done. rewrite V2, V1. by rewrite decide_True.
      * intros u Hu. rewrite Hv' by list_solver. rewrite V2, V1.
        rewrite decide_False; [done|list_solver].
      * intros u Hu. rewrite Hn' by list_solver. rewrite N2, N1.
        rewrite decide_False; [done|list_solver].
      * intros u. by rewrite Hp', P2, P1.
      * by rewrite C', C2, C1.
      * by rewrite Z', Z2, Z1.
      * by rewrite L', L2, L1.
Qed.

(** A self-linked sentinel is the empty ring. *)
Lemma contents_nil st :
  nextf st Sentinel = Some Sentinel → prevf st Sentinel = Some Sentinel →
  contents st [].
Proof.
  intros Hn Hp. split; [apply NoDup_singleton|]. by split; simpl.
Qed.

Lemma clear_ok st l fl fuel :
  pool_inv st l fl lost → length l ≤ fuel →
  ∃ st', clear fuel st = Ok tt st' ∧
    pool_inv st' [] (reverse l ++ fl) lost ∧
    (∀ u, u ∈ l → valuef st' u = None).
Proof.
  intros Hinv Hfuel.
  pose proof (pool_inv_NoDup_lost _ _ _ Hinv) as Hnd.
  destruct Hinv as [Hr Hf Hs Hz Hc Hb Hl Hd].
  pose proof Hr as (_ & Hw & _).
  assert (Hfirst : nextf st Sentinel = Some (hd Sentinel l) ∧
                   Ring.walk (nextf st) (hd Sentinel l) (tl (l ++ [Sentinel]))).
  { destruct l; simpl in *; tauto. }
  destruct Hfirst as [Hfirst Hw'].
  destruct (clear_loop_ok l st fl fuel)
    as (st1 & E1 & Hf1 & Hd1 & Hv1 & Hn1 & Hp1 & C1 & Z1 & L1); [done| | |done..|].
  { list_solver. }
  { list_solver. }
  destruct (store_prev_ok Sentinel (Some Sentinel) st1)
    as (st2 & E2 & N2 & P2 & V2 & S2); [apply valid_iff; by left|].
  destruct (store_next_ok Sentinel (Some Sentinel) st2)
    as (st3 & E3 & N3 & P3 & V3 & S3); [apply valid_iff; by left|].
  pose proof (same_pool_trans _ _ _ S2 S3) as (F3 & C3 & Z3 & L3).
  eexists. split; [|split].
  - unfold clear. exec_step (load_next_ok _ _ _ Hfirst). exec_step E1.
    exec_step E2. exec_step E3. reflexivity.
  - split; simpl.
    + apply contents_nil.
      * change (nextf st3 Sentinel = Some Sentinel). rewrite N3. by rewrite decide_True.
      * change (prevf st3 Sentinel = Some Sentinel). rewrite P3, P2. by rewrite decide_True.
    + rewrite F3. apply (free_chain_frame (nextf st1)); [|done].
      intros u Hu. change (nextf st3 u = nextf st1 u). rewrite N3, N2.
      rewrite decide_False; [done|]. intros ->.
      rewrite elem_of_app, elem_of_reverse in Hu. list_solver.
    + unfold slots. simpl. rewrite L3, L1. fold (slots st). rewrite <- Hs.
      by rewrite reverse_Permutation, <- app_assoc.
    + done.
    + by rewrite C3, C1, L3, L1.
    + by rewrite C3, C1.
    + intros u Hu. list_solver.
    + intros u Hu. change (valuef st3 u = None). rewrite V3, V2.
      rewrite !elem_of_app, elem_of_reverse in Hu.
      destruct (decide (u ∈ l)) as [Hin|Hout]; [by apply Hd1|].
      rewrite Hv1 by done. apply Hd. list_solver.
  - intros u Hu. change (valuef st3 u = None). rewrite V3, V2. by apply Hd1.
Qed.


(** *** Construction *)

Lemma build_free_list_ok count : ∀ from st fl,
  from + count ≤ length (slab_ st) →
  free_chain (nextf st) (free_ st) fl →
  (∀ u, u ∈ fl → ∃ i, u = Slot i ∧ i < from) →
  ∃ st', build_free_list from count st = Ok tt st' ∧
    free_chain (nextf st') (free_ st') (reverse (Slot <$> seq from count) ++ fl) ∧
    (∀ u, valuef st' u = valuef st u) ∧
    (∀ u, prevf st' u = prevf st u) ∧
    cap_ st' = cap_ st ∧ size_ st' = size_ st ∧
    length (slab_ st') = length (slab_ st).
Proof.
  induction count as [|count IH]; intros from st fl Hlen Hf Hold.
  - exists st. by split.
  - destruct (store_next_ok (Slot from) (free_ st) st)
      as (st1 & E1 & N1 & P1 & V1 & F1 & C1 & Z1 & L1).
    { apply valid_iff. right. exists from. split; [done|lia]. }
    destruct (IH (S from) (set_free (Some (Slot from)) st1) (Slot from :: fl))
      as (st' & E & Hf' & Hv' & Hp' & C' & Z' & L').
    + simpl. lia.
    + simpl. split; [done|]. change (free_chain (nextf st1) (nextf st1 (Slot from)) fl).
      rewrite (N1 (Slot from)), decide_True by done.
      apply (free_chain_frame (nextf st)); [|done].
      intros u Hu. rewrite N1. rewrite decide_False; [done|].
      intros ->. destruct (Hold _ Hu) as (i & [= <-] & Hi). lia.
    + intros u [->|Hu]%elem_of_cons.
      * exists from. split; [done|lia].
      * destruct (Hold _ Hu) as (i & -> & Hi). exists i. split; [done|lia].
    + exists st'. split; [|split_and!].
      * simpl. rewrite bind_gets. exec_step E1. by rewrite bind_modify.
      * simpl. by rewrite reverse_cons, <- app_assoc.
      * intros u. rewrite Hv'. apply V1.
      * intros u. rewrite Hp'. apply P1.
      * by rewrite C'.
      * by rewrite Z'.
      * by rewrite L'.
Qed.

Lemma alloc_slab_ok (sizeof_node avail capacity : N) :
  (0 < sizeof_node)%N →
  (sizeof_node * capacity < size_max)%N →
  (sizeof_node * capacity ≤ avail)%N →
  alloc_slab (T:=T) sizeof_node avail (raw_list capacity) =
    Ok tt (set_slab (replicate (N.to_nat capacity) raw_node) (raw_list capacity)).
Proof.
  intros Hs Hw Ha. unfold alloc_slab. rewrite bind_gets. simpl cap_.
  rewrite N.mod_small by done. rewrite decide_True by done.
  by rewrite (N.mul_comm sizeof_node), N.div_mul by lia.
Qed.

Lemma construct_ok (sizeof_node avail capacity : N) :
  (0 < sizeof_node)%N →
  (sizeof_node * capacity < size_max)%N →
  (sizeof_node * capacity ≤ avail)%N →
  ∃ st, construct (T:=T) sizeof_node avail capacity = Ok tt st ∧
    pool_inv st [] (reverse (Slot <$> seq 0 (N.to_nat capacity))) [].
Proof.
  intros Hs Hw Ha.
  assert (capacity < size_max)%N as Hcap by nia.
  pose proof (alloc_slab_ok _ _ _ Hs Hw Ha) as E0.
  set (st0 := set_slab (replicate (N.to_nat capacity) raw_node) (raw_list capacity)) in E0.
  destruct (build_free_list_ok (N.to_nat capacity) 0 st0 [])
    as (st1 & E1 & Hf1 & Hv1 & Hp1 & C1 & Z1 & L1).
  { simpl. by rewrite length_replicate. }
  { done. }
  { intros u Hu. set_solver. }
  rewrite app_nil_r in Hf1.
  destruct (store_prev_ok Sentinel (Some Sentinel) st1)
    as (st2 & E2 & N2 & P2 & V2 & S2); [apply valid_iff; by left|].
  destruct (store_next_ok Sentinel (Some Sentinel) st2)
    as (st3 & E3 & N3 & P3 & V3 & S3); [apply valid_iff; by left|].
  pose proof (same_pool_trans _ _ _ S2 S3) as (F3 & C3 & Z3 & L3).
  simpl in C1, Z1, L1. rewrite length_replicate in L1.
  exists st3. split.
  { unfold construct. exec_step E0. exec_step E1. by exec_step E2. }
  split.
  - apply contents_nil.
    + rewrite N3. by rewrite decide_True.
    + rewrite P3, P2. by rewrite decide_True.
  - rewrite F3. apply (free_chain_frame (nextf st1)); [|done].
    intros u Hu. rewrite N3, N2. rewrite decide_False; [done|].
    intros ->. rewrite elem_of_reverse, list_elem_of_fmap in Hu.
    by destruct Hu as (i & ? & _).
  - simpl. rewrite app_nil_r. unfold slots. rewrite L3, L1. apply reverse_Permutation.
  - by rewrite Z3, Z1.
  - rewrite C3, C1, L3, L1. by rewrite N2Nat.id.
  - by rewrite C3, C1.
  - intros u Hu. set_solver.
  - intros u _. rewrite V3, V2, Hv1. unfold valuef, st0, raw_list.
    destruct u as [|i]; simpl; [done|].
    destruct (replicate _ _ !! i) as [n|] eqn:Hn; [|done].
    by apply lookup_replicate in Hn as [-> _].
Qed.

(** The storage request is refused: [std::bad_alloc] leaves the
    constructor before anything is written. *)
Lemma construct_throw (sizeof_node avail capacity : N) :
  (avail < (sizeof_node * capacity) mod size_max)%N →
  construct (T:=T) sizeof_node avail capacity = Throw (raw_list capacity).
Proof.
  intros Ha. unfold construct. apply bind_Throw.
  unfold alloc_slab. rewrite bind_gets. simpl cap_.
  by rewrite decide_False by by apply N.lt_nge.
Qed.

Lemma store_next_fault a v st :
  ¬ valid st a → store_next (Some a) v st = Fault.
Proof.
  intros Hv. unfold store_next, update, write.
  destruct (deref (Some a) st) as [n|] eqn:Hd; [|done].
  destruct Hv. by exists n.
Qed.

(** Chaining more slots than the block holds writes past its end. *)
Lemma build_free_list_fault count : ∀ from st,
  from ≤ length (slab_ st) < from + count →
  build_free_list from count st = Fault.
Proof.
  induction count as [|count IH]; intros from st Hlen; [lia|].
  simpl. rewrite bind_gets.
  destruct (decide (from < length (slab_ st))) as [Hlt|Hge].
  - destruct (store_next_ok (Slot from) (free_ st) st)
      as (st1 & E1 & N1 & P1 & V1 & F1 & C1 & Z1 & L1).
    { apply valid_iff. right. by exists from. }
    exec_step E1. rewrite bind_modify. apply IH. simpl. lia.
  - unfold mbind, M_bind, bind. rewrite store_next_fault; [done|].
    rewrite valid_iff. intros [|(i & [= <-] & Hi)]; [done|lia].
Qed.

(** The byte count wraps and the allocator grants the wrapped request:
    the block is too small for [capacity] nodes. *)
Lemma construct_fault (sizeof_node avail capacity : N) :
  (0 < sizeof_node)%N →
  (size_max ≤ sizeof_node * capacity)%N →
  ((sizeof_node * capacity) mod size_max ≤ avail)%N →
  construct (T:=T) sizeof_node avail capacity = Fault.
Proof.
  intros Hs Hw Ha. unfold construct.
  assert (alloc_slab (T:=T) sizeof_node avail (raw_list capacity) = Ok tt
    (set_slab (replicate (N.to_nat ((sizeof_node * capacity) mod size_max / sizeof_node))
       raw_node) (raw_list capacity))) as E0.
  { unfold alloc_slab. rewrite bind_gets. simpl cap_. by rewrite decide_True by done. }
  exec_step E0.
  unfold mbind, M_bind, bind. rewrite build_free_list_fault; [done|].
  simpl. rewrite length_replicate. split; [apply Nat.le_0_l|].
  apply Nat.compare_lt_iff. rewrite <- N2Nat.inj_compare. apply N.compare_lt_iff.
  apply N.Div0.div_lt_upper_bound.
  eapply N.lt_le_trans; [|exact Hw]. by apply N.mod_upper_bound.
Qed.

(** When the constructor returns, the request neither wrapped nor was
    refused. *)
Lemma construct_returns (sizeof_node avail capacity : N) st :
  (0 < sizeof_node)%N →
  construct (T:=T) sizeof_node avail capacity = Ok tt st →
  (sizeof_node * capacity < size_max)%N ∧ (sizeof_node * capacity ≤ avail)%N.
Proof.
  intros Hs E.
  destruct (decide ((sizeof_node * capacity) mod size_max ≤ avail)%N) as [Ha|Ha].
  - destruct (decide (sizeof_node * capacity < size_max)%N) as [Hw|Hw].
    + split; [done|]. by rewrite N.mod_small in Ha.
    + rewrite construct_fault in E by (done || by apply N.nlt_ge). discriminate E.
  - rewrite construct_throw in E by by apply N.nle_gt. discriminate E.
Qed.

(** *** Traversal *)

Lemma values_exist st l :
  (∀ u, u ∈ l → is_Some (valuef st u)) → ∃ vs, values st l vs.
Proof.
  induction l as [|x l IH]; intros Hl.
  - exists []. constructor.
  - destruct (Hl x) as [v Hv]; [set_solver|].
    destruct IH as [vs Hvs]; [intros u Hu; apply Hl; set_solver|].
    exists (v :: vs). by constructor.
Qed.

Lemma values_from_ok (f : iterator → M (ll_list_pool T) iterator) (vf : loc → option loc)
    (loop : nat → iterator → M (ll_list_pool T) (list T)) st :
  (∀ a b, vf a = Some b → f (Some a) st = Ok (Some b) st) →
  (∀ fuel cur, loop fuel cur =
     if decide (cur = Some Sentinel) then mret []
     else match fuel with
          | O => out_of_fuel
          | S fuel' =>
              v ← iter_deref cur; nx ← f cur; vs ← loop fuel' nx; mret (v :: vs)
          end) →
  ∀ l fuel vs,
  Sentinel ∉ l → length l ≤ fuel →
  Ring.walk vf (hd Sentinel l) (tl (l ++ [Sentinel])) →
  values st l vs →
  loop fuel (Some (hd Sentinel l)) st = Ok vs st.
Proof.
  intros Hf Hloop.
  induction l as [|x l IH]; intros fuel vs Hs Hlen Hw Hvs; rewrite Hloop.
  - by apply Forall2_nil_inv_l in Hvs as ->.
  - apply Forall2_cons_inv_l in Hvs as (v & vs' & Hv & Hvs & ->).
    change (hd Sentinel (x :: l)) with x.
    rewrite decide_False by (intros [= ->]; set_solver).
    simpl in Hlen, Hw.
    destruct fuel as [|fuel]; [lia|].
    assert (Hx : vf x = Some (hd Sentinel l) ∧
                 Ring.walk vf (hd Sentinel l) (tl (l ++ [Sentinel]))).
    { destruct l; simpl in *; tauto. }
    destruct Hx as [Hx Hw'].
    exec_step (load_value_ok _ _ _ Hv : iter_deref (Some x) st = Ok v st).
    exec_step (Hf _ _ Hx).
    by exec_step (IH fuel vs' ltac:(set_solver) ltac:(lia) Hw' Hvs).
Qed.

Lemma to_list_ok st l vs fuel :
  contents st l → values st l vs → length l ≤ fuel →
  to_list fuel st = Ok vs st.
Proof.
  intros (Hnd & Hw & _) Hvs Hlen. unfold to_list. rewrite bind_gets.
  assert (Hfirst : begin_ st = Some (hd Sentinel l) ∧
                   Ring.walk (nextf st) (hd Sentinel l) (tl (l ++ [Sentinel]))).
  { destruct l; simpl in *; tauto. }
  destruct Hfirst as [-> Hw'].
  apply (values_from_ok iter_incr (nextf st) values_from); try done.
  - intros a b. apply load_next_ok.
  - by intros [|fuel'] cur.
  - by apply NoDup_cons in Hnd as [? _].
Qed.

Lemma to_list_back_ok st l vs fuel :
  contents st l → values st l vs → length l ≤ fuel →
  to_list_back fuel st = Ok (reverse vs) st.
Proof.
  intros (Hnd & _ & Hw) Hvs Hlen. unfold to_list_back.
  assert (Hfirst : prevf st Sentinel = Some (hd Sentinel (reverse l)) ∧
                   Ring.walk (prevf st) (hd Sentinel (reverse l))
                     (tl (reverse l ++ [Sentinel]))).
  { destruct (reverse l); simpl in *; tauto. }
  destruct Hfirst as [Hfirst Hw'].
  exec_step (load_prev_ok _ _ _ Hfirst : iter_decr (Some Sentinel) st = Ok _ st).
  apply (values_from_ok iter_decr (prevf st) values_back_from); try done.
  - intros a b. apply load_prev_ok.
  - by intros [|fuel'] cur.
  - rewrite elem_of_reverse. by apply NoDup_cons in Hnd as [? _].
  - by rewrite length_reverse.
  - by apply Forall2_reverse.
Qed.


(** *** Every call within its contract keeps the invariant *)

Lemma splice_inv st l fl x p :
  pool_inv st l fl lost → x ∈ l → p ∈ l ++ [Sentinel] →
  ∃ st' l', splice (Some p) (Some x) st = Ok tt st' ∧ pool_inv st' l' fl lost ∧
    l' ≡ₚ l ∧ (∀ u, valuef st' u = valuef st u).
Proof.
  intros Hinv Hx Hp.
  destruct (decide (p = x)) as [->|Hne].
  { exists st, l. by rewrite splice_self. }
  apply list_elem_of_split in Hx as (l1 & l2 & ->).
  assert (Hp' : p ∈ (l1 ++ l2) ++ [Sentinel]) by set_solver.
  apply Ring.split_at_pos in Hp' as (ra & rb & Hsplit & ->).
  destruct (splice_contents st l1 x l2 ra rb (inv_ring _ _ _ Hinv) Hsplit)
    as (st' & E & Hr' & N & P & V & S).
  assert (Hperm : ra ++ x :: rb ≡ₚ l1 ++ x :: l2).
  { by rewrite <- !Permutation_middle, Hsplit. }
  exists st', (ra ++ x :: rb). split; [done|]. split; [|done].
  apply (pool_inv_relink st st' (l1 ++ x :: l2)); try done.
  intros u Hu. rewrite N.
  pose proof (pool_inv_NoDup _ _ _ Hinv) as Hnd.
  pose proof (Ring.lastd_elem Sentinel ra) as H1.
  pose proof (Ring.lastd_elem Sentinel l1) as H2.
  assert (∀ v, v ∈ Sentinel :: ra ++ rb → v ∈ Sentinel :: l1 ++ l2) as Hrest
    by (by rewrite Hsplit).
  specialize (Hrest (Ring.lastd Sentinel ra)).
  rewrite !decide_False; [done|..]; intros ->; list_solver.
Qed.

Lemma splice_range_inv st l1 r l2 fl p :
  pool_inv st (l1 ++ r ++ l2) fl lost → p ∈ l1 ++ l2 ++ [Sentinel] →
  ∃ st' l',
    splice_range (Some p) (Some (hd Sentinel (r ++ l2))) (Some (hd Sentinel l2)) st
      = Ok tt st' ∧
    pool_inv st' l' fl lost ∧ l' ≡ₚ l1 ++ r ++ l2 ∧ (∀ u, valuef st' u = valuef st u).
Proof.
  intros Hinv Hp.
  destruct (decide (r = [])) as [->|Hne].
  { exists st, (l1 ++ l2). by rewrite splice_range_empty. }
  rewrite app_assoc in Hp.
  apply Ring.split_at_pos in Hp as (ra & rb & Hsplit & ->).
  destruct (splice_range_contents st l1 r l2 ra rb Hne (inv_ring _ _ _ Hinv) Hsplit)
    as (st' & E & Hr' & N & P & V & S).
  assert (Hperm : ra ++ r ++ rb ≡ₚ l1 ++ r ++ l2).
  { rewrite !(Permutation_app_comm r), !app_assoc. by rewrite Hsplit. }
  exists st', (ra ++ r ++ rb). split.
  { by rewrite Ring.hd_app, (Ring.hd_indep (hd Sentinel l2) Sentinel r Hne). }
  split; [|done].
  apply (pool_inv_relink st st' (l1 ++ r ++ l2)); try done.
  intros u Hu. rewrite N.
  pose proof (pool_inv_NoDup _ _ _ Hinv) as Hnd.
  pose proof (Ring.lastd_elem Sentinel ra) as H1.
  pose proof (Ring.lastd_elem Sentinel l1) as H2.
  pose proof (Ring.lastd_elem_nonempty Sentinel r Hne) as H3.
  assert (∀ v, v ∈ Sentinel :: ra ++ rb → v ∈ Sentinel :: l1 ++ l2) as Hrest
    by (by rewrite Hsplit).
  specialize (Hrest (Ring.lastd Sentinel ra)).
  rewrite !decide_False; [done|..]; intros ->; list_solver.
Qed.

(** The constructor of [T] throws: the exception leaves [emplace] after
    [alloc_node] has taken a node from the free list and before it is
    linked.  Nothing catches it, so the node is on neither list from
    then on. *)
Lemma pool_inv_leak st l x fl :
  pool_inv st l (x :: fl) lost →
  alloc_node st = Ok (Some x) (set_free (nextf st x) st) ∧
  pool_inv (set_free (nextf st x) st) l fl (x :: lost).
Proof.
  intros Hinv.
  destruct Hinv as [Hr Hf Hs Hz Hc Hb Hl Hd].
  assert (Hvx : valid st x).
  { apply slots_valid. rewrite <- Hs. list_solver. }
  split; [by apply (alloc_node_ok st x fl)|].
  split; simpl; try done.
  - by destruct Hf.
  - change (l ++ fl ++ x :: lost ≡ₚ slots st). rewrite <- Hs.
    f_equiv. symmetry. apply Permutation_middle.
  - intros u Hu. apply Hd. list_solver.
Qed.

Lemma emplace_back_leak st l x fl :
  pool_inv st l (x :: fl) lost →
  emplace_back None st = Throw (set_free (nextf st x) st) ∧
  pool_inv (set_free (nextf st x) st) l fl (x :: lost).
Proof.
  intros Hinv. destruct (pool_inv_leak _ _ _ _ Hinv) as [E Hinv'].
  split; [|done]. unfold emplace_back. by exec_step E.
Qed.

Lemma emplace_front_leak st l x fl :
  pool_inv st l (x :: fl) lost →
  emplace_front None st = Throw (set_free (nextf st x) st) ∧
  pool_inv (set_free (nextf st x) st) l fl (x :: lost).
Proof.
  intros Hinv. destruct (pool_inv_leak _ _ _ _ Hinv) as [E Hinv'].
  split; [|done]. unfold emplace_front. by exec_step E.
Qed.

(** What one call within its contract does to the invariant: it returns
    and nothing is lost; or it is an [emplace] on an empty free list,
    which throws and changes nothing; or it is an [emplace] whose
    element constructor throws, which loses the head of the free
    list. *)
Lemma run_inv st l fl (c : call T) :
  pool_inv st l fl lost → allowed l c →
  (∃ st' l' fl', run c st = Ok tt st' ∧ constructs c ∧ pool_inv st' l' fl' lost) ∨
  (run c st = Throw st ∧ fl = []) ∨
  (∃ x fl', fl = x :: fl' ∧ ¬ constructs c ∧
     run c st = Throw (set_free (nextf st x) st) ∧
     pool_inv (set_free (nextf st x) st) l fl' (x :: lost)).
Proof.
  intros Hinv Hc. destruct c as [v|v|it|pos what|pos first last|fuel]; simpl in Hc.
  - destruct fl as [|x fl].
    + right. left. split; [|done]. unfold run. apply bind_Throw, emplace_front_throw.
      by destruct Hinv.
    + destruct v as [v|].
      * left. destruct (emplace_front_ok st l x fl v Hinv) as (st' & E & Hinv' & _).
        exists st', (x :: l), fl. split; [|done]. unfold run. by exec_step E.
      * right. right. destruct (emplace_front_leak st l x fl Hinv) as [E Hinv'].
        exists x, fl. split_and!; [done|by intros []| |done].
        unfold run. by apply bind_Throw.
  - destruct fl as [|x fl].
    + right. left. split; [|done]. unfold run. apply bind_Throw, emplace_back_throw.
      by destruct Hinv.
    + destruct v as [v|].
      * left. destruct (emplace_back_ok st l x fl v Hinv) as (st' & E & Hinv' & _).
        exists st', (l ++ [x]), fl. split; [|done]. unfold run. by exec_step E.
      * right. right. destruct (emplace_back_leak st l x fl Hinv) as [E Hinv'].
        exists x, fl. split_and!; [done|by intros []| |done].
        unfold run. by apply bind_Throw.
  - left. destruct Hc as (x & -> & Hx).
    apply list_elem_of_split in Hx as (l1 & l2 & ->).
    destruct (erase_ok st l1 x l2 fl Hinv) as (st' & E & Hinv' & _).
    exists st', (l1 ++ l2), (x :: fl). split; [|done]. unfold run. by exec_step E.
  - left. destruct Hc as (p & x & -> & -> & Hx & Hp).
    destruct (splice_inv st l fl x p Hinv Hx Hp) as (st' & l' & E & Hinv' & _).
    by exists st', l', fl.
  - left. destruct Hc as (l1 & r & l2 & p & -> & -> & -> & -> & Hp).
    destruct (splice_range_inv st l1 r l2 fl p Hinv Hp) as (st' & l' & E & Hinv' & _).
    by exists st', l', fl.
  - left. destruct (clear_ok st l fl fuel Hinv Hc) as (st' & E & Hinv' & _).
    by exists st', [], (reverse l ++ fl).
Qed.

Lemma follow_next_ok st k a b :
  Ring.iter_fn (nextf st) k a = Some b →
  follow load_next k (Some a) st = Ok (Some b) st.
Proof.
  revert a. induction k as [|k IH]; intros a; simpl.
  - by intros [= ->].
  - destruct (nextf st a) as [c|] eqn:Hc; [|done]. intros Hk.
    exec_step (load_next_ok _ _ _ Hc). by apply IH.
Qed.

Lemma follow_prev_ok st k a b :
  Ring.iter_fn (prevf st) k a = Some b →
  follow load_prev k (Some a) st = Ok (Some b) st.
Proof.
  revert a. induction k as [|k IH]; intros a; simpl.
  - by intros [= ->].
  - destruct (prevf st a) as [c|] eqn:Hc; [|done]. intros Hk.
    exec_step (load_prev_ok _ _ _ Hc). by apply IH.
Qed.


Lemma values_frame st st' l vs :
  (∀ u, u ∈ l → valuef st' u = valuef st u) → values st l vs → values st' l vs.
Proof.
  intros Hag Hvs. unfold values in *.
  induction Hvs as [|u v l vs Hv Hvs IH]; constructor.
  - rewrite Hag; [done|set_solver].
  - apply IH. intros w Hw. apply Hag. set_solver.
Qed.

Lemma length_emplaced (calls : list (bool * T)) : ∀ vs,
  length (emplaced vs calls) = length vs + length calls.
Proof.
  induction calls as [|[[] v] calls IH]; intros vs; simpl.
  - lia.
  - unfold emplaced in *. rewrite IH. simpl. lia.
  - unfold emplaced in *. rewrite IH, length_app. simpl. lia.
Qed.

Lemma emplace_all_ok calls : ∀ st l fl vs,
  pool_inv st l fl lost → values st l vs → length calls ≤ length fl →
  ∃ st' l' fl', emplace_all (returning calls) st = Ok tt st' ∧
    pool_inv st' l' fl' lost ∧ values st' l' (emplaced vs calls) ∧
    length fl' = length fl - length calls.
Proof.
  unfold returning.
  induction calls as [|[front v] calls IH]; intros st l fl vs Hinv Hvs Hlen.
  - exists st, l, fl. split_and!; [done..|simpl; lia].
  - destruct fl as [|x fl]; [simpl in Hlen; lia|].
    pose proof (pool_inv_NoDup _ _ _ Hinv) as Hnd.
    assert (Hxl : x ∉ l) by list_solver.
    destruct front.
    + destruct (emplace_front_ok st l x fl v Hinv) as (st1 & E1 & Hinv1 & Hv1 & Hvo).
      destruct (IH st1 (x :: l) fl (v :: vs) Hinv1) as (st' & l' & fl' & E & ? & ? & ?).
      * constructor; [done|]. apply (values_frame st); [|done].
        intros u Hu. apply Hvo. by intros ->.
      * simpl in Hlen. lia.
      * exists st', l', fl'. split_and!; [|done..|simpl; lia].
        simpl. by exec_step E1.
    + destruct (emplace_back_ok st l x fl v Hinv) as (st1 & E1 & Hinv1 & Hv1 & Hvo).
      destruct (IH st1 (l ++ [x]) fl (vs ++ [v]) Hinv1) as (st' & l' & fl' & E & ? & ? & ?).
      * apply Forall2_app; [|by repeat constructor].
        apply (values_frame st); [|done].
        intros u Hu. apply Hvo. by intros ->.
      * simpl in Hlen. lia.
      * exists st', l', fl'. split_and!; [|done..|simpl; lia].
        simpl. by exec_step E1.
Qed.

End Facts.

Section Reachable.
Context {T : Type}.
Implicit Types (st : ll_list_pool T).

(** Every state a program can bring the object into satisfies the
    invariant, for some list of lost nodes. *)
Lemma reachable_inv st : reachable st → ∃ lost l fl, pool_inv st l fl lost.
Proof.
  induction 1 as [sz avail capacity st Hs Hcap Hc
                 |st l c st' _ IH Hl Hc Hrun|st l c st' _ IH Hl Hc Hrun].
  - destruct (construct_returns _ _ _ _ Hs Hc) as [Hw Ha].
    destruct (construct_ok (T:=T) sz avail capacity Hs Hw Ha) as (st0 & E & Hinv).
    rewrite E in Hc. injection Hc as ->. eauto.
  - destruct IH as (lost & l0 & fl & Hinv).
    rewrite (Ring.ring_unique _ _ _ _ _ Hl (inv_ring _ _ _ Hinv)) in Hc.
    destruct (run_inv st l0 fl c Hinv Hc)
      as [(st'' & l' & fl' & E & _ & Hinv')|[[E _]|(x & fl' & _ & _ & E & _)]].
    + rewrite E in Hrun. injection Hrun as ->. eauto.
    + by rewrite E in Hrun.
    + by rewrite E in Hrun.
  - destruct IH as (lost & l0 & fl & Hinv).
    rewrite (Ring.ring_unique _ _ _ _ _ Hl (inv_ring _ _ _ Hinv)) in Hc.
    destruct (run_inv st l0 fl c Hinv Hc)
      as [(st'' & l' & fl' & E & _ & Hinv')|[[E _]|(x & fl' & _ & _ & E & Hinv')]].
    + by rewrite E in Hrun.
    + rewrite E in Hrun. injection Hrun as ->. eauto.
    + rewrite E in Hrun. injection Hrun as <-. eauto.
Qed.

(** While no element constructor has thrown, no node is lost. *)
Lemma intact_inv st : intact st → ∃ l fl, pool_inv st l fl [].
Proof.
  induction 1 as [sz avail capacity st Hs Hcap Hc|st l c st' _ IH Hl Hc Hk Hrun].
  - destruct (construct_returns _ _ _ _ Hs Hc) as [Hw Ha].
    destruct (construct_ok (T:=T) sz avail capacity Hs Hw Ha) as (st0 & E & Hinv).
    rewrite E in Hc. injection Hc as ->. eauto.
  - destruct IH as (l0 & fl & Hinv).
    rewrite (Ring.ring_unique _ _ _ _ _ Hl (inv_ring _ _ _ Hinv)) in Hc.
    destruct (run_inv st l0 fl c Hinv Hc)
      as [(st'' & l' & fl' & E & _ & Hinv')|[[E _]|(x & fl' & _ & _ & E & _)]].
    + rewrite E in Hrun. injection Hrun as ->. eauto.
    + by rewrite E in Hrun.
    + by rewrite E in Hrun.
Qed.

Lemma intact_reachable st : intact st → reachable st.
Proof.
  induction 1 as [sz avail capacity st Hs Hcap Hc|st l c st' _ IH Hl Hc Hk Hrun].
  - by eapply reach_construct.
  - by eapply reach_return.
Qed.

End Reachable.
End Pool.

(** ** The intrusive list: [intrusive_hook] and [intrusive_list] *)

Module Intrusive.
Import Exec.

(** Addresses of hooks; an [intrusive_hook*] is [None] for [nullptr]. *)
Abbreviation addr := nat (only parsing).
Definition ptr : Type := option addr.

(** [struct intrusive_hook { intrusive_hook* prev = nullptr;
    intrusive_hook* next = nullptr; }]. *)
Record intrusive_hook : Type := Hook {
  prev : ptr;
  next : ptr;
}.

(** [bool is_linked() const]. *)
Definition is_linked (h : intrusive_hook) : bool :=
  bool_decide (prev h ≠ None) && bool_decide (next h ≠ None).

(** A default-constructed hook. *)
Definition unlinked_hook : intrusive_hook := Hook None None.

Section Intrusive.
(** [E]: what a host object holds besides its hook (for
    [struct intrusive_order { intrusive_hook hook; uint64_t id; }], the id). *)
Context {E : Type}.

(** The objects that embed a hook: a list object, whose only member is
    its sentinel, or a caller-owned host object.  The address of the
    object stands for the address of its hook. *)
Inductive object : Type :=
| list_object (sentinel_ : intrusive_hook)
| host_object (hook : intrusive_hook) (fields : E).

Definition hook_of (o : object) : intrusive_hook :=
  match o with list_object h => h | host_object h _ => h end.
Definition with_hook (h : intrusive_hook) (o : object) : object :=
  match o with list_object _ => list_object h | host_object _ e => host_object h e end.
Definition fields_of (o : object) : option E :=
  match o with list_object _ => None | host_object _ e => Some e end.

Local Abbreviation memory := (gmap nat object).

(** [*p] for reading. *)
Definition deref (p : ptr) (m : memory) : option intrusive_hook :=
  match p with
  | None => None
  | Some a => hook_of <$> m !! a
  end.

Definition with_prev (v : ptr) (h : intrusive_hook) : intrusive_hook := Hook v (next h).
Definition with_next (v : ptr) (h : intrusive_hook) : intrusive_hook := Hook (prev h) v.

(** Writing the hook [p] points to, inside the object that embeds it. *)
Definition update (p : ptr) (f : intrusive_hook → intrusive_hook) : M memory unit :=
  write (λ m, match p with
              | None => None
              | Some a => match m !! a with
                          | Some o => Some (<[a := with_hook (f (hook_of o)) o]> m)
                          | None => None
                          end
              end).

(** [p->prev], [p->next], [p->is_linked()]. *)
Definition load_prev (p : ptr) : M memory ptr := read (λ m, prev <$> deref p m).
Definition load_next (p : ptr) : M memory ptr := read (λ m, next <$> deref p m).
Definition load_is_linked (p : ptr) : M memory bool := read (λ m, is_linked <$> deref p m).

(** [p->prev = v], [p->next = v]. *)
Definition store_prev (p v : ptr) : M memory unit := update p (with_prev v).
Definition store_next (p v : ptr) : M memory unit := update p (with_next v).

(** [static void link_between(intrusive_hook* x, intrusive_hook* a, intrusive_hook* b)]. *)
Definition link_between (x a b : ptr) : M memory unit :=
  store_prev x a;;
  store_next x b;;
  store_next a x;;
  store_prev b x.

(** [static void unlink(intrusive_hook* x)]. *)
Definition unlink (x : ptr) : M memory unit :=
  linked ← load_is_linked x;
  if negb linked then (mret tt : M memory unit)
  else
    p ← load_prev x; n ← load_next x; store_next p n;;
    n' ← load_next x; p' ← load_prev x; store_prev n' p';;
    store_prev x None;;
    store_next x None.

(** The member functions take the address [this] of the list object,
    which is the address of its sentinel. *)

(** [intrusive_list()]. *)
Definition construct (this : addr) : M memory unit :=
  store_prev (Some this) (Some this);;
  store_next (Some this) (Some this).

(** [bool empty() const]. *)
Definition empty (this : addr) : M memory bool :=
  n ← load_next (Some this); mret (bool_decide (n = Some this)).

(** [front()], [back()], [end()]. *)
Definition front (this : addr) : M memory ptr := load_next (Some this).
Definition back (this : addr) : M memory ptr := load_prev (Some this).
Definition end_ (this : addr) : ptr := Some this.

(** [void push_front(intrusive_hook* h)], [void push_back(intrusive_hook* h)]. *)
Definition push_front (this : addr) (h : ptr) : M memory unit :=
  first ← load_next (Some this);
  link_between h (Some this) first.

Definition push_back (this : addr) (h : ptr) : M memory unit :=
  last ← load_prev (Some this);
  link_between h last (Some this).

(** [void remove(intrusive_hook* h)]. *)
Definition remove (this : addr) (h : ptr) : M memory unit := unlink h.

(** [void clear()]: [while (!empty()) remove(front());]. *)
Fixpoint clear (fuel : nat) (this : addr) : M memory unit :=
  e ← empty this;
  if (e : bool) then (mret tt : M memory unit)
  else match fuel with
       | O => out_of_fuel
       | S fuel' => f ← front this; remove this f;; clear fuel' this
       end.

(** [void splice(intrusive_hook* pos, intrusive_hook* h)]. *)
Definition splice (this : addr) (pos h : ptr) : M memory unit :=
  if decide (h = pos) then mret tt
  else
    unlink h;;
    before ← load_prev pos;
    link_between h before pos.

(** [void splice(intrusive_hook* pos, intrusive_hook* first, intrusive_hook* last)]. *)
Definition splice_range (this : addr) (pos first last : ptr) : M memory unit :=
  if decide (first = last) then mret tt
  else
    tail ← load_prev last;
    first_prev ← load_prev first;
    store_next first_prev last;;
    first_prev' ← load_prev first;
    store_prev last first_prev';;
    before ← load_prev pos;
    store_next before first;;
    store_prev first before;;
    store_next tail pos;;
    store_prev pos tail.

(** The traversal loop of the callers:
    [for (h = cur; h != lst.end(); h = h->next)], collecting the hooks. *)
Fixpoint hooks_from (fuel : nat) (this : addr) (cur : ptr) : M memory (list nat) :=
  match cur with
  | None => fault
  | Some a =>
      if decide (a = this) then mret []
      else match fuel with
           | O => out_of_fuel
           | S fuel' =>
               nx ← load_next cur; hs ← hooks_from fuel' this nx; mret (a :: hs)
           end
  end.

Definition to_list (fuel : nat) (this : addr) : M memory (list nat) :=
  f ← front this; hooks_from fuel this f.

(** The same loop backwards: [for (h = cur; h != lst.end(); h = h->prev)]. *)
Fixpoint hooks_back_from (fuel : nat) (this : addr) (cur : ptr) : M memory (list nat) :=
  match cur with
  | None => fault
  | Some a =>
      if decide (a = this) then mret []
      else match fuel with
           | O => out_of_fuel
           | S fuel' =>
               pv ← load_prev cur; hs ← hooks_back_from fuel' this pv; mret (a :: hs)
           end
  end.

Definition to_list_back (fuel : nat) (this : addr) : M memory (list nat) :=
  b ← back this; hooks_back_from fuel this b.

(** *** Views of a memory *)

Definition nextf (m : memory) (u : nat) : option nat := deref (Some u) m ≫= next.
Definition prevf (m : memory) (u : nat) : option nat := deref (Some u) m ≫= prev.
(** The part of the object at [u] that lies outside its hook. *)
Definition fieldsf (m : memory) (u : nat) : option (option E) := fields_of <$> m !! u.
Definition valid (m : memory) (u : nat) : Prop := is_Some (m !! u).
(** The hook at [u] exists and has both link fields null. *)
Definition unlinked (m : memory) (u : nat) : Prop :=
  valid m u ∧ prevf m u = None ∧ nextf m u = None.

(** What no operation of the list changes: which objects exist and what
    they hold outside their hooks. *)
Definition same_objects (m m' : memory) : Prop :=
  (∀ u, valid m' u ↔ valid m u) ∧ (∀ u, fieldsf m' u = fieldsf m u).

(** [contents this m l]: the list at [this] holds the hooks [l], in this order. *)
Definition contents (this : nat) (m : memory) (l : list nat) : Prop :=
  Ring.ring (nextf m) (prevf m) this l.

(** The invariant of a memory with one list: the hooks [l] form the ring,
    every other hook is unlinked. *)
Definition list_inv (this : nat) (m : memory) (l : list nat) : Prop :=
  contents this m l ∧ ∀ u, valid m u → u ∉ this :: l → unlinked m u.

(** *** Sequences of calls *)

Inductive call : Type :=
| PushFront (h : ptr)
| PushBack (h : ptr)
| Remove (h : ptr)
| Splice (pos h : ptr)
| SpliceRange (pos first last : ptr)
| Clear (fuel : nat).

Definition run (this : addr) (c : call) : M memory unit :=
  match c with
  | PushFront h => push_front this h
  | PushBack h => push_back this h
  | Remove h => remove this h
  | Splice pos h => splice this pos h
  | SpliceRange pos first last => splice_range this pos first last
  | Clear fuel => clear fuel this
  end.

(** The contract of a call on the list at [this] that holds the hooks
    [l]: a pushed hook is linked nowhere; a removed or spliced hook exists
    and is not the sentinel; [pos] is a hook of the list or [end()]; a
    range is a run of the list and [pos] lies outside it; the bound given
    to [clear] is large enough for its loop. *)
Definition allowed (this : addr) (m : memory) (l : list nat) (c : call) : Prop :=
  match c with
  | PushFront h | PushBack h => ∃ x, h = Some x ∧ unlinked m x
  | Remove h => ∃ x, h = Some x ∧ valid m x ∧ x ≠ this
  | Splice pos h =>
      ∃ p x, pos = Some p ∧ h = Some x ∧ p ∈ l ++ [this] ∧ valid m x ∧ x ≠ this
  | SpliceRange pos first last =>
      ∃ l1 r l2 p, l = l1 ++ r ++ l2 ∧
        first = Some (hd this (r ++ l2)) ∧ last = Some (hd this l2) ∧
        pos = Some p ∧ p ∈ l1 ++ l2 ++ [this]
  | Clear fuel => length l ≤ fuel
  end.

(** The memories a list at [this] can be in: constructed in a memory
    whose hooks are all unlinked, then changed by calls made within
    their contract. *)
Inductive reachable (this : addr) : memory → Prop :=
| reach_construct m0 m :
    valid m0 this → (∀ u, valid m0 u → u ≠ this → unlinked m0 u) →
    construct this m0 = Ok tt m → reachable this m
| reach_return m l c m' :
    reachable this m → contents this m l → allowed this m l c →
    run this c m = Ok tt m' → reachable this m'.

(** Following [next], or [prev], [k] times from [p]. *)
Fixpoint follow (step : ptr → M memory ptr) (k : nat) (p : ptr) : M memory ptr :=
  match k with
  | O => mret p
  | S k' => q ← step p; follow step k' q
  end.

End Intrusive.
Global Arguments object : clear implicits.

Ltac list_solver :=
  repeat match goal with
         | m : gmap nat (object _) |- _ => clear dependent m
         end;
  nodup_solver.

Ltac exec_step H := rewrite (bind_Ok _ _ _ _ _ H).

(** *** Memory accesses *)

Section Facts.
Context {E : Type}.
Implicit Types (m : gmap nat (object E)) (u a b x : nat).

Lemma same_objects_refl m : same_objects m m.
Proof. by split. Qed.

Lemma same_objects_trans m1 m2 m3 :
  same_objects m1 m2 → same_objects m2 m3 → same_objects m1 m3.
Proof.
  intros [Hv1 Hf1] [Hv2 Hf2]. split; intros u.
  - by rewrite Hv2, Hv1.
  - by rewrite Hf2, Hf1.
Qed.

Lemma same_objects_valid m m' u : same_objects m m' → valid m u → valid m' u.
Proof. intros [Hv _]. apply Hv. Qed.

Lemma hook_nextf_valid m u b : nextf m u = Some b → valid m u.
Proof. unfold nextf, valid, deref. destruct (m !! u); naive_solver. Qed.

Lemma hook_prevf_valid m u b : prevf m u = Some b → valid m u.
Proof. unfold prevf, valid, deref. destruct (m !! u); naive_solver. Qed.

Lemma hook_of_with_hook h (o : object E) : hook_of (with_hook h o) = h.
Proof. by destruct o. Qed.

Lemma fields_of_with_hook h (o : object E) : fields_of (with_hook h o) = fields_of o.
Proof. by destruct o. Qed.

Lemma hook_update_ok a (f : intrusive_hook → intrusive_hook) m :
  valid m a →
  ∃ m' h, update (Some a) f m = Ok tt m' ∧
    deref (Some a) m = Some h ∧
    (∀ u, deref (Some u) m' = if decide (u = a) then Some (f h) else deref (Some u) m) ∧
    same_objects m m'.
Proof.
  intros [o Ho]. exists (<[a := with_hook (f (hook_of o)) o]> m), (hook_of o).
  split_and!.
  - unfold update, write. by rewrite Ho.
  - simpl. by rewrite Ho.
  - intros u. simpl. destruct (decide (u = a)) as [->|Hne].
    + rewrite lookup_insert_eq. simpl. by rewrite hook_of_with_hook.
    + by rewrite lookup_insert_ne.
  - split; intros u; unfold valid, fieldsf; destruct (decide (u = a)) as [->|Hne].
    + rewrite lookup_insert_eq, Ho. split; by eexists.
    + by rewrite lookup_insert_ne.
    + rewrite lookup_insert_eq, Ho. simpl. by rewrite fields_of_with_hook.
    + by rewrite lookup_insert_ne.
Qed.

Lemma hook_store_next_ok a v m :
  valid m a →
  ∃ m', store_next (Some a) v m = Ok tt m' ∧
    (∀ u, nextf m' u = if decide (u = a) then v else nextf m u) ∧
    (∀ u, prevf m' u = prevf m u) ∧
    same_objects m m'.
Proof.
  intros Hv. destruct (hook_update_ok a (with_next v) m Hv) as (m' & h & E1 & Hh & Hd & Hs).
  exists m'. split; [done|]. split_and!; [| |done].
  - intros u. unfold nextf. rewrite Hd. by case_decide.
  - intros u. unfold prevf. rewrite Hd. case_decide; [subst|done]. by rewrite Hh.
Qed.

Lemma hook_store_prev_ok a v m :
  valid m a →
  ∃ m', store_prev (Some a) v m = Ok tt m' ∧
    (∀ u, nextf m' u = nextf m u) ∧
    (∀ u, prevf m' u = if decide (u = a) then v else prevf m u) ∧
    same_objects m m'.
Proof.
  intros Hv. destruct (hook_update_ok a (with_prev v) m Hv) as (m' & h & E1 & Hh & Hd & Hs).
  exists m'. split; [done|]. split_and!; [| |done].
  - intros u. unfold nextf. rewrite Hd. case_decide; [subst|done]. by rewrite Hh.
  - intros u. unfold prevf. rewrite Hd. by case_decide.
Qed.

Lemma hook_load_next_ok a b m : nextf m a = Some b → load_next (Some a) m = Ok (Some b) m.
Proof.
  unfold nextf, load_next, read. destruct (deref _ _) as [h|]; [|done].
  simpl. by intros ->.
Qed.

Lemma hook_load_prev_ok a b m : prevf m a = Some b → load_prev (Some a) m = Ok (Some b) m.
Proof.
  unfold prevf, load_prev, read. destruct (deref _ _) as [h|]; [|done].
  simpl. by intros ->.
Qed.

(** [is_linked()] is true exactly when both link fields are non-null. *)
Lemma is_linked_spec (h : intrusive_hook) :
  is_linked h = true ↔ prev h ≠ None ∧ next h ≠ None.
Proof.
  unfold is_linked. rewrite andb_true_iff, !bool_decide_eq_true. tauto.
Qed.

Lemma load_is_linked_true a (p n : nat) m :
  prevf m a = Some p → nextf m a = Some n → load_is_linked (Some a) m = Ok true m.
Proof.
  unfold prevf, nextf, load_is_linked, read. destruct (deref _ _) as [h|]; [|done].
  simpl. intros Hp Hn. replace (is_linked h) with true; [done|].
  symmetry. apply is_linked_spec. by rewrite Hp, Hn.
Qed.

Lemma load_is_linked_false a m :
  unlinked m a → load_is_linked (Some a) m = Ok false m.
Proof.
  intros ([o Ho] & Hp & Hn). unfold prevf, nextf, deref in Hp, Hn.
  unfold load_is_linked, read, deref. rewrite Ho in *. simpl in *.
  unfold is_linked. by rewrite Hp.
Qed.

Lemma hook_link_between_ok x a b m :
  valid m x → valid m a → valid m b →
  ∃ m', link_between (Some x) (Some a) (Some b) m = Ok tt m' ∧
    (∀ u, nextf m' u =
       if decide (u = a) then Some x else if decide (u = x) then Some b else nextf m u) ∧
    (∀ u, prevf m' u =
       if decide (u = b) then Some x else if decide (u = x) then Some a else prevf m u) ∧
    same_objects m m'.
Proof.
  intros Hx Ha Hb.
  destruct (hook_store_prev_ok x (Some a) m Hx) as (m1 & E1 & N1 & P1 & S1).
  destruct (hook_store_next_ok x (Some b) m1) as (m2 & E2 & N2 & P2 & S2);
    [by eapply same_objects_valid|].
  pose proof (same_objects_trans _ _ _ S1 S2) as S12.
  destruct (hook_store_next_ok a (Some x) m2) as (m3 & E3 & N3 & P3 & S3);
    [by eapply same_objects_valid|].
  pose proof (same_objects_trans _ _ _ S12 S3) as S13.
  destruct (hook_store_prev_ok b (Some x) m3) as (m4 & E4 & N4 & P4 & S4);
    [by eapply same_objects_valid|].
  exists m4. split.
  { unfold link_between. exec_step E1. exec_step E2. exec_step E3. exact E4. }
  split_and!.
  - intros u. by rewrite N4, N3, N2, N1.
  - intros u. by rewrite P4, P3, P2, P1.
  - by eapply same_objects_trans.
Qed.

(** Unlinking a hook whose two links point to existing hooks. *)
Lemma unlink_linked_ok x (p n : nat) m :
  prevf m x = Some p → nextf m x = Some n → valid m p → valid m n →
  ∃ m', unlink (Some x) m = Ok tt m' ∧
    (∀ u, nextf m' u =
       if decide (u = x) then None else if decide (u = p) then Some n else nextf m u) ∧
    (∀ u, prevf m' u =
       if decide (u = x) then None else if decide (u = n) then Some p else prevf m u) ∧
    same_objects m m'.
Proof.
  intros Hp Hn Vp Vn.
  assert (Vx : valid m x) by by eapply hook_nextf_valid.
  destruct (hook_store_next_ok p (Some n) m Vp) as (m1 & E1 & N1 & P1 & S1).
  destruct (hook_store_prev_ok n (Some p) m1) as (m2 & E2 & N2 & P2 & S2);
    [by eapply same_objects_valid|].
  pose proof (same_objects_trans _ _ _ S1 S2) as S02.
  destruct (hook_store_prev_ok x None m2) as (m3 & E3 & N3 & P3 & S3);
    [by eapply same_objects_valid|].
  pose proof (same_objects_trans _ _ _ S02 S3) as S03.
  destruct (hook_store_next_ok x None m3) as (m4 & E4 & N4 & P4 & S4);
    [by eapply same_objects_valid|].
  assert (nextf m1 x = Some n) as Hn1.
  { rewrite N1. by case_decide. }
  assert (prevf m1 x = Some p) as Hp1 by by rewrite P1.
  exists m4. split.
  { unfold unlink. exec_step (load_is_linked_true _ _ _ _ Hp Hn). simpl.
    exec_step (hook_load_prev_ok _ _ _ Hp). exec_step (hook_load_next_ok _ _ _ Hn).
    exec_step E1.
    exec_step (hook_load_next_ok _ _ _ Hn1). exec_step (hook_load_prev_ok _ _ _ Hp1).
    exec_step E2. exec_step E3. exact E4. }
  split_and!.
  - intros u. by rewrite N4, N3, N2, N1.
  - intros u. by rewrite P4, P3, P2, P1.
  - by eapply same_objects_trans.
Qed.

(** Unlinking an unlinked hook does nothing. *)
Lemma unlink_unlinked_ok x m : unlinked m x → unlink (Some x) m = Ok tt m.
Proof.
  intros Hu. unfold unlink. by exec_step (load_is_linked_false _ _ Hu).
Qed.

Lemma hook_contents_valid this m l u : contents this m l → u ∈ this :: l → valid m u.
Proof.
  intros Hr Hu. destruct (Ring.ring_links _ _ _ _ _ Hr Hu) as [[b Hb] _].
  by eapply hook_nextf_valid.
Qed.

(** An unlinked hook is on no list. *)
Lemma unlinked_fresh this m l u : contents this m l → unlinked m u → u ∉ this :: l.
Proof.
  intros Hr (_ & _ & Hn) Hu.
  destruct (Ring.ring_links _ _ _ _ _ Hr Hu) as [[b Hb] _]. congruence.
Qed.

Lemma hook_contents_prev_at this m l1 x l2 :
  contents this m (l1 ++ x :: l2) → prevf m x = Some (Ring.lastd this l1).
Proof. intros Hr. by apply Ring.ring_prev_pos in Hr. Qed.

Lemma hook_contents_next_at this m l1 x l2 :
  contents this m (l1 ++ x :: l2) → nextf m x = Some (hd this l2).
Proof.
  intros Hr. replace (l1 ++ x :: l2) with ((l1 ++ [x]) ++ l2) in Hr
    by (by rewrite <- app_assoc).
  apply Ring.ring_next_pos in Hr. by rewrite Ring.lastd_snoc in Hr.
Qed.


(** *** Insertion and removal *)

(** The common part of [push_front], [push_back] and [splice]: linking
    a hook that is on no list into the gap between [ra] and [rb]. *)
Lemma link_into this m ra rb h :
  contents this m (ra ++ rb) → valid m h → h ∉ this :: ra ++ rb →
  let before := Ring.lastd this ra in
  let pos := hd this rb in
  ∃ m', link_between (Some h) (Some before) (Some pos) m = Ok tt m' ∧
    contents this m' (ra ++ h :: rb) ∧
    (∀ u, nextf m' u =
       if decide (u = before) then Some h
       else if decide (u = h) then Some pos else nextf m u) ∧
    (∀ u, prevf m' u =
       if decide (u = pos) then Some h
       else if decide (u = h) then Some before else prevf m u) ∧
    same_objects m m'.
Proof.
  intros Hr Hv Hh before pos.
  assert (Hbef : before ∈ this :: ra) by apply Ring.lastd_elem.
  assert (Hpos : pos ∈ rb ++ [this]) by apply Ring.hd_elem.
  assert (Hhb : h ≠ before) by (intros ->; list_solver).
  assert (Hhp : h ≠ pos) by (intros ->; list_solver).
  destruct (hook_link_between_ok h before pos m) as (m' & E1 & N1 & P1 & S1); [done|..].
  { apply (hook_contents_valid this m _ _ Hr). list_solver. }
  { apply (hook_contents_valid this m _ _ Hr). list_solver. }
  exists m'. split; [done|]. split_and!; try done.
  apply (Ring.ring_insert (nextf m) (prevf m) _ _ this ra h rb); try done.
  - rewrite N1. by rewrite decide_True.
  - rewrite N1. rewrite decide_False by done. by rewrite decide_True.
  - intros u Hu1 Hu2. rewrite N1. by rewrite !decide_False.
  - rewrite P1. rewrite decide_False by done. by rewrite decide_True.
  - rewrite P1. by rewrite decide_True.
  - intros u Hu1 Hu2. rewrite P1. by rewrite !decide_False.
Qed.

Lemma push_back_ok this m l h :
  contents this m l → valid m h → h ∉ this :: l →
  ∃ m', push_back this (Some h) m = Ok tt m' ∧
    contents this m' (l ++ [h]) ∧
    (∀ u, u ∉ [Ring.lastd this l; h; this] → nextf m' u = nextf m u ∧ prevf m' u = prevf m u) ∧
    same_objects m m'.
Proof.
  intros Hr Hv Hh. rewrite <- (app_nil_r l) in Hr, Hh.
  destruct (link_into this m l [] h Hr Hv Hh) as (m' & E1 & Hr' & N1 & P1 & S1).
  exists m'. split; [|split_and!; try done].
  - unfold push_back.
    by exec_step (hook_load_prev_ok _ _ _ (Ring.ring_prev_pos _ _ _ _ _ Hr)).
  - intros u Hu. rewrite N1, P1. simpl.
    rewrite !decide_False by set_solver. done.
Qed.

Lemma push_front_ok this m l h :
  contents this m l → valid m h → h ∉ this :: l →
  ∃ m', push_front this (Some h) m = Ok tt m' ∧
    contents this m' (h :: l) ∧
    (∀ u, u ∉ [this; h; hd this l] → nextf m' u = nextf m u ∧ prevf m' u = prevf m u) ∧
    same_objects m m'.
Proof.
  intros Hr Hv Hh.
  destruct (link_into this m [] l h Hr Hv Hh) as (m' & E1 & Hr' & N1 & P1 & S1).
  exists m'. split; [|split_and!; try done].
  - unfold push_front.
    by exec_step (hook_load_next_ok _ _ _ (Ring.ring_next_pos _ _ _ [] _ Hr)).
  - intros u Hu. rewrite N1, P1. rewrite Ring.lastd_nil.
    rewrite !decide_False by set_solver. done.
Qed.

(** [remove] of a hook of the list. *)
Lemma remove_ok this m l1 x l2 :
  contents this m (l1 ++ x :: l2) →
  let A := Ring.lastd this l1 in
  let B := hd this l2 in
  ∃ m', remove this (Some x) m = Ok tt m' ∧
    contents this m' (l1 ++ l2) ∧
    unlinked m' x ∧
    (∀ u, nextf m' u =
       if decide (u = x) then None else if decide (u = A) then Some B else nextf m u) ∧
    (∀ u, prevf m' u =
       if decide (u = x) then None else if decide (u = B) then Some A else prevf m u) ∧
    same_objects m m'.
Proof.
  intros Hr A B.
  pose proof (Ring.ring_NoDup _ _ _ _ Hr) as Hnd.
  pose proof (hook_contents_prev_at _ _ _ _ _ Hr) as HpA.
  pose proof (hook_contents_next_at _ _ _ _ _ Hr) as HnB.
  assert (HA : A ∈ this :: l1) by apply Ring.lastd_elem.
  assert (HB : B ∈ l2 ++ [this]) by apply Ring.hd_elem.
  assert (HAx : A ≠ x) by (intros Heq; unfold A in *; rewrite Heq in HA; list_solver).
  assert (HBx : B ≠ x) by (intros Heq; unfold B in *; rewrite Heq in HB; list_solver).
  destruct (unlink_linked_ok x A B m) as (m' & E1 & N1 & P1 & S1); [done|done|..].
  { apply (hook_contents_valid this m _ _ Hr). list_solver. }
  { apply (hook_contents_valid this m _ _ Hr). list_solver. }
  exists m'. split; [done|]. split_and!; try done.
  - apply (Ring.ring_remove (nextf m) (prevf m) _ _ this l1 x l2); try done.
    + rewrite N1. rewrite decide_False by done. by rewrite decide_True.
    + intros u Hu1 Hu2. rewrite N1. by rewrite !decide_False.
    + rewrite P1. rewrite decide_False by done. by rewrite decide_True.
    + intros u Hu1 Hu2. rewrite P1. by rewrite !decide_False.
  - split_and!.
    + eapply same_objects_valid; [done|]. by eapply hook_nextf_valid.
    + rewrite P1. by rewrite decide_True.
    + rewrite N1. by rewrite decide_True.
Qed.


(** *** Splice *)

Lemma hook_splice_self this (p : ptr) m : splice this p p m = Ok tt m.
Proof. unfold splice. by rewrite decide_True. Qed.

(** Moving the hook [x] of the list to the gap between [ra] and [rb] of
    the remaining hooks. *)
Lemma hook_splice_contents this m l1 x l2 ra rb :
  contents this m (l1 ++ x :: l2) → l1 ++ l2 = ra ++ rb →
  let A := Ring.lastd this l1 in
  let B := hd this l2 in
  let before := Ring.lastd this ra in
  let pos := hd this rb in
  ∃ m', splice this (Some pos) (Some x) m = Ok tt m' ∧
    contents this m' (ra ++ x :: rb) ∧
    (∀ u, nextf m' u =
       if decide (u = before) then Some x
       else if decide (u = x) then Some pos
       else if decide (u = A) then Some B else nextf m u) ∧
    (∀ u, prevf m' u =
       if decide (u = pos) then Some x
       else if decide (u = x) then Some before
       else if decide (u = B) then Some A else prevf m u) ∧
    same_objects m m'.
Proof.
  intros Hr Hsplit A B before pos.
  pose proof (Ring.ring_NoDup _ _ _ _ Hr) as Hnd.
  assert (Hx : x ∉ this :: ra ++ rb) by (rewrite <- Hsplit; list_solver).
  assert (Hpos : pos ∈ rb ++ [this]) by apply Ring.hd_elem.
  assert (Hxpos : x ≠ pos) by (intros ->; list_solver).
  destruct (remove_ok this m l1 x l2 Hr) as (m1 & E1 & Hr1 & Hu1 & N1 & P1 & S1).
  rewrite Hsplit in Hr1.
  destruct (link_into this m1 ra rb x Hr1) as (m2 & E2 & Hr2 & N2 & P2 & S2);
    [by destruct Hu1|done|].
  exists m2. split; [|split_and!; try done].
  - unfold splice. rewrite decide_False by congruence.
    exec_step (E1 : unlink (Some x) m = Ok tt m1).
    by exec_step (hook_load_prev_ok _ _ _ (Ring.ring_prev_pos _ _ _ _ _ Hr1)).
  - intros u. rewrite N2, N1. by repeat case_decide.
  - intros u. rewrite P2, P1. by repeat case_decide.
  - by eapply same_objects_trans.
Qed.

(** Splicing in a hook that is on no list. *)
Lemma splice_unlinked this m ra rb h :
  contents this m (ra ++ rb) → unlinked m h →
  let before := Ring.lastd this ra in
  let pos := hd this rb in
  ∃ m', splice this (Some pos) (Some h) m = Ok tt m' ∧
    contents this m' (ra ++ h :: rb) ∧
    (∀ u, nextf m' u =
       if decide (u = before) then Some h
       else if decide (u = h) then Some pos else nextf m u) ∧
    (∀ u, prevf m' u =
       if decide (u = pos) then Some h
       else if decide (u = h) then Some before else prevf m u) ∧
    same_objects m m'.
Proof.
  intros Hr Hu before pos.
  pose proof (unlinked_fresh _ _ _ _ Hr Hu) as Hh.
  assert (Hpos : pos ∈ rb ++ [this]) by apply Ring.hd_elem.
  assert (Hhpos : h ≠ pos) by (intros ->; list_solver).
  destruct (link_into this m ra rb h Hr) as (m2 & E2 & Hr2 & N2 & P2 & S2);
    [by destruct Hu|done|].
  exists m2. split; [|done].
  unfold splice. rewrite decide_False by congruence.
  exec_step (unlink_unlinked_ok _ _ Hu).
  by exec_step (hook_load_prev_ok _ _ _ (Ring.ring_prev_pos _ _ _ _ _ Hr)).
Qed.

Lemma hook_splice_range_empty this (pos p : ptr) m : splice_range this pos p p m = Ok tt m.
Proof. unfold splice_range. by rewrite decide_True. Qed.

(** Moving the run [r] to the gap between [ra] and [rb] of the remaining
    hooks. *)
Lemma hook_splice_range_contents this m l1 r l2 ra rb :
  r ≠ [] → contents this m (l1 ++ r ++ l2) → l1 ++ l2 = ra ++ rb →
  let A := Ring.lastd this l1 in
  let b := hd this l2 in
  let a := hd this r in
  let tail := Ring.lastd this r in
  let before := Ring.lastd this ra in
  let pos := hd this rb in
  ∃ m', splice_range this (Some pos) (Some a) (Some b) m = Ok tt m' ∧
    contents this m' (ra ++ r ++ rb) ∧
    (∀ u, nextf m' u =
       if decide (u = tail) then Some pos
       else if decide (u = before) then Some a
       else if decide (u = A) then Some b else nextf m u) ∧
    (∀ u, prevf m' u =
       if decide (u = pos) then Some tail
       else if decide (u = a) then Some before
       else if decide (u = b) then Some A else prevf m u) ∧
    same_objects m m'.
Proof.
  intros Hne Hr Hsplit A b a tail before pos.
  pose proof (Ring.ring_NoDup _ _ _ _ Hr) as Hnd.
  assert (Ha : a ∈ r) by by apply Ring.hd_elem_nonempty.
  assert (Ht : tail ∈ r) by by apply Ring.lastd_elem_nonempty.
  destruct (Ring.ring_move_fresh _ _ _ _ _ _ _ _ a Hr Hsplit Ha)
    as (Ha1 & Ha2 & Ha3 & Ha4 & Ha5).
  destruct (Ring.ring_move_fresh _ _ _ _ _ _ _ _ tail Hr Hsplit Ht)
    as (Ht1 & Ht2 & Ht3 & Ht4 & Ht5).
  assert (HA : A ∈ this :: l1) by apply Ring.lastd_elem.
  assert (Hb : b ∈ l2 ++ [this]) by apply Ring.hd_elem.
  assert (Hbef : before ∈ this :: ra) by apply Ring.lastd_elem.
  assert (Hpos : pos ∈ rb ++ [this]) by apply Ring.hd_elem.
  assert (Hrest : ∀ u, u ∈ this :: ra ++ rb → u ∈ this :: l1 ++ l2)
    by (by rewrite Hsplit).
  assert (Hval : ∀ u, u ∈ this :: l1 ++ r ++ l2 → valid m u)
    by (intros u; apply hook_contents_valid; done).
  assert (VA : valid m A) by (apply Hval; set_solver).
  assert (Vb : valid m b) by (apply Hval; set_solver).
  assert (Va : valid m a) by (apply Hval; set_solver).
  assert (Vt : valid m tail) by (apply Hval; set_solver).
  assert (Vbef : valid m before).
  { apply Hval. assert (before ∈ this :: l1 ++ l2) as Hin
      by (apply Hrest; clear -Hbef; set_solver).
    clear -Hin. set_solver. }
  assert (Vpos : valid m pos).
  { apply Hval. assert (pos ∈ this :: l1 ++ l2) as Hin
      by (apply Hrest; clear -Hpos; set_solver).
    clear -Hin. set_solver. }
  assert (Hfresh : ∀ u, u ∈ r → u ∉ this :: ra ++ rb).
  { intros u Hu Hu'. apply Hrest in Hu'. clear -Hu Hu' Hnd. nodup_solver. }
  assert (Hnd' : NoDup r) by (clear -Hnd; nodup_solver).
  clear Hval Hrest HA Hb Hbef Hpos.
  assert (Hptail : prevf m b = Some tail).
  { pose proof Hr as Hr'. rewrite app_assoc in Hr'.
    apply Ring.ring_prev_pos in Hr'. rewrite Ring.lastd_app in Hr'.
    by rewrite (Ring.lastd_indep _ this) in Hr'. }
  assert (HpA : prevf m a = Some A).
  { pose proof Hr as Hr'. apply Ring.ring_prev_pos in Hr'.
    rewrite Ring.hd_app in Hr'. by rewrite (Ring.hd_indep _ this) in Hr'. }
  destruct (hook_store_next_ok A (Some b) m) as (m1 & E1 & N1 & P1 & S1); [done|].
  destruct (hook_store_prev_ok b (Some A) m1) as (m2 & E2 & N2 & P2 & S2);
    [by eapply same_objects_valid|].
  pose proof (same_objects_trans _ _ _ S1 S2) as S02.
  destruct (Ring.ring_cut (nextf m) (prevf m) (nextf m2) (prevf m2)
              this l1 r l2) as [Hr2 Hseg].
  { done. }
  { rewrite N2, N1. by rewrite decide_True. }
  { intros u Hu. rewrite N2, N1. by rewrite decide_False. }
  { rewrite P2. by rewrite decide_True. }
  { intros u Hu. rewrite P2, P1. by rewrite decide_False. }
  rewrite Hsplit in Hr2.
  pose proof (Ring.ring_prev_pos _ _ _ _ _ Hr2) as Hbefore. fold pos before in Hbefore.
  destruct (hook_store_next_ok before (Some a) m2) as (m3 & E3 & N3 & P3 & S3);
    [by eapply same_objects_valid|].
  pose proof (same_objects_trans _ _ _ S02 S3) as S03.
  destruct (hook_store_prev_ok a (Some before) m3) as (m4 & E4 & N4 & P4 & S4);
    [by eapply same_objects_valid|].
  pose proof (same_objects_trans _ _ _ S03 S4) as S04.
  destruct (hook_store_next_ok tail (Some pos) m4) as (m5 & E5 & N5 & P5 & S5);
    [by eapply same_objects_valid|].
  pose proof (same_objects_trans _ _ _ S04 S5) as S05.
  destruct (hook_store_prev_ok pos (Some tail) m5) as (m6 & E6 & N6 & P6 & S6);
    [by eapply same_objects_valid|].
  assert (HpA1 : prevf m1 a = Some A) by by rewrite P1.
  exists m6. split.
  { unfold splice_range. rewrite decide_False by (intros [= Heq]; by apply Ha4).
    exec_step (hook_load_prev_ok _ _ _ Hptail). exec_step (hook_load_prev_ok _ _ _ HpA).
    exec_step E1. exec_step (hook_load_prev_ok _ _ _ HpA1). exec_step E2.
    exec_step (hook_load_prev_ok _ _ _ Hbefore).
    exec_step E3. exec_step E4. exec_step E5. exact E6. }
  split_and!.
  - apply (Ring.ring_paste (nextf m2) (prevf m2) _ _ this ra r rb); try done.
    + rewrite N6, N5, N4, N3. rewrite decide_False by done. by rewrite decide_True.
    + rewrite N6, N5. by rewrite decide_True.
    + intros u Hu1 Hu2. rewrite N6, N5, N4, N3. by rewrite !decide_False.
    + rewrite P6. rewrite decide_False by done. rewrite P5, P4. by rewrite decide_True.
    + rewrite P6. by rewrite decide_True.
    + intros u Hu1 Hu2. rewrite P6, P5, P4, P3. by rewrite !decide_False.
  - intros u. by rewrite N6, N5, N4, N3, N2, N1.
  - intros u. by rewrite P6, P5, P4, P3, P2, P1.
  - by eapply same_objects_trans.
Qed.


(** *** Construction and [clear] *)

Lemma hook_contents_nil this m :
  nextf m this = Some this → prevf m this = Some this → contents this m [].
Proof.
  intros Hn Hp. split; [apply NoDup_singleton|]. by split; simpl.
Qed.

Lemma hook_construct_ok this m :
  valid m this →
  ∃ m', construct this m = Ok tt m' ∧ contents this m' [] ∧
    (∀ u, u ≠ this → nextf m' u = nextf m u ∧ prevf m' u = prevf m u) ∧
    same_objects m m'.
Proof.
  intros Hv.
  destruct (hook_store_prev_ok this (Some this) m Hv) as (m1 & E1 & N1 & P1 & S1).
  destruct (hook_store_next_ok this (Some this) m1) as (m2 & E2 & N2 & P2 & S2);
    [by eapply same_objects_valid|].
  exists m2. split_and!.
  - unfold construct. by exec_step E1.
  - apply hook_contents_nil.
    + rewrite N2. by rewrite decide_True.
    + rewrite P2, P1. by rewrite decide_True.
  - intros u Hu. rewrite N2, P2, N1, P1. by rewrite !decide_False.
  - by eapply same_objects_trans.
Qed.

Lemma empty_ok this m b :
  nextf m this = Some b → empty this m = Ok (bool_decide (b = this)) m.
Proof.
  intros Hn. unfold empty. exec_step (hook_load_next_ok _ _ _ Hn).
  unfold mret, M_ret, ret. f_equal. apply bool_decide_ext. naive_solver.
Qed.

Lemma unlinked_frame m m' u :
  same_objects m m' → nextf m' u = nextf m u → prevf m' u = prevf m u →
  unlinked m u → unlinked m' u.
Proof.
  intros Hs Hn Hp (Hv & Hp0 & Hn0). split_and!.
  - by eapply same_objects_valid.
  - by rewrite Hp.
  - by rewrite Hn.
Qed.

Lemma hook_clear_ok this l : ∀ m fuel,
  contents this m l → length l ≤ fuel →
  ∃ m', clear fuel this m = Ok tt m' ∧ contents this m' [] ∧
    (∀ u, u ∈ l → unlinked m' u) ∧
    (∀ u, u ∉ this :: l → nextf m' u = nextf m u ∧ prevf m' u = prevf m u) ∧
    same_objects m m'.
Proof.
  induction l as [|x l IH]; intros m fuel Hr Hlen.
  - exists m. split_and!.
    + pose proof (Ring.ring_next_pos _ _ _ [] [] Hr) as Hn. simpl in Hn.
      destruct fuel; simpl; exec_step (empty_ok _ _ _ Hn);
        by rewrite bool_decide_true.
    + done.
    + intros u Hu. set_solver.
    + done.
    + apply same_objects_refl.
  - simpl in Hlen. destruct fuel as [|fuel]; [lia|].
    pose proof (Ring.ring_NoDup _ _ _ _ Hr) as Hnd.
    pose proof (Ring.ring_next_pos _ _ _ [] (x :: l) Hr) as Hn. simpl in Hn.
    rewrite Ring.lastd_nil in Hn.
    assert (Hxt : x ≠ this) by (intros ->; list_solver).
    destruct (remove_ok this m [] x l Hr) as (m1 & E1 & Hr1 & Hu1 & N1 & P1 & S1).
    simpl in Hr1. rewrite Ring.lastd_nil in N1, P1.
    destruct (IH m1 fuel Hr1) as (m' & E2 & Hr' & Hul & Hfr & S'); [lia|].
    assert (Hxl : x ∉ this :: l) by list_solver.
    exists m'. split_and!.
    + simpl. exec_step (empty_ok _ _ _ Hn). rewrite bool_decide_false by done.
      unfold front. exec_step (hook_load_next_ok _ _ _ Hn). by exec_step E1.
    + done.
    + intros u [->|Hu]%elem_of_cons; [|by apply Hul].
      destruct (Hfr x Hxl) as [Hn' Hp']. by apply (unlinked_frame m1).
    + intros u Hu. destruct (Hfr u) as [-> ->]; [set_solver|].
      rewrite N1, P1.
      pose proof (Ring.hd_elem this l) as Hh.
      rewrite !decide_False; [done|..]; intros ->; set_solver.
    + by eapply same_objects_trans.
Qed.

(** *** Traversal *)

Lemma hooks_from_ok this m (ld : ptr → M (gmap nat (object E)) ptr) (vf : nat → option nat)
    (loop : nat → nat → ptr → M (gmap nat (object E)) (list nat)) :
  (∀ a b, vf a = Some b → ld (Some a) m = Ok (Some b) m) →
  (∀ fuel a, loop fuel this (Some a) =
     if decide (a = this) then mret []
     else match fuel with
          | O => out_of_fuel
          | S fuel' => nx ← ld (Some a); hs ← loop fuel' this nx; mret (a :: hs)
          end) →
  ∀ l fuel,
  this ∉ l → length l ≤ fuel →
  Ring.walk vf (hd this l) (tl (l ++ [this])) →
  loop fuel this (Some (hd this l)) m = Ok l m.
Proof.
  intros Hld Hloop.
  induction l as [|x l IH]; intros fuel Hs Hlen Hw; rewrite Hloop.
  - simpl. by rewrite decide_True.
  - change (hd this (x :: l)) with x.
    rewrite decide_False by (intros ->; set_solver).
    simpl in Hlen, Hw. destruct fuel as [|fuel]; [lia|].
    assert (Hx : vf x = Some (hd this l) ∧ Ring.walk vf (hd this l) (tl (l ++ [this]))).
    { destruct l; simpl in *; tauto. }
    destruct Hx as [Hx Hw'].
    exec_step (Hld _ _ Hx).
    by exec_step (IH fuel ltac:(set_solver) ltac:(lia) Hw').
Qed.

Lemma hook_to_list_ok this m l fuel :
  contents this m l → length l ≤ fuel → to_list fuel this m = Ok l m.
Proof.
  intros (Hnd & Hw & _) Hlen. unfold to_list, front.
  assert (Hfirst : nextf m this = Some (hd this l) ∧
                   Ring.walk (nextf m) (hd this l) (tl (l ++ [this]))).
  { destruct l; simpl in *; tauto. }
  destruct Hfirst as [Hfirst Hw'].
  exec_step (hook_load_next_ok _ _ _ Hfirst).
  apply (hooks_from_ok this m load_next (nextf m) hooks_from); try done.
  - intros a b. apply hook_load_next_ok.
  - by intros [|fuel'] a.
  - by apply NoDup_cons in Hnd as [? _].
Qed.

Lemma hook_to_list_back_ok this m l fuel :
  contents this m l → length l ≤ fuel → to_list_back fuel this m = Ok (reverse l) m.
Proof.
  intros (Hnd & _ & Hw) Hlen. unfold to_list_back, back.
  assert (Hfirst : prevf m this = Some (hd this (reverse l)) ∧
                   Ring.walk (prevf m) (hd this (reverse l))
                     (tl (reverse l ++ [this]))).
  { destruct (reverse l); simpl in *; tauto. }
  destruct Hfirst as [Hfirst Hw'].
  exec_step (hook_load_prev_ok _ _ _ Hfirst).
  apply (hooks_from_ok this m load_prev (prevf m) hooks_back_from); try done.
  - intros a b. apply hook_load_prev_ok.
  - by intros [|fuel'] a.
  - rewrite elem_of_reverse. by apply NoDup_cons in Hnd as [? _].
  - by rewrite length_reverse.
Qed.

Lemma hook_follow_next_ok m k a b :
  Ring.iter_fn (nextf m) k a = Some b →
  follow load_next k (Some a) m = Ok (Some b) m.
Proof.
  revert a. induction k as [|k IH]; intros a; simpl.
  - by intros [= ->].
  - destruct (nextf m a) as [c|] eqn:Hc; [|done]. intros Hk.
    exec_step (hook_load_next_ok _ _ _ Hc). by apply IH.
Qed.

Lemma hook_follow_prev_ok m k a b :
  Ring.iter_fn (prevf m) k a = Some b →
  follow load_prev k (Some a) m = Ok (Some b) m.
Proof.
  revert a. induction k as [|k IH]; intros a; simpl.
  - by intros [= ->].
  - destruct (prevf m a) as [c|] eqn:Hc; [|done]. intros Hk.
    exec_step (hook_load_prev_ok _ _ _ Hc). by apply IH.
Qed.


(** *** Every call within its contract keeps the invariant *)

Lemma list_inv_step this m m' l l' :
  list_inv this m l → contents this m' l' → same_objects m m' →
  (∀ u, u ∉ this :: l → u ∉ this :: l' →
        nextf m' u = nextf m u ∧ prevf m' u = prevf m u) →
  (∀ u, u ∈ l → u ∉ l' → unlinked m' u) →
  list_inv this m' l'.
Proof.
  intros [Hr Hout] Hr' Hs Hfr Hgone. split; [done|].
  intros u Hv Hu.
  destruct (decide (u ∈ this :: l)) as [Hin|Hnin].
  - apply Hgone; set_solver.
  - destruct (Hfr u Hnin Hu) as [Hn Hp].
    apply (unlinked_frame m); [done..|]. apply Hout; [|done].
    by apply Hs.
Qed.

Lemma hook_splice_inv this m l p x :
  list_inv this m l → p ∈ l ++ [this] → valid m x → x ≠ this →
  ∃ m' l', splice this (Some p) (Some x) m = Ok tt m' ∧ list_inv this m' l' ∧
    same_objects m m'.
Proof.
  intros Hinv Hp Hv Hxt.
  destruct (decide (p = x)) as [->|Hne].
  { exists m, l. rewrite hook_splice_self. split_and!; [done..|apply same_objects_refl]. }
  pose proof Hinv as [Hr Hout].
  pose proof (Ring.ring_NoDup _ _ _ _ Hr) as Hnd.
  destruct (decide (x ∈ l)) as [Hx|Hx].
  - apply list_elem_of_split in Hx as (l1 & l2 & ->).
    assert (Hp' : p ∈ (l1 ++ l2) ++ [this]) by set_solver.
    apply Ring.split_at_pos in Hp' as (ra & rb & Hsplit & ->).
    destruct (hook_splice_contents this m l1 x l2 ra rb Hr Hsplit)
      as (m' & E1 & Hr' & N & P & S).
    exists m', (ra ++ x :: rb). split; [done|]. split; [|done].
    apply (list_inv_step this m m' (l1 ++ x :: l2)); try done.
    + intros u Hu Hu'. rewrite N, P.
      pose proof (Ring.lastd_elem this ra) as H1.
      pose proof (Ring.lastd_elem this l1) as H2.
      pose proof (Ring.hd_elem this rb) as H3.
      pose proof (Ring.hd_elem this l2) as H4.
      rewrite !decide_False; [done|..]; intros ->; list_solver.
    + intros u Hu Hu'. exfalso. apply Hu'.
      assert (u ∈ x :: l1 ++ l2) as Hin by set_solver.
      rewrite Hsplit in Hin. set_solver.
  - assert (Hux : unlinked m x) by (apply Hout; set_solver).
    apply Ring.split_at_pos in Hp as (ra & rb & -> & ->).
    destruct (splice_unlinked this m ra rb x Hr Hux) as (m' & E1 & Hr' & N & P & S).
    exists m', (ra ++ x :: rb). split; [done|]. split; [|done].
    apply (list_inv_step this m m' (ra ++ rb)); try done.
    + intros u Hu Hu'. rewrite N, P.
      pose proof (Ring.lastd_elem this ra) as H1.
      pose proof (Ring.hd_elem this rb) as H3.
      rewrite !decide_False; [done|..]; intros ->; list_solver.
    + intros u Hu Hu'. set_solver.
Qed.

Lemma hook_splice_range_inv this m l1 r l2 p :
  list_inv this m (l1 ++ r ++ l2) → p ∈ l1 ++ l2 ++ [this] →
  ∃ m' l',
    splice_range this (Some p) (Some (hd this (r ++ l2))) (Some (hd this l2)) m
      = Ok tt m' ∧
    list_inv this m' l' ∧ same_objects m m'.
Proof.
  intros Hinv Hp.
  destruct (decide (r = [])) as [->|Hne].
  { exists m, (l1 ++ l2). rewrite hook_splice_range_empty.
    split_and!; [done..|apply same_objects_refl]. }
  pose proof Hinv as [Hr Hout].
  rewrite app_assoc in Hp.
  apply Ring.split_at_pos in Hp as (ra & rb & Hsplit & ->).
  destruct (hook_splice_range_contents this m l1 r l2 ra rb Hne Hr Hsplit)
    as (m' & E1 & Hr' & N & P & S).
  exists m', (ra ++ r ++ rb). split.
  { by rewrite Ring.hd_app, (Ring.hd_indep (hd this l2) this r Hne). }
  split; [|done].
  apply (list_inv_step this m m' (l1 ++ r ++ l2)); try done.
  - intros u Hu Hu'. rewrite N, P.
    pose proof (Ring.lastd_elem this ra) as H1.
    pose proof (Ring.lastd_elem this l1) as H2.
    pose proof (Ring.hd_elem this rb) as H3.
    pose proof (Ring.hd_elem this l2) as H4.
    pose proof (Ring.lastd_elem_nonempty this r Hne) as H5.
    pose proof (Ring.hd_elem_nonempty this r Hne) as H6.
    rewrite !decide_False; [done|..]; intros ->; list_solver.
  - intros u Hu Hu'. exfalso. apply Hu'.
    assert (u ∈ r ++ l1 ++ l2) as Hin by set_solver.
    rewrite Hsplit in Hin. set_solver.
Qed.

Lemma hook_run_inv this m l (c : call) :
  list_inv this m l → allowed this m l c →
  ∃ m' l', run this c m = Ok tt m' ∧ list_inv this m' l' ∧ same_objects m m'.
Proof.
  intros Hinv Hc. pose proof Hinv as [Hr Hout].
  destruct c as [h|h|h|pos h|pos first last|fuel]; simpl in Hc.
  - destruct Hc as (x & -> & Hu).
    pose proof (unlinked_fresh _ _ _ _ Hr Hu) as Hx.
    destruct (push_front_ok this m l x Hr) as (m' & E1 & Hr' & Hfr & S);
      [by destruct Hu|done|].
    exists m', (x :: l). split; [done|]. split; [|done].
    apply (list_inv_step this m m' l); try done.
    + intros u Hu1 Hu2. apply Hfr.
      pose proof (Ring.hd_elem this l) as H1. set_solver.
    + intros u Hu1 Hu2. set_solver.
  - destruct Hc as (x & -> & Hu).
    pose proof (unlinked_fresh _ _ _ _ Hr Hu) as Hx.
    destruct (push_back_ok this m l x Hr) as (m' & E1 & Hr' & Hfr & S);
      [by destruct Hu|done|].
    exists m', (l ++ [x]). split; [done|]. split; [|done].
    apply (list_inv_step this m m' l); try done.
    + intros u Hu1 Hu2. apply Hfr.
      pose proof (Ring.lastd_elem this l) as H1. set_solver.
    + intros u Hu1 Hu2. set_solver.
  - destruct Hc as (x & -> & Hv & Hxt).
    destruct (decide (x ∈ l)) as [Hx|Hx].
    + apply list_elem_of_split in Hx as (l1 & l2 & ->).
      destruct (remove_ok this m l1 x l2 Hr) as (m' & E1 & Hr' & Hu' & N & P & S).
      exists m', (l1 ++ l2). split; [done|]. split; [|done].
      pose proof (Ring.ring_NoDup _ _ _ _ Hr) as Hnd.
      apply (list_inv_step this m m' (l1 ++ x :: l2)); try done.
      * intros u Hu1 Hu2. rewrite N, P.
        pose proof (Ring.lastd_elem this l1) as H2.
        pose proof (Ring.hd_elem this l2) as H4.
        rewrite !decide_False; [done|..]; intros ->; list_solver.
      * intros u Hu1 Hu2. assert (u = x) as -> by set_solver. done.
    + assert (Hux : unlinked m x) by (apply Hout; set_solver).
      exists m, l. split; [by apply unlink_unlinked_ok|].
      split; [done|apply same_objects_refl].
  - destruct Hc as (p & x & -> & -> & Hp & Hv & Hxt).
    by apply (hook_splice_inv this m l p x).
  - destruct Hc as (l1 & r & l2 & p & -> & -> & -> & -> & Hp).
    by apply (hook_splice_range_inv this m l1 r l2 p).
  - destruct (hook_clear_ok this l m fuel Hr Hc) as (m' & E1 & Hr' & Hul & Hfr & S).
    exists m', []. split; [done|]. split; [|done].
    apply (list_inv_step this m m' l); [done|done|done| |].
    + intros u Hu1 Hu2. by apply Hfr.
    + intros u Hu1 _. by apply Hul.
Qed.

Lemma hook_reachable_inv this m : reachable this m → ∃ l, list_inv this m l.
Proof.
  induction 1 as [m0 m Hv Hfresh Hc|m l c m' _ IH Hl Hc Hrun].
  - destruct (hook_construct_ok this m0 Hv) as (m1 & E1 & Hr & Hfr & S).
    rewrite E1 in Hc. injection Hc as ->. exists []. split; [done|].
    intros u Hu Hut. destruct (Hfr u) as [Hn Hp]; [set_solver|].
    apply (unlinked_frame m0); [done..|]. apply Hfresh; [by apply S|set_solver].
  - destruct IH as (l0 & Hinv).
    rewrite (Ring.ring_unique _ _ _ _ _ Hl (proj1 Hinv)) in Hc.
    destruct (hook_run_inv this m l0 c Hinv Hc) as (m'' & l' & E1 & Hinv' & _).
    rewrite E1 in Hrun. injection Hrun as ->. eauto.
Qed.


(** Two memories hold the same object at [u] when the object exists in
    both and its links and its other fields agree. *)
Lemma object_ext m m' u :
  (valid m' u ↔ valid m u) →
  nextf m' u = nextf m u → prevf m' u = prevf m u → fieldsf m' u = fieldsf m u →
  m' !! u = m !! u.
Proof.
  unfold valid, nextf, prevf, fieldsf, deref. intros Hv Hn Hp Hf.
  destruct (m !! u) as [o|] eqn:Ho, (m' !! u) as [o'|] eqn:Ho'; simpl in *.
  - destruct o as [[p n]|[p n] e], o' as [[p' n']|[p' n'] e']; simpl in *;
      try discriminate.
    + destruct p, p', n, n'; simpl in *; congruence.
    + injection Hf as ->. destruct p, p', n, n'; simpl in *; congruence.
  - destruct Hv as [_ Hv]. by destruct Hv; [eexists|].
  - destruct Hv as [Hv _]. by destruct Hv; [eexists|].
  - done.
Qed.

End Facts.
End Intrusive.

(** ** Concrete lists used as test inputs *)

Module Examples.
Import Exec.

(** A pool list of capacity 4 (nodes of 24 bytes, an allocator that
    can give the 96 bytes asked for), and the same list after
    [emplace_back(1)], [emplace_back(2)], [emplace_back(3)]. *)
Definition pool4 : Pool.ll_list_pool nat :=
  Eval vm_compute in state_of (Pool.raw_list 4) (Pool.construct 24 96 4).

Definition list123 : Pool.ll_list_pool nat :=
  Eval vm_compute in
    state_of pool4
      ((Pool.emplace_back (Some 1);; Pool.emplace_back (Some 2);;
        Pool.emplace_back (Some 3)) pool4).

(** The list of capacity 4 after [emplace_back(1)] alone. *)
Definition list1 : Pool.ll_list_pool nat :=
  Eval vm_compute in state_of pool4 (Pool.emplace_back (Some 1) pool4).

(** ... and after [emplace_back(1)], [emplace_back(2)]. *)
Definition list12 : Pool.ll_list_pool nat :=
  Eval vm_compute in state_of list1 (Pool.emplace_back (Some 2) list1).

(** The list of capacity 4 after an [emplace_back] whose element
    constructor threw. *)
Definition pool4_lost : Pool.ll_list_pool nat :=
  Eval vm_compute in state_of pool4 (Pool.emplace_back None pool4).

(** ... and after [emplace_back(1)], [emplace_back(2)], [emplace_back(3)]
    on that list. *)
Definition list123_lost : Pool.ll_list_pool nat :=
  Eval vm_compute in
    state_of pool4_lost
      ((Pool.emplace_back (Some 1);; Pool.emplace_back (Some 2);;
        Pool.emplace_back (Some 3)) pool4_lost).

(** A memory with a list object at address 0 and three host objects
    ([intrusive_order]s with ids 10, 20, 30) at addresses 1, 2, 3. *)
Definition fresh_memory : gmap nat (Intrusive.object nat) :=
  <[0 := Intrusive.list_object Intrusive.unlinked_hook]>
    (<[1 := Intrusive.host_object Intrusive.unlinked_hook 10]>
       (<[2 := Intrusive.host_object Intrusive.unlinked_hook 20]>
          (<[3 := Intrusive.host_object Intrusive.unlinked_hook 30]> ∅))).

(** The list at 0 constructed, and then holding the hooks 1 and 2. *)
Definition empty_list : gmap nat (Intrusive.object nat) :=
  state_of fresh_memory (Intrusive.construct 0 fresh_memory).

Definition hooks1 : gmap nat (Intrusive.object nat) :=
  state_of empty_list (Intrusive.push_back 0 (Some 1) empty_list).

Definition hooks12 : gmap nat (Intrusive.object nat) :=
  state_of hooks1 (Intrusive.push_back 0 (Some 2) hooks1).

(** Concrete rings are checked by evaluation. *)
Ltac check_ring :=
  split; [apply (bool_decide_unpack _); vm_compute; exact I
         |split; vm_compute; repeat split].

Lemma pool4_contents : Pool.contents pool4 [].
Proof. check_ring. Qed.

Lemma list123_contents :
  Pool.contents list123 [Pool.Slot 3; Pool.Slot 2; Pool.Slot 1].
Proof. check_ring. Qed.

Lemma empty_list_contents : Intrusive.contents 0 empty_list [].
Proof. check_ring. Qed.

Lemma hooks1_contents : Intrusive.contents 0 hooks1 [1].
Proof. check_ring. Qed.

Lemma hooks12_contents : Intrusive.contents 0 hooks12 [1; 2].
Proof. check_ring. Qed.

Lemma pool4_intact : Pool.intact pool4.
Proof.
  apply (Pool.intact_construct 24 96 4); [reflexivity..|]. vm_compute. reflexivity.
Qed.

Lemma list1_intact : Pool.intact list1.
Proof.
  apply (Pool.intact_return pool4 [] (Pool.EmplaceBack (Some 1))).
  - apply pool4_intact.
  - apply pool4_contents.
  - exact I.
  - exact I.
  - vm_compute. reflexivity.
Qed.

Lemma list123_intact : Pool.intact list123.
Proof.
  apply (Pool.intact_return list12 [Pool.Slot 3; Pool.Slot 2] (Pool.EmplaceBack (Some 3))).
  - apply (Pool.intact_return list1 [Pool.Slot 3] (Pool.EmplaceBack (Some 2))).
    + apply list1_intact.
    + check_ring.
    + exact I.
    + exact I.
    + vm_compute. reflexivity.
  - check_ring.
  - exact I.
  - exact I.
  - vm_compute. reflexivity.
Qed.

Lemma list1_reachable : Pool.reachable list1.
Proof. apply Pool.intact_reachable, list1_intact. Qed.

Lemma list123_reachable : Pool.reachable list123.
Proof. apply Pool.intact_reachable, list123_intact. Qed.

Lemma pool4_lost_reachable : Pool.reachable pool4_lost.
Proof.
  apply (Pool.reach_throw pool4 [] (Pool.EmplaceBack None)).
  - apply Pool.intact_reachable, pool4_intact.
  - apply pool4_contents.
  - exact I.
  - vm_compute. reflexivity.
Qed.

Lemma list123_lost_reachable : Pool.reachable list123_lost.
Proof.
  pose (s1 := state_of pool4_lost (Pool.emplace_back (Some 1) pool4_lost)).
  pose (s2 := state_of s1 (Pool.emplace_back (Some 2) s1)).
  apply (Pool.reach_return s2 [Pool.Slot 2; Pool.Slot 1] (Pool.EmplaceBack (Some 3))).
  - apply (Pool.reach_return s1 [Pool.Slot 2] (Pool.EmplaceBack (Some 2))).
    + apply (Pool.reach_return pool4_lost [] (Pool.EmplaceBack (Some 1))).
      * apply pool4_lost_reachable.
      * check_ring.
      * exact I.
      * vm_compute. reflexivity.
    + check_ring.
    + exact I.
    + vm_compute. reflexivity.
  - check_ring.
  - exact I.
  - vm_compute. reflexivity.
Qed.

Lemma fresh_memory_unlinked u :
  Intrusive.valid fresh_memory u → u ≠ 0 → Intrusive.unlinked fresh_memory u.
Proof.
  intros Hv Hu. split; [done|].
  destruct Hv as [o Ho]. unfold fresh_memory in Ho.
  repeat (rewrite lookup_insert in Ho; case_decide;
          [subst; split; vm_compute; reflexivity|]).
  by rewrite lookup_empty in Ho.
Qed.

Lemma hooks1_reachable : Intrusive.reachable 0 hooks1.
Proof.
  apply (Intrusive.reach_return 0 empty_list [] (Intrusive.PushBack (Some 1))).
  - apply (Intrusive.reach_construct 0 fresh_memory).
    + vm_compute. eauto.
    + apply fresh_memory_unlinked.
    + vm_compute. reflexivity.
  - apply empty_list_contents.
  - exists 1. split; [done|]. split; [|split]; vm_compute; eauto.
  - vm_compute. reflexivity.
Qed.

End Examples.

(** ** The properties of the specification *)

Import Exec.

Lemma filter_without_middle {A} `{!EqDecision A} (x : A) (l1 l2 : list A) :
  filter (.≠ x) (l1 ++ x :: l2) = filter (.≠ x) (l1 ++ l2).
Proof.
  rewrite !filter_app, filter_cons_False; [done|]. by intros ?.
Qed.

(** C1, pool part, as amended: the destination is neither [X] nor the
    successor [B] of [X]. *)
Lemma pool_splice_correct {T} (st : Pool.ll_list_pool T) l x A B p C :
  Pool.contents st l → x ∈ l → p ∈ l ++ [Pool.Sentinel] →
  Pool.prevf st x = Some A → Pool.nextf st x = Some B → A ≠ B →
  Pool.prevf st p = Some C →
  p ≠ x → p ≠ B →
  ∃ st' l', Pool.splice (Some p) (Some x) st = Ok tt st' ∧
    Pool.nextf st' A = Some B ∧ Pool.prevf st' x = Some C ∧
    Pool.nextf st' x = Some p ∧ Pool.prevf st' p = Some x ∧
    Pool.contents st' l' ∧ filter (.≠ x) l' = filter (.≠ x) l.
Proof.
  intros Hr Hx Hp HA HB _ HC Hpx HpB.
  apply list_elem_of_split in Hx as (l1 & l2 & ->).
  rewrite (Pool.contents_prev_at _ _ _ _ Hr) in HA. injection HA as <-.
  rewrite (Pool.contents_next_at _ _ _ _ Hr) in HB. injection HB as <-.
  assert (Hp' : p ∈ (l1 ++ l2) ++ [Pool.Sentinel]) by set_solver.
  apply Ring.split_at_pos in Hp' as (ra & rb & Hsplit & ->).
  destruct (Pool.splice_contents st l1 x l2 ra rb Hr Hsplit)
    as (st' & E & Hr' & N & P & _).
  destruct (Ring.splice_links _ _ _ _ _ _ _ _ _ _ C Hr Hsplit HpB HC N P)
    as (H1 & H2 & H3 & H4).
  exists st', (ra ++ x :: rb). split_and!; try done.
  by rewrite !filter_without_middle, Hsplit.
Qed.

(** C1, intrusive part, as amended. *)
Lemma intrusive_splice_correct {E} this (m : gmap nat (Intrusive.object E)) l x A B p C :
  Intrusive.contents this m l → x ∈ l → p ∈ l ++ [this] →
  Intrusive.prevf m x = Some A → Intrusive.nextf m x = Some B → A ≠ B →
  Intrusive.prevf m p = Some C →
  p ≠ x → p ≠ B →
  ∃ m' l', Intrusive.splice this (Some p) (Some x) m = Ok tt m' ∧
    Intrusive.nextf m' A = Some B ∧ Intrusive.prevf m' x = Some C ∧
    Intrusive.nextf m' x = Some p ∧ Intrusive.prevf m' p = Some x ∧
    Intrusive.contents this m' l' ∧ filter (.≠ x) l' = filter (.≠ x) l.
Proof.
  intros Hr Hx Hp HA HB _ HC Hpx HpB.
  apply list_elem_of_split in Hx as (l1 & l2 & ->).
  rewrite (Intrusive.hook_contents_prev_at _ _ _ _ _ Hr) in HA. injection HA as <-.
  rewrite (Intrusive.hook_contents_next_at _ _ _ _ _ Hr) in HB. injection HB as <-.
  assert (Hp' : p ∈ (l1 ++ l2) ++ [this]) by set_solver.
  apply Ring.split_at_pos in Hp' as (ra & rb & Hsplit & ->).
  destruct (Intrusive.hook_splice_contents this m l1 x l2 ra rb Hr Hsplit)
    as (m' & E1 & Hr' & N & P & _).
  destruct (Ring.splice_links _ _ _ _ _ _ _ _ _ _ C Hr Hsplit HpB HC N P)
    as (H1 & H2 & H3 & H4).
  exists m', (ra ++ x :: rb). split_and!; try done.
  by rewrite !filter_without_middle, Hsplit.
Qed.

(** C1 (as amended): in a list of either variant, let the node X be
    linked between distinct neighbours A and B, and let P be a position
    (a node of the list or [end()]) whose predecessor is C, where P is
    neither X itself nor X's successor B.  Then [splice(P, X)] returns and
    leaves [A.next == B], [X.prev == C], [X.next == P], [P.prev == X],
    and the order of the nodes other than X is what it was. *)
Theorem C1_splice_relinks :
  (∀ (T : Type) (st : Pool.ll_list_pool T) l x A B p C,
     Pool.contents st l → x ∈ l → p ∈ l ++ [Pool.Sentinel] →
     Pool.prevf st x = Some A → Pool.nextf st x = Some B → A ≠ B →
     Pool.prevf st p = Some C →
     p ≠ x → p ≠ B →
     ∃ st' l', Pool.splice (Some p) (Some x) st = Ok tt st' ∧
       Pool.nextf st' A = Some B ∧ Pool.prevf st' x = Some C ∧
       Pool.nextf st' x = Some p ∧ Pool.prevf st' p = Some x ∧
       Pool.contents st' l' ∧ filter (.≠ x) l' = filter (.≠ x) l) ∧
  (∀ (E : Type) this (m : gmap nat (Intrusive.object E)) l x A B p C,
     Intrusive.contents this m l → x ∈ l → p ∈ l ++ [this] →
     Intrusive.prevf m x = Some A → Intrusive.nextf m x = Some B → A ≠ B →
     Intrusive.prevf m p = Some C →
     p ≠ x → p ≠ B →
     ∃ m' l', Intrusive.splice this (Some p) (Some x) m = Ok tt m' ∧
       Intrusive.nextf m' A = Some B ∧ Intrusive.prevf m' x = Some C ∧
       Intrusive.nextf m' x = Some p ∧ Intrusive.prevf m' p = Some x ∧
       Intrusive.contents this m' l' ∧ filter (.≠ x) l' = filter (.≠ x) l).
Proof.
  split.
  - intros T. apply pool_splice_correct.
  - intros E. apply intrusive_splice_correct.
Qed.

(** Moving the last node of [1, 2, 3] to the front, and the last hook of
    [1, 2] to the front. *)
Lemma C1_splice_relinks_witness :
  (∃ st' l', Pool.splice (Some (Pool.Slot 3)) (Some (Pool.Slot 1)) Examples.list123
               = Ok tt st' ∧
     Pool.nextf st' (Pool.Slot 2) = Some Pool.Sentinel ∧
     Pool.contents st' l') ∧
  (∃ m' l', Intrusive.splice 0 (Some 1) (Some 2) Examples.hooks12 = Ok tt m' ∧
     Intrusive.nextf m' 1 = Some 0 ∧
     Intrusive.contents 0 m' l').
Proof.
  destruct C1_splice_relinks as [Hpool Hintr]. split.
  - destruct (Hpool nat Examples.list123 [Pool.Slot 3; Pool.Slot 2; Pool.Slot 1]
                (Pool.Slot 1) (Pool.Slot 2) Pool.Sentinel (Pool.Slot 3) Pool.Sentinel)
      as (st' & l' & E & H1 & _ & _ & _ & Hr & _).
    + apply Examples.list123_contents.
    + apply (bool_decide_unpack _). vm_compute. exact I.
    + apply (bool_decide_unpack _). vm_compute. exact I.
    + reflexivity.
    + reflexivity.
    + discriminate.
    + reflexivity.
    + discriminate.
    + discriminate.
    + exists st', l'. split_and!; assumption.
  - destruct (Hintr nat 0 Examples.hooks12 [1; 2] 2 1 0 1 0)
      as (m' & l' & E & H1 & _ & _ & _ & Hr & _).
    + apply Examples.hooks12_contents.
    + apply (bool_decide_unpack _). vm_compute. exact I.
    + apply (bool_decide_unpack _). vm_compute. exact I.
    + reflexivity.
    + reflexivity.
    + discriminate.
    + reflexivity.
    + discriminate.
    + discriminate.
    + exists m', l'. split_and!; assumption.
Defined.

(** The claim as stated fails when the destination is X's own successor:
    in the list [1, 2, 3], with X the node of 2 (between A, the node of 1,
    and B, the node of 3) and P = B (so that C = X), [splice(P, X)] leaves
    X where it was: [A.next] is X, not B, and [X.prev] is A, not C. *)
Lemma C1_counterexample :
  let st := Examples.list123 in
  let A := Pool.Slot 3 in
  let X := Pool.Slot 2 in
  let B := Pool.Slot 1 in
  let P := Pool.Slot 1 in
  let C := Pool.Slot 2 in
  (Pool.contents st [A; X; B] ∧
   Pool.prevf st X = Some A ∧ Pool.nextf st X = Some B ∧ A ≠ B ∧
   Pool.prevf st P = Some C) ∧
  ¬ (∃ st' l', Pool.splice (Some P) (Some X) st = Ok tt st' ∧
       Pool.nextf st' A = Some B ∧ Pool.prevf st' X = Some C ∧
       Pool.nextf st' X = Some P ∧ Pool.prevf st' P = Some X ∧
       Pool.contents st' l' ∧ filter (.≠ X) l' = filter (.≠ X) [A; X; B]).
Proof.
  split.
  - split; [apply Examples.list123_contents|]. by vm_compute.
  - intros (st' & l' & E & H1 & _).
    vm_compute in E. injection E as <-. vm_compute in H1. discriminate.
Qed.

(** C6: [splice(pos, pos)] on the pool-backed list and
    [splice(hook, hook)] on the intrusive list return without changing
    anything: the state after the call is the state before it. *)
Theorem C6_splice_self_noop :
  (∀ (T : Type) (st : Pool.ll_list_pool T) (pos : Pool.iterator),
     Pool.splice pos pos st = Ok tt st) ∧
  (∀ (E : Type) this (m : gmap nat (Intrusive.object E)) (hook : Intrusive.ptr),
     Intrusive.splice this hook hook m = Ok tt m).
Proof.
  split.
  - intros T st pos. apply Pool.splice_self.
  - intros E this m hook. apply Intrusive.hook_splice_self.
Qed.

(** The constructor of a list of capacity 4, wherever its storage
    request neither wraps nor is refused. *)
Lemma pool4_constructed (sizeof_node avail : N) :
  (0 < sizeof_node)%N → (sizeof_node * 4 < Pool.size_max)%N →
  (sizeof_node * 4 ≤ avail)%N →
  Pool.construct (T:=nat) sizeof_node avail 4 = Ok tt Examples.pool4.
Proof.
  intros Hs Hw Ha. unfold Pool.construct.
  rewrite (bind_Ok _ _ _ _ _ (Pool.alloc_slab_ok _ _ _ Hs Hw Ha)).
  vm_compute. reflexivity.
Qed.

(** C7: on a pool list of capacity 4 (whatever the size of a node, as
    long as the allocator gives the storage for four of them), the calls
    [emplace_back(1)], [emplace_back(2)], [emplace_back(3)] give the
    forward traversal [1, 2, 3], and then [splice(begin(), --end())]
    gives [3, 1, 2]. *)
Theorem C7_worked_example :
  ∀ sizeof_node avail : N,
    (0 < sizeof_node)%N → (sizeof_node * 4 < Pool.size_max)%N →
    (sizeof_node * 4 ≤ avail)%N →
    ∃ st0 st1 st2 last,
      Pool.construct sizeof_node avail 4 = Ok tt st0 ∧
      (Pool.emplace_back (Some 1);; Pool.emplace_back (Some 2);;
       Pool.emplace_back (Some 3);; mret tt) st0 = Ok tt st1 ∧
      Pool.to_list 4 st1 = Ok [1; 2; 3] st1 ∧
      Pool.iter_decr (Pool.end_ st1) st1 = Ok last st1 ∧
      Pool.splice (Pool.begin_ st1) last st1 = Ok tt st2 ∧
      Pool.to_list 4 st2 = Ok [3; 1; 2] st2.
Proof.
  intros sizeof_node avail Hs Hw Ha.
  eexists _, _, _, _. split; [by apply pool4_constructed|].
  split_and!; vm_compute; reflexivity.
Qed.

(** Nodes of 24 bytes (two pointers and an [int], padded), an allocator
    with room for exactly four of them. *)
Lemma C7_worked_example_witness :
  ∃ st0 st1 st2 last,
    Pool.construct 24 96 4 = Ok tt st0 ∧
    (Pool.emplace_back (Some 1);; Pool.emplace_back (Some 2);;
     Pool.emplace_back (Some 3);; mret tt) st0 = Ok tt st1 ∧
    Pool.to_list 4 st1 = Ok [1; 2; 3] st1 ∧
    Pool.iter_decr (Pool.end_ st1) st1 = Ok last st1 ∧
    Pool.splice (Pool.begin_ st1) last st1 = Ok tt st2 ∧
    Pool.to_list 4 st2 = Ok [3; 1; 2] st2.
Proof.
  apply (C7_worked_example 24 96); [reflexivity|reflexivity|lia].
Defined.

(** C9: [remove(h)] on a hook whose two link fields are null returns
    and changes nothing, in [h] or anywhere else. *)
Theorem C9_remove_unlinked_noop :
  ∀ (E : Type) this (m : gmap nat (Intrusive.object E)) (h : nat),
    Intrusive.unlinked m h → Intrusive.remove this (Some h) m = Ok tt m.
Proof.
  intros E this m h Hu. by apply Intrusive.unlink_unlinked_ok.
Qed.

(** Removing the hook 3, which was never linked, from the memory in which
    the list holds 1 and 2. *)
Lemma C9_remove_unlinked_noop_witness :
  Intrusive.unlinked Examples.hooks12 3 ∧
  Intrusive.remove 0 (Some 3) Examples.hooks12 = Ok tt Examples.hooks12.
Proof.
  assert (Intrusive.unlinked Examples.hooks12 3) as Hu.
  { split; [|split]; vm_compute; eauto. }
  split; [exact Hu|]. exact (C9_remove_unlinked_noop nat 0 Examples.hooks12 3 Hu).
Defined.




(** The ring as the traversals see it, pool variant. *)
Lemma pool_ring_walks {T} (st : Pool.ll_list_pool T) l vs :
  Pool.contents st l → Pool.values st l vs →
  let n := length l in
  Pool.follow Pool.load_next (S n) (Some Pool.Sentinel) st = Ok (Some Pool.Sentinel) st ∧
  (∀ k, k < n → ∃ q, Pool.follow Pool.load_next (S k) (Some Pool.Sentinel) st
                       = Ok (Some q) st ∧ q ≠ Pool.Sentinel) ∧
  Pool.follow Pool.load_prev (S n) (Some Pool.Sentinel) st = Ok (Some Pool.Sentinel) st ∧
  (∀ k, k < n → ∃ q, Pool.follow Pool.load_prev (S k) (Some Pool.Sentinel) st
                       = Ok (Some q) st ∧ q ≠ Pool.Sentinel) ∧
  (∀ fuel, n ≤ fuel →
     Pool.to_list fuel st = Ok vs st ∧ length vs = n ∧
     Pool.to_list_back fuel st = Ok (reverse vs) st).
Proof.
  intros Hr Hvs n.
  pose proof (Ring.ring_NoDup _ _ _ _ Hr) as Hnd.
  destruct (Ring.ring_iter _ _ _ _ Hr) as (Hn1 & _ & Hn3).
  apply Ring.ring_reverse in Hr as Hr'.
  destruct (Ring.ring_iter _ _ _ _ Hr') as (Hp1 & _ & Hp3).
  rewrite length_reverse in Hp1.
  split_and!.
  - by apply Pool.follow_next_ok.
  - intros k Hk. destruct (lookup_lt_is_Some_2 l k Hk) as [q Hq].
    exists q. split; [by apply Pool.follow_next_ok, Hn3|].
    intros ->. apply list_elem_of_lookup_2 in Hq. nodup_solver.
  - by apply Pool.follow_prev_ok.
  - intros k Hk.
    destruct (lookup_lt_is_Some_2 (reverse l) k) as [q Hq];
      [by rewrite length_reverse|].
    exists q. split; [by apply Pool.follow_prev_ok, Hp3|].
    intros ->. apply list_elem_of_lookup_2, elem_of_reverse in Hq. nodup_solver.
  - intros fuel Hfuel. split_and!.
    + by apply (Pool.to_list_ok st l).
    + symmetry. by apply Forall2_length in Hvs.
    + by apply (Pool.to_list_back_ok st l).
Qed.

(** The ring as the traversals see it, intrusive variant. *)
Lemma intrusive_ring_walks {E} this (m : gmap nat (Intrusive.object E)) l :
  Intrusive.contents this m l →
  let n := length l in
  Intrusive.follow Intrusive.load_next (S n) (Some this) m = Ok (Some this) m ∧
  (∀ k, k < n → ∃ q, Intrusive.follow Intrusive.load_next (S k) (Some this) m
                       = Ok (Some q) m ∧ q ≠ this) ∧
  Intrusive.follow Intrusive.load_prev (S n) (Some this) m = Ok (Some this) m ∧
  (∀ k, k < n → ∃ q, Intrusive.follow Intrusive.load_prev (S k) (Some this) m
                       = Ok (Some q) m ∧ q ≠ this) ∧
  (∀ fuel, n ≤ fuel →
     Intrusive.to_list fuel this m = Ok l m ∧
     Intrusive.to_list_back fuel this m = Ok (reverse l) m).
Proof.
  intros Hr n.
  pose proof (Ring.ring_NoDup _ _ _ _ Hr) as Hnd.
  destruct (Ring.ring_iter _ _ _ _ Hr) as (Hn1 & _ & Hn3).
  apply Ring.ring_reverse in Hr as Hr'.
  destruct (Ring.ring_iter _ _ _ _ Hr') as (Hp1 & _ & Hp3).
  rewrite length_reverse in Hp1.
  split_and!.
  - by apply Intrusive.hook_follow_next_ok.
  - intros k Hk. destruct (lookup_lt_is_Some_2 l k Hk) as [q Hq].
    exists q. split; [by apply Intrusive.hook_follow_next_ok, Hn3|].
    intros ->. apply list_elem_of_lookup_2 in Hq. nodup_solver.
  - by apply Intrusive.hook_follow_prev_ok.
  - intros k Hk.
    destruct (lookup_lt_is_Some_2 (reverse l) k) as [q Hq];
      [by rewrite length_reverse|].
    exists q. split; [by apply Intrusive.hook_follow_prev_ok, Hp3|].
    intros ->. apply list_elem_of_lookup_2, elem_of_reverse in Hq. nodup_solver.
  - intros fuel Hfuel. split.
    + by apply Intrusive.hook_to_list_ok.
    + by apply Intrusive.hook_to_list_back_ok.
Qed.

(** C3: in every state a list of either variant can reach (constructed,
    then any sequence of emplace/push, erase/remove, splice and clear calls
    made within their contracts), following [next] from the sentinel comes
    back to the sentinel after exactly size + 1 steps and not before, and
    so does following [prev]; the forward traversal from [begin()] to
    [end()] and the backward traversal from the last element to [end()]
    both terminate and visit size() elements, the second in the reverse
    order of the first.  The intrusive list keeps no counter: its size is
    the number of hooks it holds. *)
Theorem C3_ring_invariant :
  (∀ (T : Type) (st : Pool.ll_list_pool T),
     Pool.reachable st →
     let n := N.to_nat (Pool.size st) in
     Pool.follow Pool.load_next (S n) (Some Pool.Sentinel) st
       = Ok (Some Pool.Sentinel) st ∧
     (∀ k, k < n → ∃ q, Pool.follow Pool.load_next (S k) (Some Pool.Sentinel) st
                          = Ok (Some q) st ∧ q ≠ Pool.Sentinel) ∧
     Pool.follow Pool.load_prev (S n) (Some Pool.Sentinel) st
       = Ok (Some Pool.Sentinel) st ∧
     (∀ k, k < n → ∃ q, Pool.follow Pool.load_prev (S k) (Some Pool.Sentinel) st
                          = Ok (Some q) st ∧ q ≠ Pool.Sentinel) ∧
     ∃ vs, ∀ fuel, n ≤ fuel →
       Pool.to_list fuel st = Ok vs st ∧ length vs = n ∧
       Pool.to_list_back fuel st = Ok (reverse vs) st) ∧
  (∀ (E : Type) this (m : gmap nat (Intrusive.object E)),
     Intrusive.reachable this m →
     ∃ l, let n := length l in
       Intrusive.follow Intrusive.load_next (S n) (Some this) m = Ok (Some this) m ∧
       (∀ k, k < n → ∃ q, Intrusive.follow Intrusive.load_next (S k) (Some this) m
                            = Ok (Some q) m ∧ q ≠ this) ∧
       Intrusive.follow Intrusive.load_prev (S n) (Some this) m = Ok (Some this) m ∧
       (∀ k, k < n → ∃ q, Intrusive.follow Intrusive.load_prev (S k) (Some this) m
                            = Ok (Some q) m ∧ q ≠ this) ∧
       ∀ fuel, n ≤ fuel →
         Intrusive.to_list fuel this m = Ok l m ∧
         Intrusive.to_list_back fuel this m = Ok (reverse l) m).
Proof.
  split.
  - intros T st Hreach n.
    destruct (Pool.reachable_inv st Hreach) as (lost & l & fl & Hinv).
    destruct (Pool.values_exist st l (Pool.inv_live _ _ _ Hinv)) as [vs Hvs].
    assert (n = length l) as ->.
    { unfold n, Pool.size. rewrite (Pool.inv_size _ _ _ Hinv). lia. }
    destruct (pool_ring_walks st l vs (Pool.inv_ring _ _ _ Hinv) Hvs)
      as (H1 & H2 & H3 & H4 & H5).
    split_and!; try done. by exists vs.
  - intros E this m Hreach.
    destruct (Intrusive.hook_reachable_inv this m Hreach) as (l & Hr & _).
    exists l. by apply intrusive_ring_walks.
Qed.

(** The pool list after [emplace_back(1)], the intrusive list after
    [push_back] of hook 1. *)
Lemma C3_ring_invariant_witness :
  Pool.follow Pool.load_next 2 (Some Pool.Sentinel) Examples.list1
    = Ok (Some Pool.Sentinel) Examples.list1 ∧
  (∃ l, Intrusive.to_list (length l) 0 Examples.hooks1 = Ok l Examples.hooks1).
Proof.
  destruct C3_ring_invariant as [Hpool Hintr]. split.
  - destruct (Hpool nat Examples.list1 Examples.list1_reachable) as (H1 & _).
    exact H1.
  - destruct (Hintr nat 0 Examples.hooks1 Examples.hooks1_reachable)
      as (l & _ & _ & _ & _ & H5).
    exists l. apply (H5 (length l)). apply Nat.le_refl.
Defined.

(** C4, pool part. *)
Lemma pool_range_splice {T} (st : Pool.ll_list_pool T) l1 r l2 ra rb :
  Pool.contents st (l1 ++ r ++ l2) → l1 ++ l2 = ra ++ rb →
  ∃ st',
    Pool.splice_range (Some (hd Pool.Sentinel rb))
      (Some (hd Pool.Sentinel (r ++ l2))) (Some (hd Pool.Sentinel l2)) st = Ok tt st' ∧
    Pool.contents st' (ra ++ r ++ rb) ∧
    (∀ u, u ∉ [Ring.lastd Pool.Sentinel l1; Ring.lastd Pool.Sentinel ra;
               Ring.lastd Pool.Sentinel r] →
          Pool.nextf st' u = Pool.nextf st u) ∧
    (∀ u, u ∉ [hd Pool.Sentinel l2; hd Pool.Sentinel rb; hd Pool.Sentinel r] →
          Pool.prevf st' u = Pool.prevf st u) ∧
    (∀ u, u ∈ r → u ≠ Ring.lastd Pool.Sentinel r → Pool.nextf st' u = Pool.nextf st u) ∧
    (∀ u, u ∈ r → u ≠ hd Pool.Sentinel r → Pool.prevf st' u = Pool.prevf st u) ∧
    (∀ u, Pool.valuef st' u = Pool.valuef st u) ∧
    Pool.size st' = Pool.size st ∧
    (r = [] → st' = st).
Proof.
  intros Hr Hsplit.
  destruct (decide (r = [])) as [->|Hne].
  - exists st. rewrite Pool.splice_range_empty.
    split_and!; try done. simpl in *. by rewrite <- Hsplit.
  - destruct (Pool.splice_range_contents st l1 r l2 ra rb Hne Hr Hsplit)
      as (st' & E & Hr' & N & P & V & S).
    exists st'. split_and!; try done.
    + by rewrite Ring.hd_app, (Ring.hd_indep (hd Pool.Sentinel l2) Pool.Sentinel r Hne).
    + intros u Hu. rewrite N. rewrite !decide_False; [done|..]; set_solver.
    + intros u Hu. rewrite P. rewrite !decide_False; [done|..]; set_solver.
    + intros u Hu Hut. rewrite N.
      destruct (Ring.ring_move_fresh _ _ _ _ _ _ _ _ u Hr Hsplit Hu) as (?&?&?&?&?).
      by rewrite !decide_False.
    + intros u Hu Hua. rewrite P.
      destruct (Ring.ring_move_fresh _ _ _ _ _ _ _ _ u Hr Hsplit Hu) as (?&?&?&?&?).
      by rewrite !decide_False.
    + by destruct S as (_ & _ & ? & _).
Qed.

(** C4, intrusive part. *)
Lemma intrusive_range_splice {E} this (m : gmap nat (Intrusive.object E)) l1 r l2 ra rb :
  Intrusive.contents this m (l1 ++ r ++ l2) → l1 ++ l2 = ra ++ rb →
  ∃ m',
    Intrusive.splice_range this (Some (hd this rb))
      (Some (hd this (r ++ l2))) (Some (hd this l2)) m = Ok tt m' ∧
    Intrusive.contents this m' (ra ++ r ++ rb) ∧
    (∀ u, u ∉ [Ring.lastd this l1; Ring.lastd this ra; Ring.lastd this r] →
          Intrusive.nextf m' u = Intrusive.nextf m u) ∧
    (∀ u, u ∉ [hd this l2; hd this rb; hd this r] →
          Intrusive.prevf m' u = Intrusive.prevf m u) ∧
    (∀ u, u ∈ r → u ≠ Ring.lastd this r → Intrusive.nextf m' u = Intrusive.nextf m u) ∧
    (∀ u, u ∈ r → u ≠ hd this r → Intrusive.prevf m' u = Intrusive.prevf m u) ∧
    (∀ u, Intrusive.fieldsf m' u = Intrusive.fieldsf m u) ∧
    (r = [] → m' = m).
Proof.
  intros Hr Hsplit.
  destruct (decide (r = [])) as [->|Hne].
  - exists m. rewrite Intrusive.hook_splice_range_empty.
    split_and!; try done. simpl in *. by rewrite <- Hsplit.
  - destruct (Intrusive.hook_splice_range_contents this m l1 r l2 ra rb Hne Hr Hsplit)
      as (m' & E1 & Hr' & N & P & S).
    exists m'. split_and!; try done.
    + by rewrite Ring.hd_app, (Ring.hd_indep (hd this l2) this r Hne).
    + intros u Hu. rewrite N. rewrite !decide_False; [done|..]; set_solver.
    + intros u Hu. rewrite P. rewrite !decide_False; [done|..]; set_solver.
    + intros u Hu Hut. rewrite N.
      destruct (Ring.ring_move_fresh _ _ _ _ _ _ _ _ u Hr Hsplit Hu) as (?&?&?&?&?).
      by rewrite !decide_False.
    + intros u Hu Hua. rewrite P.
      destruct (Ring.ring_move_fresh _ _ _ _ _ _ _ _ u Hr Hsplit Hu) as (?&?&?&?&?).
      by rewrite !decide_False.
    + by destruct S.
Qed.

(** C4: let a list of either variant hold [l1 ++ r ++ l2], let
    [first, last) be the run [r] (of any length) and let [pos] be a
    position outside it, splitting the other elements into [ra] before it
    and [rb] from it on.  Then [splice(pos, first, last)] returns and the
    list holds [ra ++ r ++ rb]: the run sits immediately before [pos], in
    its own order.  The call writes no [next] field other than those of
    the old predecessor of the run, of the new predecessor and of the last
    node of the run, and no [prev] field other than those of the old
    successor of the run, of [pos] and of the first node of the run; so
    every link between two nodes of the run is as it was, and no value or
    host field is touched.  When [first == last] nothing changes at all. *)
Theorem C4_range_splice :
  (∀ (T : Type) (st : Pool.ll_list_pool T) l1 r l2 ra rb,
     Pool.contents st (l1 ++ r ++ l2) → l1 ++ l2 = ra ++ rb →
     ∃ st',
       Pool.splice_range (Some (hd Pool.Sentinel rb))
         (Some (hd Pool.Sentinel (r ++ l2))) (Some (hd Pool.Sentinel l2)) st
         = Ok tt st' ∧
       Pool.contents st' (ra ++ r ++ rb) ∧
       (∀ u, u ∉ [Ring.lastd Pool.Sentinel l1; Ring.lastd Pool.Sentinel ra;
                  Ring.lastd Pool.Sentinel r] →
             Pool.nextf st' u = Pool.nextf st u) ∧
       (∀ u, u ∉ [hd Pool.Sentinel l2; hd Pool.Sentinel rb; hd Pool.Sentinel r] →
             Pool.prevf st' u = Pool.prevf st u) ∧
       (∀ u, u ∈ r → u ≠ Ring.lastd Pool.Sentinel r →
             Pool.nextf st' u = Pool.nextf st u) ∧
       (∀ u, u ∈ r → u ≠ hd Pool.Sentinel r →
             Pool.prevf st' u = Pool.prevf st u) ∧
       (∀ u, Pool.valuef st' u = Pool.valuef st u) ∧
       Pool.size st' = Pool.size st ∧
       (r = [] → st' = st)) ∧
  (∀ (E : Type) this (m : gmap nat (Intrusive.object E)) l1 r l2 ra rb,
     Intrusive.contents this m (l1 ++ r ++ l2) → l1 ++ l2 = ra ++ rb →
     ∃ m',
       Intrusive.splice_range this (Some (hd this rb))
         (Some (hd this (r ++ l2))) (Some (hd this l2)) m = Ok tt m' ∧
       Intrusive.contents this m' (ra ++ r ++ rb) ∧
       (∀ u, u ∉ [Ring.lastd this l1; Ring.lastd this ra; Ring.lastd this r] →
             Intrusive.nextf m' u = Intrusive.nextf m u) ∧
       (∀ u, u ∉ [hd this l2; hd this rb; hd this r] →
             Intrusive.prevf m' u = Intrusive.prevf m u) ∧
       (∀ u, u ∈ r → u ≠ Ring.lastd this r →
             Intrusive.nextf m' u = Intrusive.nextf m u) ∧
       (∀ u, u ∈ r → u ≠ hd this r →
             Intrusive.prevf m' u = Intrusive.prevf m u) ∧
       (∀ u, Intrusive.fieldsf m' u = Intrusive.fieldsf m u) ∧
       (r = [] → m' = m)).
Proof.
  split.
  - intros T. apply pool_range_splice.
  - intros E. apply intrusive_range_splice.
Qed.

(** Moving the run [2, 3] of the pool list [1, 2, 3] before 1, and the
    run [2] of the intrusive list [1, 2] before 1. *)
Lemma C4_range_splice_witness :
  (∃ st', Pool.splice_range (Some (Pool.Slot 3)) (Some (Pool.Slot 2))
            (Some Pool.Sentinel) Examples.list123 = Ok tt st' ∧
     Pool.contents st' [Pool.Slot 2; Pool.Slot 1; Pool.Slot 3]) ∧
  (∃ m', Intrusive.splice_range 0 (Some 1) (Some 2) (Some 0) Examples.hooks12
           = Ok tt m' ∧
     Intrusive.contents 0 m' [2; 1]).
Proof.
  destruct C4_range_splice as [Hpool Hintr]. split.
  - destruct (Hpool nat Examples.list123 [Pool.Slot 3] [Pool.Slot 2; Pool.Slot 1] []
                [] [Pool.Slot 3]) as (st' & E & Hr & _).
    + apply Examples.list123_contents.
    + reflexivity.
    + exists st'. split; [exact E|exact Hr].
  - destruct (Hintr nat 0 Examples.hooks12 [1] [2] [] [] [1]) as (m' & E & Hr & _).
    + apply Examples.hooks12_contents.
    + reflexivity.
    + exists m'. split; [exact E|exact Hr].
Defined.

(** C5 (as amended): [clear()] on a pool list (its loop given room for
    size() iterations) returns and leaves the list empty: size 0, sentinel
    linked to itself, no slot of the slab holding a live value.  On a list
    none of whose element constructors has thrown, the free chain then
    consists of every slot of the slab, each exactly once, so that its
    length is the capacity the list was constructed with.  In any state
    the list can reach, the free chain afterwards has no slot twice and
    is longer than before by the number of elements the list held: every
    node of the list is returned to it. *)
Theorem C5_clear_restores_pool :
  (∀ (T : Type) (st : Pool.ll_list_pool T) (fuel : nat),
     Pool.intact st → N.to_nat (Pool.size st) ≤ fuel →
     ∃ st' fl,
       Pool.clear fuel st = Ok tt st' ∧
       Pool.size st' = 0%N ∧ Pool.empty st' = true ∧
       Pool.nextf st' Pool.Sentinel = Some Pool.Sentinel ∧
       Pool.prevf st' Pool.Sentinel = Some Pool.Sentinel ∧
       (∀ u, u ∈ Pool.slots st' → Pool.valuef st' u = None) ∧
       Pool.free_chain (Pool.nextf st') (Pool.free_ st') fl ∧
       fl ≡ₚ Pool.slots st' ∧ NoDup fl ∧
       N.of_nat (length fl) = Pool.cap_ st' ∧
       Pool.cap_ st' = Pool.cap_ st) ∧
  (∀ (T : Type) (st : Pool.ll_list_pool T) (fuel : nat),
     Pool.reachable st → N.to_nat (Pool.size st) ≤ fuel →
     ∃ st' fl0 fl,
       Pool.clear fuel st = Ok tt st' ∧
       Pool.size st' = 0%N ∧ Pool.empty st' = true ∧
       Pool.nextf st' Pool.Sentinel = Some Pool.Sentinel ∧
       Pool.prevf st' Pool.Sentinel = Some Pool.Sentinel ∧
       (∀ u, u ∈ Pool.slots st' → Pool.valuef st' u = None) ∧
       Pool.free_chain (Pool.nextf st) (Pool.free_ st) fl0 ∧
       Pool.free_chain (Pool.nextf st') (Pool.free_ st') fl ∧
       NoDup fl ∧ fl ⊆ Pool.slots st' ∧
       length fl = N.to_nat (Pool.size st) + length fl0 ∧
       Pool.cap_ st' = Pool.cap_ st).
Proof.
  assert (∀ (T : Type) (st : Pool.ll_list_pool T) fuel l fl lost,
    Pool.pool_inv st l fl lost → N.to_nat (Pool.size st) ≤ fuel →
    ∃ st', Pool.clear fuel st = Ok tt st' ∧
      Pool.pool_inv st' [] (reverse l ++ fl) lost ∧
      Pool.size st' = 0%N ∧ Pool.empty st' = true ∧
      Pool.nextf st' Pool.Sentinel = Some Pool.Sentinel ∧
      Pool.prevf st' Pool.Sentinel = Some Pool.Sentinel ∧
      (∀ u, u ∈ Pool.slots st' → Pool.valuef st' u = None) ∧
      NoDup (reverse l ++ fl) ∧
      length (reverse l ++ fl) = N.to_nat (Pool.size st) + length fl ∧
      Pool.cap_ st' = Pool.cap_ st) as Hclear.
  { intros T st fuel l fl lost Hinv Hfuel.
    assert (Hlen : length l ≤ fuel).
    { unfold Pool.size in Hfuel. rewrite (Pool.inv_size _ _ _ Hinv) in Hfuel. lia. }
    destruct (Pool.clear_ok st l fl fuel Hinv Hlen) as (st' & E & Hinv' & _).
    pose proof (Pool.pool_inv_NoDup _ _ _ Hinv') as Hnd.
    pose proof (Pool.pool_inv_length _ _ _ Hinv') as Hl.
    pose proof (Pool.pool_inv_length _ _ _ Hinv) as Hl0.
    exists st'. split; [done|]. split; [done|].
    destruct Hinv' as [Hr' Hf' Hs' Hz' Hc' Hb' Hl' Hd'].
    split_and!; try done.
    - unfold Pool.empty. by rewrite Hz'.
    - by apply (Ring.ring_next_pos _ _ _ [] []) in Hr'.
    - by apply (Ring.ring_prev_pos _ _ _ [] []) in Hr'.
    - intros u Hu. apply Hd'. rewrite <- Hs' in Hu. exact Hu.
    - by apply NoDup_cons in Hnd as [_ ?].
    - unfold Pool.size. rewrite (Pool.inv_size _ _ _ Hinv).
      rewrite length_app, length_reverse. lia.
    - rewrite Hc', (Pool.inv_cap _ _ _ Hinv). f_equal.
      rewrite <- Hl, <- Hl0. simpl. rewrite length_app, length_reverse. lia. }
  split.
  - intros T st fuel Hint Hfuel.
    destruct (Pool.intact_inv st Hint) as (l & fl & Hinv).
    destruct (Hclear T st fuel l fl [] Hinv Hfuel)
      as (st' & E & Hinv' & Hz & He & Hn & Hp & Hv & Hnd & Hlen & Hcap).
    pose proof (Pool.pool_inv_length _ _ _ Hinv') as Hl.
    exists st', (reverse l ++ fl). split_and!; try done.
    + by destruct Hinv'.
    + destruct Hinv' as [_ _ Hs' _ _ _ _ _]. simpl in Hs'. by rewrite app_nil_r in Hs'.
    + rewrite (Pool.inv_cap _ _ _ Hinv'). f_equal. simpl in Hl. lia.
  - intros T st fuel Hreach Hfuel.
    destruct (Pool.reachable_inv st Hreach) as (lost & l & fl & Hinv).
    destruct (Hclear T st fuel l fl lost Hinv Hfuel)
      as (st' & E & Hinv' & Hz & He & Hn & Hp & Hv & Hnd & Hlen & Hcap).
    exists st', fl, (reverse l ++ fl). split_and!; try done.
    + by destruct Hinv.
    + by destruct Hinv'.
    + destruct Hinv' as [_ _ Hs' _ _ _ _ _]. simpl in Hs'.
      intros u Hu. rewrite <- Hs'. apply elem_of_app. by left.
Qed.

(** Clearing the list [1, 2, 3] of capacity 4. *)
Lemma C5_clear_restores_pool_witness :
  ∃ st' fl, Pool.clear 3 Examples.list123 = Ok tt st' ∧
    Pool.size st' = 0%N ∧ length fl = 4 ∧
    Pool.free_chain (Pool.nextf st') (Pool.free_ st') fl.
Proof.
  destruct C5_clear_restores_pool as [Hintact _].
  destruct (Hintact nat Examples.list123 3 Examples.list123_intact)
    as (st' & fl & E & Hz & _ & _ & _ & _ & Hf & _ & _ & Hlen & Hcap).
  - vm_compute. lia.
  - exists st', fl. split_and!; try done.
    rewrite Hcap in Hlen. change (Pool.cap_ Examples.list123) with 4%N in Hlen. lia.
Defined.

(** The claim as stated fails on a list one of whose element
    constructors has thrown.  On a list of capacity 4, let the constructor
    of a first [emplace_back] throw, and let [emplace_back(1)],
    [emplace_back(2)], [emplace_back(3)] follow.  The list then holds
    three elements; [clear()] leaves a free chain of the three slots 0,
    1, 2, not of the four the list was constructed with: slot 3 is
    lost. *)
Lemma C5_counterexample :
  let st := Examples.list123_lost in
  (Pool.reachable st ∧ Pool.to_list 3 st = Ok [1; 2; 3] st ∧ Pool.cap_ st = 4%N) ∧
  (∃ st', Pool.clear 3 st = Ok tt st' ∧ Pool.cap_ st' = 4%N ∧
     Pool.free_chain (Pool.nextf st') (Pool.free_ st')
       [Pool.Slot 0; Pool.Slot 1; Pool.Slot 2]) ∧
  ¬ (∃ st' fl, Pool.clear 3 st = Ok tt st' ∧
       Pool.free_chain (Pool.nextf st') (Pool.free_ st') fl ∧
       N.of_nat (length fl) = Pool.cap_ st').
Proof.
  assert (∃ st', Pool.clear 3 Examples.list123_lost = Ok tt st' ∧ Pool.cap_ st' = 4%N ∧
     Pool.free_chain (Pool.nextf st') (Pool.free_ st')
       [Pool.Slot 0; Pool.Slot 1; Pool.Slot 2]) as Hclear.
  { eexists. split; [vm_compute; reflexivity|]. split; [reflexivity|].
    vm_compute. repeat split. }
  split; [|split; [exact Hclear|]].
  - split; [apply Examples.list123_lost_reachable|]. split; vm_compute; reflexivity.
  - intros (st' & fl & E & Hf & Hlen).
    destruct Hclear as (st'' & E' & Hcap & Hf').
    rewrite E' in E. injection E as <-.
    rewrite (Pool.free_chain_unique _ _ _ _ Hf Hf'), Hcap in Hlen. discriminate Hlen.
Qed.

(** C8: let a host object at [h] embed a hook whose two link fields point
    to existing hooks [p] and [n].  Then [remove(hook)] returns; afterwards
    the object at [h] is the same host object with both link fields of its
    hook null, so [is_linked()] returns false; no object's fields outside
    its hook have changed, and every object other than the hook's two
    neighbours is exactly as it was.  [is_linked()] is true exactly when
    both link fields are non-null. *)
Theorem C8_remove_frame :
  (∀ (E : Type) this (m : gmap nat (Intrusive.object E)) h hk e p n,
     m !! h = Some (Intrusive.host_object hk e) →
     Intrusive.prev hk = Some p → Intrusive.next hk = Some n →
     Intrusive.valid m p → Intrusive.valid m n →
     ∃ m', Intrusive.remove this (Some h) m = Ok tt m' ∧
       m' !! h = Some (Intrusive.host_object Intrusive.unlinked_hook e) ∧
       Intrusive.load_is_linked (Some h) m' = Ok false m' ∧
       (∀ u, Intrusive.fieldsf m' u = Intrusive.fieldsf m u) ∧
       (∀ u, u ∉ [h; p; n] → m' !! u = m !! u)) ∧
  (∀ k : Intrusive.intrusive_hook,
     Intrusive.is_linked k = true ↔ Intrusive.prev k ≠ None ∧ Intrusive.next k ≠ None).
Proof.
  split; [|apply Intrusive.is_linked_spec].
  intros E this m h hk e p n Hh Hp Hn Vp Vn.
  assert (Hpf : Intrusive.prevf m h = Some p).
  { unfold Intrusive.prevf, Intrusive.deref. by rewrite Hh. }
  assert (Hnf : Intrusive.nextf m h = Some n).
  { unfold Intrusive.nextf, Intrusive.deref. by rewrite Hh. }
  destruct (Intrusive.unlink_linked_ok h p n m Hpf Hnf Vp Vn)
    as (m' & E1 & N & P & [Sv Sf]).
  assert (Hu : Intrusive.unlinked m' h).
  { split_and!.
    - apply Sv. by eexists.
    - rewrite P. by rewrite decide_True.
    - rewrite N. by rewrite decide_True. }
  exists m'. split_and!.
  - exact E1.
  - destruct Hu as ([o' Ho'] & Hp' & Hn').
    pose proof (Sf h) as Hf. unfold Intrusive.fieldsf in Hf. rewrite Hh, Ho' in Hf.
    unfold Intrusive.prevf, Intrusive.nextf, Intrusive.deref in Hp', Hn'.
    rewrite Ho' in Hp', Hn'. rewrite Ho'.
    destruct o' as [[p' n']|[p' n'] e']; simpl in *; [discriminate|].
    injection Hf as ->. destruct p', n'; simpl in *; try discriminate. done.
  - by apply Intrusive.load_is_linked_false.
  - exact Sf.
  - intros u Hu'. apply Intrusive.object_ext; [apply Sv| | |apply Sf].
    + rewrite N. rewrite !decide_False; [done|..]; set_solver.
    + rewrite P. rewrite !decide_False; [done|..]; set_solver.
Qed.

(** Removing hook 1, linked between the sentinel 0 and hook 2; its host
    object keeps its id 10. *)
Lemma C8_remove_frame_witness :
  ∃ m', Intrusive.remove 0 (Some 1) Examples.hooks12 = Ok tt m' ∧
    m' !! 1 = Some (Intrusive.host_object Intrusive.unlinked_hook 10) ∧
    m' !! 3 = Examples.hooks12 !! 3.
Proof.
  destruct C8_remove_frame as [Hremove _].
  destruct (Hremove nat 0 Examples.hooks12 1 (Intrusive.Hook (Some 0) (Some 2)) 10 0 2)
    as (m' & E & Hh & _ & _ & Hfr).
  - vm_compute. reflexivity.
  - reflexivity.
  - reflexivity.
  - vm_compute. eauto.
  - vm_compute. eauto.
  - exists m'. split_and!; [exact E|exact Hh|].
    apply Hfr. apply (bool_decide_unpack _). vm_compute. exact I.
Defined.

Lemma filter_absent {A} `{!EqDecision A} (x : A) (l : list A) :
  x ∉ l → filter (.≠ x) l = l.
Proof.
  induction l as [|y l IH]; intros Hx; [done|].
  rewrite filter_cons_True by set_solver. f_equal. apply IH. set_solver.
Qed.

(** C10: [splice(pos, h)] with a hook [h] whose two link fields are null
    and a position [pos] of the list (one of its hooks, or [end()]) other
    than [h]: the call returns, [h] sits immediately before [pos], the
    other hooks are in the order they were in, and [is_linked()] on [h]
    returns true.  The hook need not be linked before the call. *)
Theorem C10_splice_unlinked_hook :
  ∀ (E : Type) this (m : gmap nat (Intrusive.object E)) l pos h,
    Intrusive.contents this m l → pos ∈ l ++ [this] →
    Intrusive.unlinked m h → h ≠ pos →
    ∃ m' l', Intrusive.splice this (Some pos) (Some h) m = Ok tt m' ∧
      Intrusive.contents this m' l' ∧
      Intrusive.nextf m' h = Some pos ∧ Intrusive.prevf m' pos = Some h ∧
      filter (.≠ h) l' = l ∧
      Intrusive.load_is_linked (Some h) m' = Ok true m'.
Proof.
  intros E this m l pos h Hr Hpos Hu _.
  pose proof (Intrusive.unlinked_fresh _ _ _ _ Hr Hu) as Hh.
  apply Ring.split_at_pos in Hpos as (ra & rb & -> & ->).
  destruct (Intrusive.splice_unlinked this m ra rb h Hr Hu)
    as (m' & E1 & Hr' & N & P & S).
  pose proof (Ring.hd_elem this rb) as Hp.
  pose proof (Ring.lastd_elem this ra) as Hb.
  assert (Hhp : h ≠ hd this rb) by (intros Heq; rewrite <- Heq in Hp; set_solver).
  assert (Hhb : h ≠ Ring.lastd this ra) by (intros Heq; rewrite <- Heq in Hb; set_solver).
  assert (Hn' : Intrusive.nextf m' h = Some (hd this rb)).
  { rewrite N. rewrite decide_False by done. by rewrite decide_True. }
  assert (Hp' : Intrusive.prevf m' h = Some (Ring.lastd this ra)).
  { rewrite P. rewrite decide_False by done. by rewrite decide_True. }
  exists m', (ra ++ h :: rb). split_and!; try done.
  - rewrite P. by rewrite decide_True.
  - rewrite filter_without_middle. apply filter_absent. set_solver.
  - by apply (Intrusive.load_is_linked_true h _ _ m' Hp' Hn').
Qed.

(** Splicing the never-linked hook 3 before hook 2 of the list [1, 2]. *)
Lemma C10_splice_unlinked_hook_witness :
  ∃ m' l', Intrusive.splice 0 (Some 2) (Some 3) Examples.hooks12 = Ok tt m' ∧
    Intrusive.contents 0 m' l' ∧ filter (.≠ 3) l' = [1; 2].
Proof.
  destruct (C10_splice_unlinked_hook nat 0 Examples.hooks12 [1; 2] 2 3)
    as (m' & l' & E & Hr & _ & _ & Hf & _).
  - apply Examples.hooks12_contents.
  - apply (bool_decide_unpack _). vm_compute. exact I.
  - split; [|split]; vm_compute; eauto.
  - discriminate.
  - exists m', l'. split_and!; assumption.
Defined.

(** * Further properties of the pool list

    What the members of [ll_list_pool] that the statements above leave
    out do on a list in a reachable state, as a caller observes it:
    through [size()], [empty()], the iterators and the traversal. *)

(** A reachable state, with the nodes and values it holds. *)
Lemma pool_inv_view {T} (st : Pool.ll_list_pool T) l fl lost :
  Pool.pool_inv st l fl lost →
  ∃ vs, Pool.values st l vs ∧
    N.to_nat (Pool.size st) = length l ∧ length vs = length l ∧
    N.to_nat (Pool.cap_ st) = length l + length fl + length lost.
Proof.
  intros Hinv.
  destruct (Pool.values_exist st l (Pool.inv_live _ _ _ Hinv)) as [vs Hvs].
  exists vs. split_and!; try done.
  - unfold Pool.size. rewrite (Pool.inv_size _ _ _ Hinv). lia.
  - symmetry. by apply Forall2_length in Hvs.
  - rewrite (Pool.inv_cap _ _ _ Hinv), <- (Pool.pool_inv_length _ _ _ Hinv). lia.
Qed.

Lemma pool_reachable_view {T} (st : Pool.ll_list_pool T) :
  Pool.reachable st →
  ∃ lost l fl vs, Pool.pool_inv st l fl lost ∧ Pool.values st l vs ∧
    N.to_nat (Pool.size st) = length l ∧ length vs = length l ∧
    N.to_nat (Pool.cap_ st) = length l + length fl + length lost.
Proof.
  intros Hreach.
  destruct (Pool.reachable_inv st Hreach) as (lost & l & fl & Hinv).
  destruct (pool_inv_view st l fl lost Hinv) as (vs & ?).
  by exists lost, l, fl, vs.
Qed.

(** A state in which no element constructor has thrown: every slot is
    in the list or on the free list. *)
Lemma pool_intact_view {T} (st : Pool.ll_list_pool T) :
  Pool.intact st →
  ∃ l fl vs, Pool.pool_inv st l fl [] ∧ Pool.values st l vs ∧
    N.to_nat (Pool.size st) = length l ∧ length vs = length l ∧
    N.to_nat (Pool.cap_ st) = length l + length fl.
Proof.
  intros Hint.
  destruct (Pool.intact_inv st Hint) as (l & fl & Hinv).
  destruct (pool_inv_view st l fl [] Hinv) as (vs & ? & ? & ? & Hc).
  exists l, fl, vs. split_and!; try done. simpl in Hc. lia.
Qed.

(** The iterator [i] increments away from [begin()]. *)
Lemma pool_iter_at {T} (st : Pool.ll_list_pool T) l i p :
  Pool.contents st l → (l ++ [Pool.Sentinel]) !! i = Some p →
  Pool.follow Pool.load_next (S i) (Some Pool.Sentinel) st = Ok (Some p) st.
Proof.
  intros (_ & Hw & _) Hi. apply Pool.follow_next_ok.
  by apply (Ring.walk_iter _ _ (l ++ [Pool.Sentinel])).
Qed.

(** [*it] returns exactly where [it] points at a node with a live value. *)
Lemma pool_deref_value {T} (st : Pool.ll_list_pool T) it w :
  Pool.iter_deref it st = Ok w st ↔ ∃ u, it = Some u ∧ Pool.valuef st u = Some w.
Proof.
  unfold Pool.iter_deref, Pool.load_value, read, Pool.valuef. split.
  - destruct it as [u|]; [|done].
    destruct (Pool.deref (Some u) st ≫= Pool.value) as [w'|] eqn:E; [|done].
    intros [= ->]. by exists u.
  - intros (u & -> & ->). done.
Qed.

(** The size and the traversal of a state whose nodes and values are known. *)
Lemma pool_observe {T lost} (st : Pool.ll_list_pool T) l fl vs :
  Pool.pool_inv st l fl lost → Pool.values st l vs →
  Pool.size st = N.of_nat (length l) ∧
  Pool.to_list (N.to_nat (Pool.size st)) st = Ok vs st.
Proof.
  intros Hinv Hvs. unfold Pool.size. rewrite (Pool.inv_size _ _ _ Hinv).
  split; [done|].
  apply (Pool.to_list_ok st l); [by destruct Hinv|done|lia].
Qed.

(** An emplace changes no value that was alive. *)
Lemma pool_emplace_stable {T lost} (st st' : Pool.ll_list_pool T) l x fl vs :
  Pool.pool_inv st l (x :: fl) lost → Pool.values st l vs →
  (∀ u, u ≠ x → Pool.valuef st' u = Pool.valuef st u) →
  Pool.values st' l vs ∧
  (∀ it w, Pool.iter_deref it st = Ok w st → Pool.iter_deref it st' = Ok w st').
Proof.
  intros Hinv Hvs Hframe.
  pose proof (Pool.pool_inv_NoDup _ _ _ Hinv) as Hnd. split.
  - apply (Pool.values_frame st); [|done].
    intros u Hu. apply Hframe. intros ->. clear -Hnd Hu. nodup_solver.
  - intros it w (u & -> & Hu)%pool_deref_value. apply pool_deref_value.
    exists u. split; [done|]. rewrite Hframe; [done|].
    intros ->. rewrite (Pool.inv_dead _ _ _ Hinv x) in Hu; [done|set_solver].
Qed.



(** The head of the free list is the first free node. *)
Lemma pool_free_node {T lost} (st : Pool.ll_list_pool T) (l fl : list Pool.loc) :
  Pool.pool_inv st l fl lost → Pool.free_ st ≠ None → ∃ x fl', fl = x :: fl'.
Proof.
  intros Hinv Hfree. destruct fl as [|x fl']; [|by exists x, fl'].
  by destruct Hinv.
Qed.

(** The free list is empty exactly when no node is free. *)
Lemma pool_free_empty {T lost} (st : Pool.ll_list_pool T) (l fl : list Pool.loc) :
  Pool.pool_inv st l fl lost → Pool.free_ st = None ↔ fl = [].
Proof.
  intros Hinv. split.
  - intros Hfree. destruct fl as [|x fl']; [done|].
    destruct Hinv as [_ [Hf _] _ _ _ _ _ _]. congruence.
  - intros ->. by destruct Hinv.
Qed.

(** X2: [emplace_back] on a list whose free list is not empty, when the
    constructor of the element returns (building the value [v]), returns
    an iterator to a new last element: it dereferences to [v],
    incrementing it gives [end()], [size()] has grown by one and the
    traversal yields the old values followed by the new one.  Every
    iterator that could be dereferenced before the call still yields the
    same value. *)
Theorem pool_emplace_back_appends :
  ∀ (T : Type) (st : Pool.ll_list_pool T) (v : T),
    Pool.reachable st → Pool.free_ st ≠ None →
    ∃ vs it st',
      Pool.to_list (N.to_nat (Pool.size st)) st = Ok vs st ∧
      Pool.emplace_back (Some v) st = Ok it st' ∧
      Pool.size st' = (Pool.size st + 1)%N ∧
      Pool.to_list (N.to_nat (Pool.size st')) st' = Ok (vs ++ [v]) st' ∧
      Pool.iter_deref it st' = Ok v st' ∧
      Pool.iter_incr it st' = Ok (Pool.end_ st') st' ∧
      (∀ it0 w, Pool.iter_deref it0 st = Ok w st → Pool.iter_deref it0 st' = Ok w st').
Proof.
  intros T st v Hreach Hlt.
  destruct (pool_reachable_view st Hreach) as (lost & l & fl & vs & Hinv & Hvs & Hs & _ & Hc).
  destruct (pool_free_node st l fl Hinv Hlt) as (x & fl' & ->).
  destruct (Pool.emplace_back_ok st l x fl' v Hinv) as (st' & E & Hinv' & Hx & Hframe).
  destruct (pool_emplace_stable st st' l x fl' vs Hinv Hvs Hframe) as [Hvs' Hst].
  assert (Hvs2 : Pool.values st' (l ++ [x]) (vs ++ [v])).
  { apply Forall2_app; [done|]. by apply Forall2_cons. }
  destruct (pool_observe st l _ vs Hinv Hvs) as [Hz Hl].
  destruct (pool_observe st' _ _ _ Hinv' Hvs2) as [Hz' Hl'].
  exists vs, (Some x), st'. split_and!; try done.
  - rewrite Hz', Hz, length_app. simpl. lia.
  - by apply pool_deref_value; exists x.
  - apply Pool.load_next_ok.
    destruct Hinv' as [Hr' _ _ _ _ _ _ _].
    rewrite <- (app_nil_r (l ++ [x])) in Hr'.
    apply Ring.ring_next_pos in Hr'. by rewrite Ring.lastd_snoc in Hr'.
Qed.

(** Appending 4 to the list [1, 2, 3] of capacity 4. *)
Lemma pool_emplace_back_appends_witness :
  ∃ it st', Pool.emplace_back (Some 4) Examples.list123 = Ok it st' ∧
    Pool.to_list 4 st' = Ok [1; 2; 3; 4] st'.
Proof.
  destruct (pool_emplace_back_appends nat Examples.list123 4 Examples.list123_reachable)
    as (vs & it & st' & Hl & E & Hz & Hl' & _); [discriminate|].
  exists it, st'. split; [exact E|].
  vm_compute in Hl. injection Hl as <-.
  rewrite Hz in Hl'. exact Hl'.
Defined.

(** X3: [emplace_front] on a list whose free list is not empty, when the
    constructor of the element returns (building the value [v]), returns
    an iterator to a new first element: it equals [begin()] afterwards
    and dereferences to [v], [size()] has grown by one and the traversal
    yields the new value followed by the old ones.  Every iterator that
    could be dereferenced before the call still yields the same value. *)
Theorem pool_emplace_front_prepends :
  ∀ (T : Type) (st : Pool.ll_list_pool T) (v : T),
    Pool.reachable st → Pool.free_ st ≠ None →
    ∃ vs it st',
      Pool.to_list (N.to_nat (Pool.size st)) st = Ok vs st ∧
      Pool.emplace_front (Some v) st = Ok it st' ∧
      Pool.size st' = (Pool.size st + 1)%N ∧
      Pool.to_list (N.to_nat (Pool.size st')) st' = Ok (v :: vs) st' ∧
      Pool.iter_deref it st' = Ok v st' ∧
      Pool.begin_ st' = it ∧
      (∀ it0 w, Pool.iter_deref it0 st = Ok w st → Pool.iter_deref it0 st' = Ok w st').
Proof.
  intros T st v Hreach Hlt.
  destruct (pool_reachable_view st Hreach) as (lost & l & fl & vs & Hinv & Hvs & Hs & _ & Hc).
  destruct (pool_free_node st l fl Hinv Hlt) as (x & fl' & ->).
  destruct (Pool.emplace_front_ok st l x fl' v Hinv) as (st' & E & Hinv' & Hx & Hframe).
  destruct (pool_emplace_stable st st' l x fl' vs Hinv Hvs Hframe) as [Hvs' Hst].
  assert (Hvs2 : Pool.values st' (x :: l) (v :: vs)) by by apply Forall2_cons.
  destruct (pool_observe st l _ vs Hinv Hvs) as [Hz Hl].
  destruct (pool_observe st' _ _ _ Hinv' Hvs2) as [Hz' Hl'].
  exists vs, (Some x), st'. split_and!; try done.
  - rewrite Hz', Hz. simpl. lia.
  - by apply pool_deref_value; exists x.
  - destruct Hinv' as [Hr' _ _ _ _ _ _ _].
    by apply (Ring.ring_next_pos _ _ _ [] (x :: l)) in Hr'.
Qed.

(** Prepending 0 to the list [1, 2, 3] of capacity 4. *)
Lemma pool_emplace_front_prepends_witness :
  ∃ it st', Pool.emplace_front (Some 0) Examples.list123 = Ok it st' ∧
    Pool.to_list 4 st' = Ok [0; 1; 2; 3] st'.
Proof.
  destruct (pool_emplace_front_prepends nat Examples.list123 0 Examples.list123_reachable)
    as (vs & it & st' & Hl & E & Hz & Hl' & _); [discriminate|].
  exists it, st'. split; [exact E|].
  vm_compute in Hl. injection Hl as <-.
  rewrite Hz in Hl'. exact Hl'.
Defined.

(** X4: the size of a reachable list never exceeds its capacity.  An
    emplace at either end throws and leaves the list as it was exactly
    when the free list is empty, whatever the constructor of the element
    would do: that is [std::bad_alloc].  When the free list is not empty
    and the constructor of the element returns, the emplace returns.  On
    a list none of whose element constructors has thrown, the free list
    is empty exactly when the list is full ([size()] equals the
    capacity). *)
Theorem pool_emplace_throws_iff_full :
  ∀ (T : Type) (st : Pool.ll_list_pool T) (c : option T),
    Pool.reachable st →
    (Pool.size st ≤ Pool.cap_ st)%N ∧
    (Pool.emplace_back c st = Throw st ↔ Pool.free_ st = None) ∧
    (Pool.emplace_front c st = Throw st ↔ Pool.free_ st = None) ∧
    (Pool.free_ st ≠ None → ∀ v,
       (∃ it st', Pool.emplace_back (Some v) st = Ok it st') ∧
       (∃ it st', Pool.emplace_front (Some v) st = Ok it st')) ∧
    (Pool.intact st → (Pool.free_ st = None ↔ Pool.size st = Pool.cap_ st)).
Proof.
  intros T st c Hreach.
  destruct (pool_reachable_view st Hreach)
    as (lost & l & fl & vs & Hinv & Hvs & Hs & _ & Hc).
  assert (Hroom : Pool.free_ st ≠ None → ∀ v,
    (∃ it st', Pool.emplace_back (Some v) st = Ok it st') ∧
    (∃ it st', Pool.emplace_front (Some v) st = Ok it st')).
  { intros Hne v. destruct (pool_free_node st l fl Hinv Hne) as (x & fl' & ->).
    destruct (Pool.emplace_back_ok st l x fl' v Hinv) as (st1 & E1 & _).
    destruct (Pool.emplace_front_ok st l x fl' v Hinv) as (st2 & E2 & _).
    split; [by exists (Some x), st1|by exists (Some x), st2]. }
  assert (Hleak : ∀ st', Pool.free_ st ≠ None →
    Pool.emplace_back None st = Throw st' ∨ Pool.emplace_front None st = Throw st' →
    st' ≠ st).
  { intros st' Hne Hthrow.
    destruct (pool_free_node st l fl Hinv Hne) as (x & fl' & ->).
    destruct (Pool.emplace_back_leak st l x fl' Hinv) as [E1 _].
    destruct (Pool.emplace_front_leak st l x fl' Hinv) as [E2 _].
    assert (st' = Pool.set_free (Pool.nextf st x) st) as ->
      by (destruct Hthrow; congruence).
    intros Heq. apply (f_equal Pool.free_) in Heq. simpl in Heq.
    pose proof (Pool.pool_inv_NoDup _ _ _ Hinv) as Hnd.
    destruct Hinv as [_ [Hf Hfl] _ _ _ _ _ _].
    rewrite Heq, Hf in Hfl. destruct fl' as [|y fl'']; [done|].
    destruct Hfl as [[= <-] _]. clear -Hnd. nodup_solver. }
  split_and!.
  - lia.
  - split.
    + intros E. destruct (decide (Pool.free_ st = None)) as [|Hne]; [done|].
      destruct c as [v|].
      * destruct (Hroom Hne v) as [(it & st' & E') _]. congruence.
      * destruct (Hleak st Hne); [by left|done].
    + apply Pool.emplace_back_throw.
  - split.
    + intros E. destruct (decide (Pool.free_ st = None)) as [|Hne]; [done|].
      destruct c as [v|].
      * destruct (Hroom Hne v) as [_ (it & st' & E')]. congruence.
      * destruct (Hleak st Hne); [by right|done].
    + apply Pool.emplace_front_throw.
  - exact Hroom.
  - intros Hint.
    destruct (pool_intact_view st Hint) as (l' & fl' & _ & Hinv' & _ & Hs' & _ & Hc').
    rewrite (pool_free_empty st l' fl' Hinv'). split.
    + intros ->. simpl in Hc'. lia.
    + intros Heq. apply length_zero_iff_nil. lia.
Qed.

(** The list [1, 2, 3] of capacity 4 is not full. *)
Lemma pool_emplace_throws_iff_full_witness :
  (Pool.size Examples.list123 ≤ Pool.cap_ Examples.list123)%N ∧
  ∃ it st', Pool.emplace_back (Some 4) Examples.list123 = Ok it st'.
Proof.
  destruct (pool_emplace_throws_iff_full nat Examples.list123 None
              Examples.list123_reachable)
    as (Hle & _ & _ & Hroom & _).
  split; [exact Hle|]. apply (Hroom ltac:(discriminate) 4).
Defined.

(** The element at index [i] of a list, with what is before and after it. *)
Lemma pool_split_index {T} (st : Pool.ll_list_pool T) l vs i :
  Pool.values st l vs → i < length l →
  ∃ l1 x l2 vs1 v vs2,
    l = l1 ++ x :: l2 ∧ vs = vs1 ++ v :: vs2 ∧ length l1 = i ∧ length vs1 = i ∧
    Pool.values st l1 vs1 ∧ Pool.valuef st x = Some v ∧ Pool.values st l2 vs2.
Proof.
  intros Hvs Hi.
  destruct (lookup_lt_is_Some_2 l i Hi) as [x Hx].
  destruct (Forall2_lookup_l _ _ _ _ _ Hvs Hx) as (v & Hv & Hxv).
  exists (take i l), x, (drop (S i) l), (take i vs), v, (drop (S i) vs).
  split_and!.
  - by rewrite take_drop_middle.
  - by rewrite take_drop_middle.
  - rewrite length_take. lia.
  - rewrite length_take. apply lookup_lt_Some in Hv. lia.
  - by apply Forall2_take.
  - done.
  - by apply Forall2_drop.
Qed.

(** [erase] of the node [x], on the values. *)
Lemma pool_erase_at {T lost} (st : Pool.ll_list_pool T) l1 x l2 fl vs1 vs2 :
  Pool.pool_inv st (l1 ++ x :: l2) fl lost →
  Pool.values st l1 vs1 → Pool.values st l2 vs2 →
  ∃ st', Pool.erase (Some x) st = Ok (Some (hd Pool.Sentinel l2)) st' ∧
    Pool.pool_inv st' (l1 ++ l2) (x :: fl) lost ∧
    Pool.values st' (l1 ++ l2) (vs1 ++ vs2) ∧
    (∀ it w, it ≠ Some x →
       Pool.iter_deref it st = Ok w st → Pool.iter_deref it st' = Ok w st').
Proof.
  intros Hinv Hvs1 Hvs2.
  destruct (Pool.erase_ok st l1 x l2 fl Hinv) as (st' & E & Hinv' & Hframe).
  pose proof (Pool.pool_inv_NoDup _ _ _ Hinv) as Hnd.
  exists st'. split_and!; try done.
  - apply Forall2_app.
    + apply (Pool.values_frame st); [|done].
      intros u Hu. apply Hframe. intros ->. clear -Hnd Hu. nodup_solver.
    + apply (Pool.values_frame st); [|done].
      intros u Hu. apply Hframe. intros ->. clear -Hnd Hu. nodup_solver.
  - intros it w Hne (u & -> & Hu)%pool_deref_value. apply pool_deref_value.
    exists u. split; [done|]. rewrite Hframe; [done|congruence].
Qed.

(** X5: [erase] of the iterator [i] increments away from [begin()]
    ([i] less than [size()]) removes the element at index [i]: [size()]
    drops by one and the traversal yields the old values without that
    one.  The iterator returned names the element that followed the
    erased one, now at index [i] ([end()] if there was none).  Every
    other iterator that could be dereferenced still yields the same
    value. *)
Theorem pool_erase_removes :
  ∀ (T : Type) (st : Pool.ll_list_pool T) (i : nat),
    Pool.reachable st → i < N.to_nat (Pool.size st) →
    ∃ vs it nx st',
      Pool.to_list (N.to_nat (Pool.size st)) st = Ok vs st ∧
      Pool.follow Pool.load_next (S i) (Some Pool.Sentinel) st = Ok it st ∧
      Pool.erase it st = Ok nx st' ∧
      Pool.size st' = (Pool.size st - 1)%N ∧
      Pool.to_list (N.to_nat (Pool.size st')) st' = Ok (delete i vs) st' ∧
      Pool.follow Pool.load_next (S i) (Some Pool.Sentinel) st' = Ok nx st' ∧
      (∀ it0 w, it0 ≠ it →
         Pool.iter_deref it0 st = Ok w st → Pool.iter_deref it0 st' = Ok w st').
Proof.
  intros T st i Hreach Hi.
  destruct (pool_reachable_view st Hreach) as (lost & l & fl & vs & Hinv & Hvs & Hs & _ & _).
  rewrite Hs in Hi.
  destruct (pool_split_index st l vs i Hvs Hi)
    as (l1 & x & l2 & vs1 & v & vs2 & -> & -> & Hl1 & Hv1 & Hvs1 & Hv & Hvs2).
  destruct (pool_erase_at st l1 x l2 fl vs1 vs2 Hinv Hvs1 Hvs2)
    as (st' & E & Hinv' & Hvs' & Hst).
  destruct (pool_observe st _ _ _ Hinv Hvs) as [Hz Hl].
  destruct (pool_observe st' _ _ _ Hinv' Hvs') as [Hz' Hl'].
  exists (vs1 ++ v :: vs2), (Some x), (Some (hd Pool.Sentinel l2)), st'.
  split_and!; try done.
  - apply (pool_iter_at st (l1 ++ x :: l2)); [by destruct Hinv|].
    rewrite <- app_assoc. simpl. by apply list_lookup_middle.
  - rewrite Hz', Hz, !length_app. simpl. lia.
  - rewrite <- Hv1, delete_middle. exact Hl'.
  - apply (pool_iter_at st' (l1 ++ l2)); [by destruct Hinv'|].
    rewrite <- app_assoc, <- Hl1, lookup_app_r, Nat.sub_diag by lia.
    by destruct l2.
Qed.

(** Erasing the second element of the list [1, 2, 3]. *)
Lemma pool_erase_removes_witness :
  ∃ it nx st', Pool.erase it Examples.list123 = Ok nx st' ∧
    Pool.to_list 2 st' = Ok [1; 3] st' ∧ Pool.iter_deref nx st' = Ok 3 st'.
Proof.
  destruct (pool_erase_removes nat Examples.list123 1 Examples.list123_reachable)
    as (vs & it & nx & st' & Hl & Hit & E & Hz & Hl' & Hnx & _); [vm_compute; lia|].
  exists it, nx, st'.
  vm_compute in Hl. injection Hl as <-.
  vm_compute in Hit. injection Hit as <-.
  vm_compute in E. injection E as <- <-.
  split_and!; reflexivity.
Defined.

(** X6: the node of an erased element is the next one handed out: after
    [erase(it)], an emplace at either end returns an iterator equal to
    [it] (the free list is last-in, first-out). *)
Theorem pool_erase_recycles :
  ∀ (T : Type) (st : Pool.ll_list_pool T) (i : nat) (v : T),
    Pool.reachable st → i < N.to_nat (Pool.size st) →
    ∃ it nx st',
      Pool.follow Pool.load_next (S i) (Some Pool.Sentinel) st = Ok it st ∧
      Pool.erase it st = Ok nx st' ∧
      (∃ st'', Pool.emplace_back (Some v) st' = Ok it st'' ∧
               Pool.iter_deref it st'' = Ok v st'') ∧
      (∃ st'', Pool.emplace_front (Some v) st' = Ok it st'' ∧
               Pool.iter_deref it st'' = Ok v st'').
Proof.
  intros T st i v Hreach Hi.
  destruct (pool_reachable_view st Hreach) as (lost & l & fl & vs & Hinv & Hvs & Hs & _ & _).
  rewrite Hs in Hi.
  destruct (pool_split_index st l vs i Hvs Hi)
    as (l1 & x & l2 & vs1 & w & vs2 & -> & -> & Hl1 & Hv1 & Hvs1 & Hv & Hvs2).
  destruct (Pool.erase_ok st l1 x l2 fl Hinv) as (st' & E & Hinv' & _).
  destruct (Pool.emplace_back_ok st' _ x fl v Hinv') as (st1 & E1 & _ & Hx1 & _).
  destruct (Pool.emplace_front_ok st' _ x fl v Hinv') as (st2 & E2 & _ & Hx2 & _).
  exists (Some x), (Some (hd Pool.Sentinel l2)), st'. split_and!.
  - apply (pool_iter_at st (l1 ++ x :: l2)); [by destruct Hinv|].
    rewrite <- app_assoc. simpl. by apply list_lookup_middle.
  - exact E.
  - exists st1. split; [exact E1|]. by apply pool_deref_value; exists x.
  - exists st2. split; [exact E2|]. by apply pool_deref_value; exists x.
Qed.

(** Erasing the second element of [1, 2, 3], then appending 7. *)
Lemma pool_erase_recycles_witness :
  ∃ it nx st' st'', Pool.erase it Examples.list123 = Ok nx st' ∧
    Pool.emplace_back (Some 7) st' = Ok it st''.
Proof.
  destruct (pool_erase_recycles nat Examples.list123 1 7 Examples.list123_reachable)
    as (it & nx & st' & _ & E & (st'' & E' & _) & _); [vm_compute; lia|].
  by exists it, nx, st', st''.
Defined.

(** X7: on a list whose free list is not empty, an emplace at either end
    whose element constructor returns, followed by [erase] of the
    iterator it returned, undoes it: the erase returns the iterator that
    followed the new element ([begin()] of the original list after
    [emplace_front], [end()] after [emplace_back]); [size()], the
    traversal and the head of the free list are as before the two
    calls. *)
Theorem pool_emplace_erase_roundtrip :
  ∀ (T : Type) (st : Pool.ll_list_pool T) (front : bool) (v : T),
    Pool.reachable st → Pool.free_ st ≠ None →
    ∃ vs it st1 st2,
      Pool.to_list (N.to_nat (Pool.size st)) st = Ok vs st ∧
      (if front then Pool.emplace_front (Some v) else Pool.emplace_back (Some v)) st
        = Ok it st1 ∧
      Pool.erase it st1 = Ok (if front then Pool.begin_ st else Pool.end_ st) st2 ∧
      Pool.size st2 = Pool.size st ∧
      Pool.to_list (N.to_nat (Pool.size st2)) st2 = Ok vs st2 ∧
      Pool.free_ st2 = Pool.free_ st ∧
      (∀ it0 w, Pool.iter_deref it0 st = Ok w st → Pool.iter_deref it0 st2 = Ok w st2).
Proof.
  intros T st front v Hreach Hlt.
  destruct (pool_reachable_view st Hreach) as (lost & l & fl & vs & Hinv & Hvs & Hs & _ & Hc).
  destruct (pool_free_node st l fl Hinv Hlt) as (x & fl' & ->).
  destruct (pool_observe st l _ vs Hinv Hvs) as [Hz Hl].
  assert (Hfree : Pool.free_ st = Some x) by by destruct Hinv as [_ [? _] _ _ _ _ _ _].
  assert (Hdead : ∀ it0 w, Pool.iter_deref it0 st = Ok w st → it0 ≠ Some x).
  { intros it0 w (u & -> & Hu)%pool_deref_value [= ->].
    rewrite (Pool.inv_dead _ _ _ Hinv x) in Hu; [done|set_solver]. }
  assert (Hbegin : Pool.begin_ st = Some (hd Pool.Sentinel l)).
  { destruct Hinv as [Hr _ _ _ _ _ _ _].
    by apply (Ring.ring_next_pos _ _ _ [] l) in Hr. }
  destruct front.
  - destruct (Pool.emplace_front_ok st l x fl' v Hinv) as (st1 & E1 & Hinv1 & Hx & Hframe).
    destruct (pool_emplace_stable st st1 l x fl' vs Hinv Hvs Hframe) as [Hvs1 Hst1].
    destruct (pool_erase_at st1 [] x l fl' [] vs Hinv1 (List.Forall2_nil _) Hvs1)
      as (st2 & E2 & Hinv2 & Hvs2 & Hst2).
    destruct (pool_observe st2 _ _ _ Hinv2 Hvs2) as [Hz2 Hl2].
    exists vs, (Some x), st1, st2. rewrite Hbegin.
    split_and!; [exact Hl|exact E1|exact E2| |exact Hl2| |].
    + by rewrite Hz2, Hz.
    + rewrite Hfree. by destruct Hinv2 as [_ [? _] _ _ _ _ _ _].
    + intros it0 w Hit0. apply Hst2; [by apply (Hdead it0 w)|by apply Hst1].
  - destruct (Pool.emplace_back_ok st l x fl' v Hinv) as (st1 & E1 & Hinv1 & Hx & Hframe).
    destruct (pool_emplace_stable st st1 l x fl' vs Hinv Hvs Hframe) as [Hvs1 Hst1].
    destruct (pool_erase_at st1 l x [] fl' vs [] Hinv1 Hvs1 (List.Forall2_nil _))
      as (st2 & E2 & Hinv2 & Hvs2 & Hst2).
    rewrite app_nil_r in Hinv2. rewrite !app_nil_r in Hvs2.
    destruct (pool_observe st2 _ _ _ Hinv2 Hvs2) as [Hz2 Hl2].
    exists vs, (Some x), st1, st2.
    split_and!; [exact Hl|exact E1|exact E2| |exact Hl2| |].
    + by rewrite Hz2, Hz.
    + rewrite Hfree. by destruct Hinv2 as [_ [? _] _ _ _ _ _ _].
    + intros it0 w Hit0. apply Hst2; [by apply (Hdead it0 w)|by apply Hst1].
Qed.

(** Appending 4 to [1, 2, 3] and erasing it again. *)
Lemma pool_emplace_erase_roundtrip_witness :
  ∃ it st1 st2, Pool.emplace_back (Some 4) Examples.list123 = Ok it st1 ∧
    Pool.erase it st1 = Ok (Pool.end_ Examples.list123) st2 ∧
    Pool.to_list 3 st2 = Ok [1; 2; 3] st2.
Proof.
  destruct (pool_emplace_erase_roundtrip nat Examples.list123 false 4
              Examples.list123_reachable)
    as (vs & it & st1 & st2 & Hl & E1 & E2 & Hz & Hl2 & _); [discriminate|].
  exists it, st1, st2. split_and!; [exact E1|exact E2|].
  vm_compute in Hl. injection Hl as <-.
  rewrite Hz in Hl2. exact Hl2.
Defined.

(** X8: in a reachable state [empty()], which tests the size counter,
    agrees with the links: it is true exactly when [begin()] equals
    [end()], and exactly when decrementing [end()] gives [end()]. *)
Theorem pool_empty_iff_begin_is_end :
  ∀ (T : Type) (st : Pool.ll_list_pool T),
    Pool.reachable st →
    (Pool.empty st = true ↔ Pool.begin_ st = Pool.end_ st) ∧
    (Pool.empty st = true ↔
       Pool.iter_decr (Pool.end_ st) st = Ok (Pool.end_ st) st).
Proof.
  intros T st Hreach.
  destruct (pool_reachable_view st Hreach) as (lost & l & fl & vs & Hinv & _ & _ & _ & _).
  destruct Hinv as [Hr _ _ Hz _ _ _ _].
  pose proof (Ring.ring_NoDup _ _ _ _ Hr) as Hnd.
  pose proof (Ring.ring_next_pos _ _ _ [] l Hr) as Hn.
  pose proof Hr as Hp. rewrite <- (app_nil_r l) in Hp.
  apply Ring.ring_prev_pos in Hp. simpl in Hn, Hp. rewrite Ring.lastd_nil in Hn.
  unfold Pool.empty, Pool.end_, Pool.iter_decr. rewrite Hz, bool_decide_eq_true.
  rewrite (Pool.load_prev_ok _ _ _ Hp).
  change (Pool.begin_ st) with (Pool.nextf st Pool.Sentinel). rewrite Hn.
  destruct l as [|x l']; simpl.
  - rewrite Ring.lastd_nil. done.
  - split; (split; [lia|]).
    + intros [= ->]. clear -Hnd. nodup_solver.
    + intros [= Heq].
      pose proof (Ring.lastd_elem_nonempty Pool.Sentinel (x :: l')) as Hin.
      rewrite Heq in Hin. clear -Hnd Hin. nodup_solver.
Qed.

(** The list [1, 2, 3] is not empty. *)
Lemma pool_empty_iff_begin_is_end_witness :
  Pool.empty Examples.list123 = false ∧
  Pool.begin_ Examples.list123 ≠ Pool.end_ Examples.list123.
Proof.
  destruct (pool_empty_iff_begin_is_end nat Examples.list123 Examples.list123_reachable)
    as [[_ H] _].
  split; [reflexivity|]. intros Heq. apply H in Heq. discriminate.
Defined.

(** In a ring the two links are inverse to each other at every node,
    the sentinel included. *)
Lemma ring_links_inverse {A} `{!EqDecision A} (f g : A → option A) s l u :
  Ring.ring f g s l → u ∈ s :: l →
  ∃ n p, f u = Some n ∧ g n = Some u ∧ g u = Some p ∧ f p = Some u ∧
         n ∈ s :: l ∧ p ∈ s :: l.
Proof.
  intros Hr Hu.
  assert (Hu' : u ∈ l ++ [s]) by set_solver.
  destruct (Ring.split_at_pos s l u Hu') as (ra & rb & -> & ->).
  pose proof (Ring.ring_prev_pos _ _ _ ra rb Hr) as Hp.
  pose proof (Ring.ring_next_pos _ _ _ ra rb Hr) as Hn.
  pose proof (Ring.lastd_elem s ra) as Hin.
  destruct rb as [|y rb']; simpl in *.
  - rewrite app_nil_r in *.
    pose proof (Ring.ring_next_pos _ _ _ [] ra Hr) as Hn0.
    pose proof (Ring.ring_prev_pos _ _ _ [] ra Hr) as Hp0.
    rewrite Ring.lastd_nil in Hn0, Hp0.
    pose proof (Ring.hd_elem s ra) as Hin'.
    exists (hd s ra), (Ring.lastd s ra). split_and!; try done; set_solver.
  - rewrite (cons_middle y ra rb'), app_assoc in Hr.
    pose proof (Ring.ring_next_pos _ _ _ (ra ++ [y]) rb' Hr) as Hn1.
    pose proof (Ring.ring_prev_pos _ _ _ (ra ++ [y]) rb' Hr) as Hp1.
    rewrite Ring.lastd_snoc in Hn1, Hp1.
    pose proof (Ring.hd_elem s rb') as Hin'.
    exists (hd s rb'), (Ring.lastd s ra). split_and!; try done; set_solver.
Qed.

(** The values of the same nodes in another order. *)
Lemma pool_values_perm {T} (st st' : Pool.ll_list_pool T) l l' vs vs' :
  Pool.values st l vs → Pool.values st' l' vs' → l' ≡ₚ l →
  (∀ u, Pool.valuef st' u = Pool.valuef st u) → vs' ≡ₚ vs.
Proof.
  intros Hvs Hvs' Hp Hframe.
  destruct (Permutation_Forall2 (symmetry Hp) Hvs) as (vs2 & Hp2 & Hvs2).
  assert (Heq : ∀ (k : list Pool.loc) (a b : list T),
            Pool.values st k a → Pool.values st' k b → a = b).
  { induction k as [|u k IH]; intros a b Ha Hb.
    - apply Forall2_nil_inv_l in Ha as ->. by apply Forall2_nil_inv_l in Hb as ->.
    - apply Forall2_cons_inv_l in Ha as (v & a' & Hv & Ha & ->).
      apply Forall2_cons_inv_l in Hb as (v' & b' & Hv' & Hb & ->).
      rewrite Hframe, Hv in Hv'. injection Hv' as ->. f_equal. by apply IH. }
  by rewrite Hp2, (Heq l' vs2 vs').
Qed.

(** A single-node splice, on the class invariant. *)
Lemma pool_splice_at {T lost} (st : Pool.ll_list_pool T) l1 x l2 ra rb fl :
  Pool.pool_inv st (l1 ++ x :: l2) fl lost → l1 ++ l2 = ra ++ rb →
  ∃ st', Pool.splice (Some (hd Pool.Sentinel rb)) (Some x) st = Ok tt st' ∧
    Pool.pool_inv st' (ra ++ x :: rb) fl lost ∧
    (∀ u, Pool.valuef st' u = Pool.valuef st u).
Proof.
  intros Hinv Hsplit.
  destruct (Pool.splice_contents st l1 x l2 ra rb (Pool.inv_ring _ _ _ Hinv) Hsplit)
    as (st1 & E1 & Hr1 & _ & _ & Hv1 & _).
  assert (Hx : x ∈ l1 ++ x :: l2) by set_solver.
  assert (Hp : hd Pool.Sentinel rb ∈ (l1 ++ x :: l2) ++ [Pool.Sentinel]).
  { pose proof (Ring.hd_elem Pool.Sentinel rb) as Hin.
    assert (Hsub : ∀ u, u ∈ rb → u ∈ l1 ++ l2).
    { intros u Hu. rewrite Hsplit. set_solver. }
    clear -Hin Hsub. set_solver. }
  destruct (Pool.splice_inv st _ fl x _ Hinv Hx Hp) as (st2 & l' & E2 & Hinv2 & _ & _).
  rewrite E1 in E2. injection E2 as <-.
  rewrite (Ring.ring_unique _ _ _ _ _ Hr1 (Pool.inv_ring _ _ _ Hinv2)).
  by exists st1.
Qed.

(** [splice(begin(), it)]: the node of [it] becomes the first. *)
Lemma pool_promote {T lost} (st : Pool.ll_list_pool T) l1 x l2 fl vs1 v vs2 :
  Pool.pool_inv st (l1 ++ x :: l2) fl lost →
  Pool.values st l1 vs1 → Pool.valuef st x = Some v → Pool.values st l2 vs2 →
  ∃ st', Pool.splice (Pool.begin_ st) (Some x) st = Ok tt st' ∧
    Pool.pool_inv st' (x :: l1 ++ l2) fl lost ∧
    Pool.values st' (x :: l1 ++ l2) (v :: vs1 ++ vs2) ∧
    (∀ u, Pool.valuef st' u = Pool.valuef st u).
Proof.
  intros Hinv Hvs1 Hv Hvs2.
  assert (Hbegin : Pool.begin_ st = Some (hd Pool.Sentinel (l1 ++ x :: l2))).
  { destruct Hinv as [Hr _ _ _ _ _ _ _].
    by apply (Ring.ring_next_pos _ _ _ [] (l1 ++ x :: l2)) in Hr. }
  rewrite Hbegin. destruct l1 as [|y l1'].
  - apply Forall2_nil_inv_l in Hvs1 as ->. simpl in *.
    exists st. rewrite Pool.splice_self.
    split_and!; [done|exact Hinv| |done].
    by apply Forall2_cons.
  - destruct (pool_splice_at st (y :: l1') x l2 [] ((y :: l1') ++ l2) fl Hinv eq_refl)
      as (st' & E & Hinv' & Hframe).
    exists st'. split_and!; try done.
    apply (Pool.values_frame st); [done|].
    apply List.Forall2_cons; [done|]. by apply Forall2_app.
Qed.

(** X9: [splice(begin(), it)], the promotion step of the splice benchmark,
    moves the element of [it] to the front: for [it] at index [i],
    the call returns, [begin()] equals [it] afterwards and the traversal
    yields the value at index [i] followed by the other values in their
    old order.  The size is unchanged and every iterator still yields
    the value it yielded before. *)
Theorem pool_splice_to_front :
  ∀ (T : Type) (st : Pool.ll_list_pool T) (i : nat),
    Pool.reachable st → i < N.to_nat (Pool.size st) →
    ∃ vs v it st',
      Pool.to_list (N.to_nat (Pool.size st)) st = Ok vs st ∧
      vs !! i = Some v ∧
      Pool.follow Pool.load_next (S i) (Some Pool.Sentinel) st = Ok it st ∧
      Pool.splice (Pool.begin_ st) it st = Ok tt st' ∧
      Pool.size st' = Pool.size st ∧
      Pool.begin_ st' = it ∧
      Pool.to_list (N.to_nat (Pool.size st')) st' = Ok (v :: delete i vs) st' ∧
      (∀ it0 w, Pool.iter_deref it0 st = Ok w st → Pool.iter_deref it0 st' = Ok w st').
Proof.
  intros T st i Hreach Hi.
  destruct (pool_reachable_view st Hreach) as (lost & l & fl & vs & Hinv & Hvs & Hs & _ & _).
  rewrite Hs in Hi.
  destruct (pool_split_index st l vs i Hvs Hi)
    as (l1 & x & l2 & vs1 & v & vs2 & -> & -> & Hl1 & Hv1 & Hvs1 & Hv & Hvs2).
  destruct (pool_promote st l1 x l2 fl vs1 v vs2 Hinv Hvs1 Hv Hvs2)
    as (st' & E & Hinv' & Hvs' & Hframe).
  destruct (pool_observe st _ _ _ Hinv Hvs) as [Hz Hl].
  destruct (pool_observe st' _ _ _ Hinv' Hvs') as [Hz' Hl'].
  exists (vs1 ++ v :: vs2), v, (Some x), st'. split_and!.
  - exact Hl.
  - by apply list_lookup_middle.
  - apply (pool_iter_at st (l1 ++ x :: l2)); [by destruct Hinv|].
    rewrite <- app_assoc. simpl. by apply list_lookup_middle.
  - exact E.
  - rewrite Hz', Hz. simpl. rewrite !length_app. simpl. f_equal. lia.
  - destruct Hinv' as [Hr' _ _ _ _ _ _ _].
    by apply (Ring.ring_next_pos _ _ _ [] (x :: l1 ++ l2)) in Hr'.
  - rewrite <- Hv1, delete_middle. exact Hl'.
  - intros it0 w (u & -> & Hu)%pool_deref_value. apply pool_deref_value.
    exists u. by rewrite Hframe.
Qed.

(** Promoting the last element of [1, 2, 3]. *)
Lemma pool_splice_to_front_witness :
  ∃ it st', Pool.splice (Pool.begin_ Examples.list123) it Examples.list123 = Ok tt st' ∧
    Pool.to_list 3 st' = Ok [3; 1; 2] st'.
Proof.
  destruct (pool_splice_to_front nat Examples.list123 2 Examples.list123_reachable)
    as (vs & v & it & st' & Hl & Hv & _ & E & Hz & _ & Hl' & _); [vm_compute; lia|].
  exists it, st'. split; [exact E|].
  vm_compute in Hl. injection Hl as <-.
  vm_compute in Hv. injection Hv as <-.
  rewrite Hz in Hl'. exact Hl'.
Defined.

(** X10: [splice(begin(), --end())], the call of the list demonstration,
    rotates the list by one: it returns, and the traversal then yields the
    old last value followed by the other values in their old order.  On
    an empty list, where [--end()] is [end()], it changes nothing at all. *)
Theorem pool_splice_back_to_front :
  ∀ (T : Type) (st : Pool.ll_list_pool T),
    Pool.reachable st →
    ∃ vs last st',
      Pool.to_list (N.to_nat (Pool.size st)) st = Ok vs st ∧
      Pool.iter_decr (Pool.end_ st) st = Ok last st ∧
      Pool.splice (Pool.begin_ st) last st = Ok tt st' ∧
      Pool.size st' = Pool.size st ∧
      Pool.to_list (N.to_nat (Pool.size st')) st'
        = Ok (drop (length vs - 1) vs ++ take (length vs - 1) vs) st' ∧
      (vs = [] → st' = st).
Proof.
  intros T st Hreach.
  destruct (pool_reachable_view st Hreach) as (lost & l & fl & vs & Hinv & Hvs & Hs & _ & _).
  destruct (pool_observe st _ _ _ Hinv Hvs) as [Hz Hl].
  assert (Hlast : Pool.iter_decr (Pool.end_ st) st
                  = Ok (Some (Ring.lastd Pool.Sentinel l)) st).
  { apply Pool.load_prev_ok. destruct Hinv as [Hr _ _ _ _ _ _ _].
    rewrite <- (app_nil_r l) in Hr. by apply Ring.ring_prev_pos in Hr. }
  induction l as [|x l1 _] using rev_ind.
  - apply Forall2_nil_inv_l in Hvs as ->.
    assert (Hbegin : Pool.begin_ st = Some Pool.Sentinel).
    { destruct Hinv as [Hr _ _ _ _ _ _ _].
      by apply (Ring.ring_next_pos _ _ _ [] []) in Hr. }
    exists [], (Some Pool.Sentinel), st.
    rewrite Hbegin, Pool.splice_self. by rewrite Ring.lastd_nil in Hlast.
  - apply Forall2_app_inv_l in Hvs as (vs1 & vs2 & Hvs1 & Hvs2 & ->).
    apply Forall2_cons_inv_l in Hvs2 as (v & vs3 & Hv & Hvs3 & ->).
    apply Forall2_nil_inv_l in Hvs3 as ->.
    rewrite Ring.lastd_snoc in Hlast.
    destruct (pool_promote st l1 x [] fl vs1 v [] Hinv Hvs1 Hv (List.Forall2_nil _))
      as (st' & E & Hinv' & Hvs' & _).
    rewrite !app_nil_r in Hinv'. rewrite !app_nil_r in Hvs'.
    destruct (pool_observe st' _ _ _ Hinv' Hvs') as [Hz' Hl'].
    pose proof (Forall2_length _ _ _ Hvs1) as Hlen.
    exists (vs1 ++ [v]), (Some x), st'. split_and!; [done|done|done| | |].
    + rewrite Hz', Hz, length_app. simpl. f_equal. lia.
    + rewrite length_app. simpl.
      replace (length vs1 + 1 - 1) with (length vs1) by lia.
      by rewrite drop_app_length, take_app_length.
    + intros Heq. by destruct vs1.
Qed.

(** The list [1, 2, 3] becomes [3, 1, 2]. *)
Lemma pool_splice_back_to_front_witness :
  ∃ last st',
    Pool.splice (Pool.begin_ Examples.list123) last Examples.list123 = Ok tt st' ∧
    Pool.to_list 3 st' = Ok [3; 1; 2] st'.
Proof.
  destruct (pool_splice_back_to_front nat Examples.list123 Examples.list123_reachable)
    as (vs & last & st' & Hl & _ & E & Hz & Hl' & _).
  exists last, st'. split; [exact E|].
  vm_compute in Hl. injection Hl as <-.
  rewrite Hz in Hl'. exact Hl'.
Defined.

(** X11: neither splice allocates, frees or moves a value: a single-node
    or range splice made within its contract returns, leaves [size()],
    the capacity and the head of the free list as they were, lets every
    iterator yield the value it yielded before, and the traversal
    afterwards yields a permutation of the values it yielded before. *)
Theorem pool_splice_moves_no_value :
  ∀ (T : Type) (st : Pool.ll_list_pool T) (l : list Pool.loc) (c : Pool.call T),
    Pool.reachable st → Pool.contents st l → Pool.allowed l c →
    match c with Pool.Splice _ _ | Pool.SpliceRange _ _ _ => True | _ => False end →
    ∃ vs vs' st',
      Pool.to_list (N.to_nat (Pool.size st)) st = Ok vs st ∧
      Pool.run c st = Ok tt st' ∧
      Pool.size st' = Pool.size st ∧
      Pool.cap_ st' = Pool.cap_ st ∧
      Pool.free_ st' = Pool.free_ st ∧
      Pool.to_list (N.to_nat (Pool.size st')) st' = Ok vs' st' ∧
      vs' ≡ₚ vs ∧
      (∀ it w, Pool.iter_deref it st = Ok w st → Pool.iter_deref it st' = Ok w st').
Proof.
  intros T st l c Hreach Hr Hallowed Hc.
  destruct (pool_reachable_view st Hreach) as (lost & l0 & fl & vs & Hinv & Hvs & _ & _ & _).
  assert (l0 = l) as -> by exact (Ring.ring_unique _ _ _ _ _ (Pool.inv_ring _ _ _ Hinv) Hr).
  assert (Hstep : ∃ st' l', Pool.run c st = Ok tt st' ∧ Pool.pool_inv st' l' fl lost ∧
                    l' ≡ₚ l ∧ (∀ u, Pool.valuef st' u = Pool.valuef st u)).
  { destruct c as [| | |pos what|pos first last|]; try done; simpl in Hallowed.
    - destruct Hallowed as (p & x & -> & -> & Hx & Hp).
      by apply Pool.splice_inv.
    - destruct Hallowed as (l1 & r & l2 & p & -> & -> & -> & -> & Hp).
      by apply Pool.splice_range_inv. }
  destruct Hstep as (st' & l' & E & Hinv' & Hperm & Hframe).
  destruct (Pool.values_exist st' l' (Pool.inv_live _ _ _ Hinv')) as [vs' Hvs'].
  destruct (pool_observe st _ _ _ Hinv Hvs) as [Hz Hl].
  destruct (pool_observe st' _ _ _ Hinv' Hvs') as [Hz' Hl'].
  pose proof (Pool.pool_inv_length _ _ _ Hinv) as Hlen.
  pose proof (Pool.pool_inv_length _ _ _ Hinv') as Hlen'.
  exists vs, vs', st'. split_and!; [done|done| | | |done| |].
  - by rewrite Hz', Hz, Hperm.
  - rewrite (Pool.inv_cap _ _ _ Hinv), (Pool.inv_cap _ _ _ Hinv').
    rewrite <- Hlen, <- Hlen'. by rewrite Hperm.
  - destruct Hinv as [_ Hf _ _ _ _ _ _], Hinv' as [_ Hf' _ _ _ _ _ _].
    destruct fl as [|y fl']; simpl in Hf, Hf'; [congruence|].
    destruct Hf as [-> _], Hf' as [-> _]. done.
  - by apply (pool_values_perm st st' l l').
  - intros it w (u & -> & Hu)%pool_deref_value. apply pool_deref_value.
    exists u. by rewrite Hframe.
Qed.

(** Moving the first element of [1, 2, 3] before [end()]. *)
Lemma pool_splice_moves_no_value_witness :
  ∃ st', Pool.splice (Some Pool.Sentinel) (Some (Pool.Slot 3)) Examples.list123
           = Ok tt st' ∧
    Pool.size st' = 3%N.
Proof.
  destruct (pool_splice_moves_no_value nat Examples.list123
              [Pool.Slot 3; Pool.Slot 2; Pool.Slot 1]
              (Pool.Splice (Some Pool.Sentinel) (Some (Pool.Slot 3)))
              Examples.list123_reachable Examples.list123_contents)
    as (vs & vs' & st' & _ & E & Hz & _).
  - exists Pool.Sentinel, (Pool.Slot 3). split_and!; [done|done|set_solver|set_solver].
  - exact I.
  - exists st'. split; [exact E|exact Hz].
Defined.

(** X12: on a list none of whose element constructors has thrown,
    [clear()] gives the whole capacity back: after it, as many emplace
    calls as the capacity (at either end, in any mix) whose element
    constructors return all return, the list then holds exactly the
    values emplaced, and one more emplace throws, whatever its element
    constructor would do. *)
Theorem pool_clear_then_refill :
  ∀ (T : Type) (st : Pool.ll_list_pool T) (fuel : nat) (calls : list (bool * T)),
    Pool.intact st → N.to_nat (Pool.size st) ≤ fuel →
    length calls = N.to_nat (Pool.cap_ st) →
    ∃ st1 st2,
      Pool.clear fuel st = Ok tt st1 ∧
      Pool.emplace_all (Pool.returning calls) st1 = Ok tt st2 ∧
      Pool.size st2 = Pool.cap_ st ∧
      Pool.to_list (N.to_nat (Pool.size st2)) st2 = Ok (Pool.emplaced [] calls) st2 ∧
      (∀ c, Pool.emplace_back c st2 = Throw st2) ∧
      (∀ c, Pool.emplace_front c st2 = Throw st2).
Proof.
  intros T st fuel calls Hint Hfuel Hcalls.
  destruct (pool_intact_view st Hint) as (l & fl & vs & Hinv & _ & Hs & _ & Hc).
  rewrite Hs in Hfuel.
  destruct (Pool.clear_ok st l fl fuel Hinv Hfuel) as (st1 & E1 & Hinv1 & _).
  assert (Hfl : length (reverse l ++ fl) = length calls).
  { rewrite length_app, length_reverse. lia. }
  destruct (Pool.emplace_all_ok calls st1 [] _ [] Hinv1)
    as (st2 & l2 & fl2 & E2 & Hinv2 & Hvs2 & Hfl2).
  { apply List.Forall2_nil. }
  { lia. }
  assert (fl2 = []) as -> by (apply length_zero_iff_nil; lia).
  assert (Hfree : Pool.free_ st2 = None) by by destruct Hinv2.
  destruct (pool_observe st2 _ _ _ Hinv2 Hvs2) as [Hz2 Hl2].
  exists st1, st2. split_and!; [done|done| |done| |].
  - rewrite Hz2. apply Forall2_length in Hvs2.
    rewrite Hvs2, Pool.length_emplaced. simpl. lia.
  - intros v. by apply Pool.emplace_back_throw.
  - intros v. by apply Pool.emplace_front_throw.
Qed.

(** Clearing [1, 2, 3] (capacity 4) and emplacing four values. *)
Lemma pool_clear_then_refill_witness :
  ∃ st1 st2, Pool.clear 3 Examples.list123 = Ok tt st1 ∧
    Pool.emplace_all
      [(false, Some 5); (false, Some 6); (true, Some 7); (false, Some 8)] st1
      = Ok tt st2 ∧
    Pool.to_list 4 st2 = Ok [7; 5; 6; 8] st2.
Proof.
  destruct (pool_clear_then_refill nat Examples.list123 3
              [(false, 5); (false, 6); (true, 7); (false, 8)]
              Examples.list123_intact)
    as (st1 & st2 & E1 & E2 & Hz & Hl & _); [vm_compute; lia|reflexivity|].
  exists st1, st2. split_and!; [exact E1|exact E2|].
  rewrite Hz in Hl. exact Hl.
Defined.

(** X13: on the iterators of a reachable list, [end()] included, [++] and
    [--] are inverse to each other: incrementing and then decrementing,
    or decrementing and then incrementing, gives the iterator back. *)
Theorem pool_iterator_incr_decr :
  ∀ (T : Type) (st : Pool.ll_list_pool T) (i : nat),
    Pool.reachable st → i ≤ N.to_nat (Pool.size st) →
    ∃ it nx pv,
      Pool.follow Pool.load_next (S i) (Some Pool.Sentinel) st = Ok it st ∧
      Pool.iter_incr it st = Ok nx st ∧ Pool.iter_decr nx st = Ok it st ∧
      Pool.iter_decr it st = Ok pv st ∧ Pool.iter_incr pv st = Ok it st.
Proof.
  intros T st i Hreach Hi.
  destruct (pool_reachable_view st Hreach) as (lost & l & fl & vs & Hinv & _ & Hs & _ & _).
  rewrite Hs in Hi. destruct Hinv as [Hr _ _ _ _ _ _ _].
  destruct (lookup_lt_is_Some_2 (l ++ [Pool.Sentinel]) i) as [u Hu].
  { rewrite length_app. simpl. lia. }
  assert (Hin : u ∈ Pool.Sentinel :: l).
  { apply list_elem_of_lookup_2 in Hu. set_solver. }
  destruct (ring_links_inverse _ _ _ _ u Hr Hin) as (n & p & Hn & Hn' & Hp & Hp' & _).
  exists (Some u), (Some n), (Some p). split_and!.
  - by apply (pool_iter_at st l).
  - by apply Pool.load_next_ok.
  - by apply Pool.load_prev_ok.
  - by apply Pool.load_prev_ok.
  - by apply Pool.load_next_ok.
Qed.

(** At [end()] of the list [1, 2, 3]. *)
Lemma pool_iterator_incr_decr_witness :
  ∃ nx, Pool.iter_incr (Some Pool.Sentinel) Examples.list123 = Ok nx Examples.list123 ∧
    Pool.iter_decr nx Examples.list123 = Ok (Some Pool.Sentinel) Examples.list123.
Proof.
  destruct (pool_iterator_incr_decr nat Examples.list123 3 Examples.list123_reachable)
    as (it & nx & pv & Hit & H1 & H2 & _); [vm_compute; lia|].
  vm_compute in Hit. injection Hit as <-.
  by exists nx.
Defined.

(** X14: a call made within its contract on a reachable pool list never
    faults and never runs without end.  It returns, leaving a reachable
    list; or it is an emplace on an empty free list, which throws
    [std::bad_alloc] and leaves the list object exactly as it was; or it
    is an emplace whose element constructor throws, which leaves the
    list object as it was except for the head of the free list: that has
    moved on past the node taken for the element, which is not given
    back. *)
Theorem pool_calls_return_or_throw :
  ∀ (T : Type) (st : Pool.ll_list_pool T) (l : list Pool.loc) (c : Pool.call T),
    Pool.reachable st → Pool.contents st l → Pool.allowed l c →
    (∃ st', Pool.run c st = Ok tt st' ∧ Pool.reachable st') ∨
    (Pool.run c st = Throw st ∧ Pool.free_ st = None ∧
     ∃ c0, c = Pool.EmplaceFront c0 ∨ c = Pool.EmplaceBack c0) ∨
    (∃ x, Pool.free_ st = Some x ∧
       (c = Pool.EmplaceFront None ∨ c = Pool.EmplaceBack None) ∧
       Pool.run c st = Throw (Pool.set_free (Pool.nextf st x) st) ∧
       Pool.reachable (Pool.set_free (Pool.nextf st x) st)).
Proof.
  intros T st l c Hreach Hr Hallowed.
  destruct (pool_reachable_view st Hreach)
    as (lost & l0 & fl & vs & Hinv & _ & Hs & _ & Hc).
  assert (l0 = l) as -> by exact (Ring.ring_unique _ _ _ _ _ (Pool.inv_ring _ _ _ Hinv) Hr).
  destruct (Pool.run_inv st l fl c Hinv Hallowed)
    as [(st' & l' & fl' & E & _)|[[E ->]|(x & fl' & -> & Hk & E & _)]].
  - left. exists st'. split; [exact E|].
    by apply (Pool.reach_return st l c st').
  - right. left. split_and!.
    + exact E.
    + by apply (pool_free_empty st l [] Hinv).
    + destruct c as [c0|c0|it|pos what|pos first last|fuel]; [by eauto|by eauto|..].
      * destruct Hallowed as (x & -> & Hx).
        apply list_elem_of_split in Hx as (l1 & l2 & ->).
        destruct (Pool.erase_ok st l1 x l2 [] Hinv) as (st' & E' & _).
        simpl in E. unfold mbind, M_bind, bind in E. by rewrite E' in E.
      * destruct Hallowed as (p & x & -> & -> & Hx & Hp).
        destruct (Pool.splice_inv st l [] x p Hinv Hx Hp) as (st' & l' & E' & _).
        simpl in E. congruence.
      * destruct Hallowed as (l1 & r & l2 & p & -> & -> & -> & -> & Hp).
        destruct (Pool.splice_range_inv st l1 r l2 [] p Hinv Hp) as (st' & l' & E' & _).
        simpl in E. congruence.
      * simpl in Hallowed.
        destruct (Pool.clear_ok st l [] fuel Hinv Hallowed) as (st' & E' & _).
        simpl in E. congruence.
  - right. right. exists x. split_and!.
    + by destruct Hinv as [_ [? _] _ _ _ _ _ _].
    + destruct c as [[v|]|[v|]|it|pos what|pos first last|fuel]; simpl in Hk;
        try (by destruct Hk); [by left|by right].
    + exact E.
    + by apply (Pool.reach_throw st l c).
Qed.

(** Erasing the first element of [1, 2, 3]. *)
Lemma pool_calls_return_or_throw_witness :
  ∃ st', Pool.run (Pool.Erase (Some (Pool.Slot 3))) Examples.list123 = Ok tt st' ∧
    Pool.reachable st'.
Proof.
  destruct (pool_calls_return_or_throw nat Examples.list123
              [Pool.Slot 3; Pool.Slot 2; Pool.Slot 1]
              (Pool.Erase (Some (Pool.Slot 3)))
              Examples.list123_reachable Examples.list123_contents)
    as [Hok|[[E _]|(x & _ & _ & E & _)]].
  - exists (Pool.Slot 3). split; [done|set_solver].
  - exact Hok.
  - vm_compute in E. discriminate.
  - vm_compute in E. discriminate.
Defined.

(** * Further properties of the intrusive list

    What the member functions that the statements above leave out do on a
    list in a reachable memory, as a caller observes it: through
    [empty()], [front()], [back()], [is_linked()] and the traversal. *)

(** The traversal loop returns only the hooks that the links lead
    through, and only when given room for all of them. *)
Lemma hooks_from_inv {E} this (m : gmap nat (Intrusive.object E)) :
  ∀ l0 fuel l m',
    this ∉ l0 →
    Ring.walk (Intrusive.nextf m) (hd this l0) (tl (l0 ++ [this])) →
    Intrusive.hooks_from fuel this (Some (hd this l0)) m = Ok l m' →
    l = l0 ∧ length l0 ≤ fuel.
Proof.
  induction l0 as [|x l0 IH]; intros fuel l m' Hs Hw Hrun.
  - simpl in Hrun. destruct fuel; simpl in Hrun; rewrite decide_True in Hrun by done;
      injection Hrun as <- _; (split; [done|simpl; lia]).
  - change (hd this (x :: l0)) with x in Hrun.
    assert (Hx : Intrusive.nextf m x = Some (hd this l0) ∧
                 Ring.walk (Intrusive.nextf m) (hd this l0) (tl (l0 ++ [this]))).
    { destruct l0; simpl in *; tauto. }
    destruct Hx as [Hx Hw'].
    destruct fuel as [|fuel]; simpl in Hrun;
      rewrite decide_False in Hrun by (intros ->; set_solver); [done|].
    rewrite (bind_Ok _ _ _ _ _ (Intrusive.hook_load_next_ok _ _ _ Hx)) in Hrun.
    unfold mbind, M_bind, bind in Hrun.
    destruct (Intrusive.hooks_from fuel this (Some (hd this l0)) m)
      as [hs m''| | |] eqn:Erec; try done.
    injection Hrun as <- _.
    destruct (IH fuel hs m'') as [-> Hlen]; [set_solver|done|done|].
    split; [done|simpl; lia].
Qed.

(** A reachable memory in which the traversal has yielded [l]. *)
Lemma hook_traversed {E} this (m : gmap nat (Intrusive.object E)) fuel l :
  Intrusive.reachable this m → Intrusive.to_list fuel this m = Ok l m →
  Intrusive.list_inv this m l ∧ length l ≤ fuel.
Proof.
  intros Hreach Hl.
  destruct (Intrusive.hook_reachable_inv this m Hreach) as (l0 & Hinv).
  pose proof Hinv as [Hr _].
  pose proof (Ring.ring_NoDup _ _ _ _ Hr) as Hnd.
  pose proof (Ring.ring_next_pos _ _ _ [] l0 Hr) as Hn.
  simpl in Hn. rewrite Ring.lastd_nil in Hn.
  unfold Intrusive.to_list, Intrusive.front in Hl.
  rewrite (bind_Ok _ _ _ _ _ (Intrusive.hook_load_next_ok _ _ _ Hn)) in Hl.
  destruct (hooks_from_inv this m l0 fuel l m) as [-> Hlen]; [| |done|done].
  - clear -Hnd. nodup_solver.
  - destruct Hr as (_ & Hw & _). destruct l0; simpl in *; tauto.
Qed.

(** What [front()], [back()] and [empty()] return on a list that holds [l]. *)
Lemma hook_observe {E} this (m : gmap nat (Intrusive.object E)) l :
  Intrusive.contents this m l →
  Intrusive.front this m = Ok (Some (hd this l)) m ∧
  Intrusive.back this m = Ok (Some (List.last l this)) m ∧
  Intrusive.empty this m = Ok (bool_decide (l = [])) m.
Proof.
  intros Hr.
  pose proof (Ring.ring_NoDup _ _ _ _ Hr) as Hnd.
  pose proof (Ring.ring_next_pos _ _ _ [] l Hr) as Hn.
  pose proof Hr as Hp. rewrite <- (app_nil_r l) in Hp.
  apply Ring.ring_prev_pos in Hp. simpl in Hn, Hp. rewrite Ring.lastd_nil in Hn.
  split_and!.
  - by apply Intrusive.hook_load_next_ok.
  - by apply Intrusive.hook_load_prev_ok.
  - rewrite (Intrusive.empty_ok this m _ Hn). do 2 f_equal.
    apply bool_decide_ext. destruct l as [|x l']; simpl; [done|].
    split; [|done]. intros ->. clear -Hnd. nodup_solver.
Qed.

(** A hook of a list reports that it is linked. *)
Lemma hook_linked_in_list {E} this (m : gmap nat (Intrusive.object E)) l h :
  Intrusive.contents this m l → h ∈ this :: l →
  Intrusive.load_is_linked (Some h) m = Ok true m.
Proof.
  intros Hr Hh.
  destruct (ring_links_inverse _ _ _ _ h Hr Hh) as (n & p & Hn & _ & Hp & _).
  by apply (Intrusive.load_is_linked_true h p n).
Qed.

(** Two hooks on a list: the memory after [push_back] of hooks 1 and 2. *)
Lemma hooks12_reachable : Intrusive.reachable 0 Examples.hooks12.
Proof.
  apply (Intrusive.reach_return 0 Examples.hooks1 [1] (Intrusive.PushBack (Some 2))).
  - apply Examples.hooks1_reachable.
  - apply Examples.hooks1_contents.
  - exists 2. split; [done|]. split; [|split]; vm_compute; eauto.
  - vm_compute. reflexivity.
Qed.

(** X15: the constructor, run on the storage of a list object, leaves an
    empty list: [empty()] is true, [front()] and [back()] are [end()], the
    traversal visits nothing; no other object is touched. *)
Theorem hook_list_construct_empty :
  ∀ (E : Type) (this : nat) (m : gmap nat (Intrusive.object E)),
    Intrusive.valid m this →
    ∃ m',
      Intrusive.construct this m = Ok tt m' ∧
      Intrusive.empty this m' = Ok true m' ∧
      Intrusive.front this m' = Ok (Intrusive.end_ this) m' ∧
      Intrusive.back this m' = Ok (Intrusive.end_ this) m' ∧
      (∀ fuel, Intrusive.to_list fuel this m' = Ok [] m') ∧
      (∀ u, u ≠ this → m' !! u = m !! u).
Proof.
  intros E this m Hv.
  destruct (Intrusive.hook_construct_ok this m Hv) as (m' & Ec & Hr & Hframe & Hobj).
  destruct (hook_observe this m' [] Hr) as (Hf & Hb & He).
  exists m'. split_and!; try done.
  - intros fuel. apply Intrusive.hook_to_list_ok; [done|simpl; lia].
  - intros u Hu. destruct (Hframe u Hu) as [Hn Hp]. destruct Hobj as [Hval Hfld].
    by apply Intrusive.object_ext.
Qed.

(** The list object at 0 of the example memory. *)
Lemma hook_list_construct_empty_witness :
  ∃ m', Intrusive.construct 0 Examples.fresh_memory = Ok tt m' ∧
    Intrusive.empty 0 m' = Ok true m'.
Proof.
  destruct (hook_list_construct_empty nat 0 Examples.fresh_memory)
    as (m' & Ec & He & _); [vm_compute; eauto|].
  by exists m'.
Defined.

(** X16: [push_back] of a hook that is linked nowhere appends it: the
    call returns, the traversal then yields the old hooks followed by the
    new one, [back()] returns it and its [is_linked()] is true.  No
    object is created or destroyed and nothing outside the hooks is
    written. *)
Theorem hook_push_back_appends :
  ∀ (E : Type) (this : nat) (m : gmap nat (Intrusive.object E)) (fuel : nat)
    (l : list nat) (h : nat),
    Intrusive.reachable this m → Intrusive.to_list fuel this m = Ok l m →
    Intrusive.unlinked m h →
    ∃ m',
      Intrusive.push_back this (Some h) m = Ok tt m' ∧
      Intrusive.to_list (S fuel) this m' = Ok (l ++ [h]) m' ∧
      Intrusive.back this m' = Ok (Some h) m' ∧
      Intrusive.empty this m' = Ok false m' ∧
      Intrusive.load_is_linked (Some h) m' = Ok true m' ∧
      Intrusive.same_objects m m'.
Proof.
  intros E this m fuel l h Hreach Hl Hu.
  destruct (hook_traversed this m fuel l Hreach Hl) as [[Hr Hout] Hlen].
  pose proof (Intrusive.unlinked_fresh this m l h Hr Hu) as Hfresh.
  destruct (Intrusive.push_back_ok this m l h Hr (proj1 Hu) Hfresh)
    as (m' & Ep & Hr' & _ & Hobj).
  destruct (hook_observe this m' _ Hr') as (_ & Hb & He).
  exists m'. split_and!; [done| | | | |done].
  - apply Intrusive.hook_to_list_ok; [done|]. rewrite length_app. simpl. lia.
  - by rewrite last_last in Hb.
  - rewrite He. do 2 f_equal. apply bool_decide_eq_false. by destruct l.
  - apply (hook_linked_in_list this m' (l ++ [h])); [done|set_solver].
Qed.

(** Pushing hook 2 behind hook 1. *)
Lemma hook_push_back_appends_witness :
  ∃ m', Intrusive.push_back 0 (Some 2) Examples.hooks1 = Ok tt m' ∧
    Intrusive.to_list 2 0 m' = Ok [1; 2] m'.
Proof.
  destruct (hook_push_back_appends nat 0 Examples.hooks1 1 [1] 2 Examples.hooks1_reachable)
    as (m' & Ep & Hl' & _).
  - vm_compute. reflexivity.
  - split; [|split]; vm_compute; eauto.
  - by exists m'.
Defined.

(** X17: [push_front] of a hook that is linked nowhere prepends it: the
    call returns, the traversal then yields the new hook followed by the
    old ones, [front()] returns it and its [is_linked()] is true.  No
    object is created or destroyed and nothing outside the hooks is
    written. *)
Theorem hook_push_front_prepends :
  ∀ (E : Type) (this : nat) (m : gmap nat (Intrusive.object E)) (fuel : nat)
    (l : list nat) (h : nat),
    Intrusive.reachable this m → Intrusive.to_list fuel this m = Ok l m →
    Intrusive.unlinked m h →
    ∃ m',
      Intrusive.push_front this (Some h) m = Ok tt m' ∧
      Intrusive.to_list (S fuel) this m' = Ok (h :: l) m' ∧
      Intrusive.front this m' = Ok (Some h) m' ∧
      Intrusive.empty this m' = Ok false m' ∧
      Intrusive.load_is_linked (Some h) m' = Ok true m' ∧
      Intrusive.same_objects m m'.
Proof.
  intros E this m fuel l h Hreach Hl Hu.
  destruct (hook_traversed this m fuel l Hreach Hl) as [[Hr Hout] Hlen].
  pose proof (Intrusive.unlinked_fresh this m l h Hr Hu) as Hfresh.
  destruct (Intrusive.push_front_ok this m l h Hr (proj1 Hu) Hfresh)
    as (m' & Ep & Hr' & _ & Hobj).
  destruct (hook_observe this m' _ Hr') as (Hf & _ & He).
  exists m'. split_and!; [done| |done|done| |done].
  - apply Intrusive.hook_to_list_ok; [done|]. simpl. lia.
  - apply (hook_linked_in_list this m' (h :: l)); [done|set_solver].
Qed.

(** Pushing hook 2 in front of hook 1. *)
Lemma hook_push_front_prepends_witness :
  ∃ m', Intrusive.push_front 0 (Some 2) Examples.hooks1 = Ok tt m' ∧
    Intrusive.to_list 2 0 m' = Ok [2; 1] m'.
Proof.
  destruct (hook_push_front_prepends nat 0 Examples.hooks1 1 [1] 2
              Examples.hooks1_reachable)
    as (m' & Ep & Hl' & _).
  - vm_compute. reflexivity.
  - split; [|split]; vm_compute; eauto.
  - by exists m'.
Defined.

(** Linking an unlinked hook into a gap of the list and removing it
    again restores the memory. *)
Lemma hook_link_remove {E} this (m : gmap nat (Intrusive.object E)) ra rb h :
  Intrusive.contents this m (ra ++ rb) → Intrusive.unlinked m h →
  ∃ m1, Intrusive.link_between (Some h) (Some (Ring.lastd this ra))
          (Some (hd this rb)) m = Ok tt m1 ∧
    Intrusive.contents this m1 (ra ++ h :: rb) ∧
    Intrusive.remove this (Some h) m1 = Ok tt m.
Proof.
  intros Hr Hu.
  pose proof (Intrusive.unlinked_fresh this m _ h Hr Hu) as Hfresh.
  pose proof (Ring.ring_next_pos _ _ _ ra rb Hr) as HnA.
  pose proof (Ring.ring_prev_pos _ _ _ ra rb Hr) as HpB.
  destruct (Intrusive.link_into this m ra rb h Hr (proj1 Hu) Hfresh)
    as (m1 & E1 & Hr1 & Hn1 & Hp1 & Hobj1).
  destruct (Intrusive.remove_ok this m1 ra h rb Hr1)
    as (m2 & E2 & _ & _ & Hn2 & Hp2 & Hobj2).
  exists m1. split_and!; [done|done|].
  replace m with m2; [done|].
  destruct Hu as (_ & Hhp & Hhn).
  destruct (Intrusive.same_objects_trans _ _ _ Hobj1 Hobj2) as [Hval Hfld].
  apply map_eq. intros u. apply Intrusive.object_ext; [done| | |done].
  - rewrite Hn2, Hn1. clear -HnA Hhn. repeat case_decide; congruence.
  - rewrite Hp2, Hp1. clear -HpB Hhp. repeat case_decide; congruence.
Qed.

(** X18: a push of an unlinked hook at either end followed by [remove]
    of that hook restores the whole memory: every object, the list
    object included, is exactly as it was before the two calls. *)
Theorem hook_push_remove_roundtrip :
  ∀ (E : Type) (this : nat) (m : gmap nat (Intrusive.object E)) (h : nat),
    Intrusive.reachable this m → Intrusive.unlinked m h →
    (∃ m1, Intrusive.push_back this (Some h) m = Ok tt m1 ∧
           Intrusive.remove this (Some h) m1 = Ok tt m) ∧
    (∃ m1, Intrusive.push_front this (Some h) m = Ok tt m1 ∧
           Intrusive.remove this (Some h) m1 = Ok tt m).
Proof.
  intros E this m h Hreach Hu.
  destruct (Intrusive.hook_reachable_inv this m Hreach) as (l & [Hr _]).
  destruct (hook_observe this m l Hr) as (Hf & Hb & _).
  split.
  - pose proof Hr as Hr0. rewrite <- (app_nil_r l) in Hr0.
    destruct (hook_link_remove this m l [] h Hr0 Hu) as (m1 & E1 & _ & E2).
    exists m1. split; [|done].
    unfold Intrusive.push_back. unfold Intrusive.back in Hb.
    by rewrite (bind_Ok _ _ _ _ _ Hb).
  - destruct (hook_link_remove this m [] l h Hr Hu) as (m1 & E1 & _ & E2).
    exists m1. split; [|done].
    unfold Intrusive.push_front. unfold Intrusive.front in Hf.
    rewrite (bind_Ok _ _ _ _ _ Hf). by rewrite Ring.lastd_nil in E1.
Qed.

(** Hook 2 pushed behind hook 1 and removed again. *)
Lemma hook_push_remove_roundtrip_witness :
  ∃ m1, Intrusive.push_back 0 (Some 2) Examples.hooks1 = Ok tt m1 ∧
    Intrusive.remove 0 (Some 2) m1 = Ok tt Examples.hooks1.
Proof.
  destruct (hook_push_remove_roundtrip nat 0 Examples.hooks1 2 Examples.hooks1_reachable)
    as [H _].
  - split; [|split]; vm_compute; eauto.
  - exact H.
Defined.

(** Taking one element out of a list without repetitions. *)
Lemma filter_out_middle {A} `{!EqDecision A} (x : A) (l1 l2 : list A) :
  NoDup (l1 ++ x :: l2) → filter (.≠ x) (l1 ++ x :: l2) = l1 ++ l2.
Proof.
  intros Hnd. rewrite filter_app, filter_cons_False by (by intros ?).
  rewrite <- filter_app.
  assert (Hx : x ∉ l1 ++ l2) by (clear -Hnd; nodup_solver).
  induction (l1 ++ l2) as [|y k IH]; [done|].
  rewrite filter_cons_True by set_solver. f_equal. apply IH. set_solver.
Qed.

(** X19: [remove] of a hook of the list takes it out: the call returns,
    the traversal then yields the old hooks without that one, in their
    old order, and the hook is unlinked, its [is_linked()] false, so that
    it may be pushed again.  No object is created or destroyed and
    nothing outside the hooks is written. *)
Theorem hook_remove_linked :
  ∀ (E : Type) (this : nat) (m : gmap nat (Intrusive.object E)) (fuel : nat)
    (l : list nat) (h : nat),
    Intrusive.reachable this m → Intrusive.to_list fuel this m = Ok l m →
    h ∈ l →
    ∃ m',
      Intrusive.remove this (Some h) m = Ok tt m' ∧
      Intrusive.to_list fuel this m' = Ok (filter (.≠ h) l) m' ∧
      Intrusive.load_is_linked (Some h) m = Ok true m ∧
      Intrusive.load_is_linked (Some h) m' = Ok false m' ∧
      Intrusive.unlinked m' h ∧
      Intrusive.same_objects m m'.
Proof.
  intros E this m fuel l h Hreach Hl Hin.
  destruct (hook_traversed this m fuel l Hreach Hl) as [[Hr _] Hlen].
  pose proof (Ring.ring_NoDup _ _ _ _ Hr) as Hnd.
  assert (Hlinked : Intrusive.load_is_linked (Some h) m = Ok true m).
  { apply (hook_linked_in_list this m l); [done|set_solver]. }
  apply list_elem_of_split in Hin as (l1 & l2 & ->).
  destruct (Intrusive.remove_ok this m l1 h l2 Hr)
    as (m' & Er & Hr' & Hu' & _ & _ & Hobj).
  exists m'. split_and!; [done| |done| |done|done].
  - rewrite filter_out_middle by (by apply NoDup_cons in Hnd as [_ ?]).
    apply Intrusive.hook_to_list_ok; [done|].
    rewrite !length_app in *. simpl in *. lia.
  - by apply Intrusive.load_is_linked_false.
Qed.

(** Removing hook 1 from the list [1, 2]. *)
Lemma hook_remove_linked_witness :
  ∃ m', Intrusive.remove 0 (Some 1) Examples.hooks12 = Ok tt m' ∧
    Intrusive.to_list 2 0 m' = Ok [2] m'.
Proof.
  destruct (hook_remove_linked nat 0 Examples.hooks12 2 [1; 2] 1 hooks12_reachable)
    as (m' & Er & Hl' & _).
  - vm_compute. reflexivity.
  - repeat constructor.
  - by exists m'.
Defined.

(** X20: [clear()] (its loop given room for as many iterations as the list
    holds hooks) returns and leaves the list empty; every hook it held
    is unlinked afterwards, [is_linked()] false, and may be pushed again.
    Objects that were not on the list are exactly as before, and nothing
    outside the hooks is written. *)
Theorem hook_clear_unlinks_all :
  ∀ (E : Type) (this : nat) (m : gmap nat (Intrusive.object E)) (fuel : nat)
    (l : list nat),
    Intrusive.reachable this m → Intrusive.to_list fuel this m = Ok l m →
    ∃ m',
      Intrusive.clear fuel this m = Ok tt m' ∧
      Intrusive.empty this m' = Ok true m' ∧
      (∀ fuel', Intrusive.to_list fuel' this m' = Ok [] m') ∧
      (∀ h, h ∈ l → Intrusive.unlinked m' h ∧
                    Intrusive.load_is_linked (Some h) m' = Ok false m') ∧
      (∀ u, u ∉ this :: l → m' !! u = m !! u) ∧
      Intrusive.same_objects m m'.
Proof.
  intros E this m fuel l Hreach Hl.
  destruct (hook_traversed this m fuel l Hreach Hl) as [[Hr _] Hfuel].
  destruct (Intrusive.hook_clear_ok this l m fuel Hr Hfuel)
    as (m' & Ec & Hr' & Hun & Hframe & Hobj).
  destruct (hook_observe this m' [] Hr') as (_ & _ & He).
  exists m'. split_and!; [done|done| | | |done].
  - intros fuel'. apply Intrusive.hook_to_list_ok; [done|simpl; lia].
  - intros h Hh. split; [by apply Hun|]. by apply Intrusive.load_is_linked_false, Hun.
  - intros u Hu. destruct (Hframe u Hu) as [Hn Hp]. destruct Hobj as [Hval Hfld].
    by apply Intrusive.object_ext.
Qed.

(** Clearing the list [1, 2]. *)
Lemma hook_clear_unlinks_all_witness :
  ∃ m', Intrusive.clear 2 0 Examples.hooks12 = Ok tt m' ∧
    Intrusive.load_is_linked (Some 2) m' = Ok false m'.
Proof.
  destruct (hook_clear_unlinks_all nat 0 Examples.hooks12 2 [1; 2] hooks12_reachable)
    as (m' & Ec & _ & _ & Hun & _).
  - vm_compute. reflexivity.
  - exists m'. split; [exact Ec|]. apply Hun. repeat constructor.
Defined.

(** X21: on a reachable list [empty()] returns true exactly when the
    traversal visits nothing; [front()] returns the first hook visited
    and [back()] the last one, and both return [end()] exactly when the
    list is empty. *)
Theorem hook_front_back_empty :
  ∀ (E : Type) (this : nat) (m : gmap nat (Intrusive.object E)) (fuel : nat)
    (l : list nat),
    Intrusive.reachable this m → Intrusive.to_list fuel this m = Ok l m →
    Intrusive.empty this m = Ok (bool_decide (l = [])) m ∧
    Intrusive.front this m = Ok (Some (hd this l)) m ∧
    Intrusive.back this m = Ok (Some (List.last l this)) m ∧
    (Intrusive.front this m = Ok (Intrusive.end_ this) m ↔ l = []) ∧
    (Intrusive.back this m = Ok (Intrusive.end_ this) m ↔ l = []).
Proof.
  intros E this m fuel l Hreach Hl.
  destruct (hook_traversed this m fuel l Hreach Hl) as [[Hr _] _].
  destruct (hook_observe this m l Hr) as (Hf & Hb & He).
  pose proof (Ring.ring_NoDup _ _ _ _ Hr) as Hnd.
  split_and!; [done|done|done| |].
  - rewrite Hf. unfold Intrusive.end_. split.
    + intros [= Heq]. destruct l as [|x l']; [done|].
      simpl in Heq. subst x. clear -Hnd. nodup_solver.
    + by intros ->.
  - rewrite Hb. unfold Intrusive.end_. split.
    + intros [= Heq]. destruct (decide (l = [])) as [|Hne]; [done|].
      pose proof (Ring.lastd_elem_nonempty this l Hne) as Hin.
      unfold Ring.lastd in Hin. rewrite Heq in Hin. clear -Hnd Hin. nodup_solver.
    + by intros ->.
Qed.

(** The list [1, 2]. *)
Lemma hook_front_back_empty_witness :
  Intrusive.empty 0 Examples.hooks12 = Ok false Examples.hooks12 ∧
  Intrusive.front 0 Examples.hooks12 = Ok (Some 1) Examples.hooks12 ∧
  Intrusive.back 0 Examples.hooks12 = Ok (Some 2) Examples.hooks12.
Proof.
  destruct (hook_front_back_empty nat 0 Examples.hooks12 2 [1; 2] hooks12_reachable)
    as (He & Hf & Hb & _); [vm_compute; reflexivity|].
  split_and!; [exact He|exact Hf|exact Hb].
Defined.

(** X22: a call made within its contract on a reachable intrusive list
    never faults and never runs without end: it returns and leaves a
    reachable list.  It creates and destroys no object and writes nothing
    outside the hooks. *)
Theorem hook_calls_return :
  ∀ (E : Type) (this : nat) (m : gmap nat (Intrusive.object E)) (l : list nat)
    (c : Intrusive.call),
    Intrusive.reachable this m → Intrusive.contents this m l →
    Intrusive.allowed this m l c →
    ∃ m',
      Intrusive.run this c m = Ok tt m' ∧
      Intrusive.reachable this m' ∧
      (∀ u, Intrusive.valid m' u ↔ Intrusive.valid m u) ∧
      (∀ u, Intrusive.fieldsf m' u = Intrusive.fieldsf m u).
Proof.
  intros E this m l c Hreach Hr Hallowed.
  destruct (Intrusive.hook_reachable_inv this m Hreach) as (l0 & Hinv).
  assert (l0 = l) as -> by exact (Ring.ring_unique _ _ _ _ _ (proj1 Hinv) Hr).
  destruct (Intrusive.hook_run_inv this m l c Hinv Hallowed)
    as (m' & l' & Erun & _ & [Hval Hfld]).
  exists m'. split_and!; [done| |done|done].
  by apply (Intrusive.reach_return this m l c m').
Qed.

(** Removing hook 1. *)
Lemma hook_calls_return_witness :
  ∃ m', Intrusive.run 0 (Intrusive.Remove (Some 1)) Examples.hooks1 = Ok tt m' ∧
    Intrusive.fieldsf m' 1 = Some (Some 10).
Proof.
  destruct (hook_calls_return nat 0 Examples.hooks1 [1] (Intrusive.Remove (Some 1))
              Examples.hooks1_reachable Examples.hooks1_contents)
    as (m' & Erun & _ & _ & Hfld).
  - exists 1. split_and!; [done|vm_compute; eauto|done].
  - exists m'. split; [exact Erun|]. rewrite Hfld. vm_compute. reflexivity.
Defined.

(** [splice(front(), h)]: the hook [h] becomes the first. *)
Lemma hook_promote {E} this (m : gmap nat (Intrusive.object E)) l1 x l2 :
  Intrusive.contents this m (l1 ++ x :: l2) →
  ∃ m', Intrusive.splice this (Some (hd this (l1 ++ x :: l2))) (Some x) m = Ok tt m' ∧
    Intrusive.contents this m' (x :: l1 ++ l2) ∧
    Intrusive.same_objects m m'.
Proof.
  intros Hr. destruct l1 as [|y l1'].
  - exists m. simpl. rewrite Intrusive.hook_splice_self.
    split_and!; [done|done|apply Intrusive.same_objects_refl].
  - destruct (Intrusive.hook_splice_contents this m (y :: l1') x l2 []
                ((y :: l1') ++ l2) Hr eq_refl) as (m' & Es & Hr' & _ & _ & Hobj).
    by exists m'.
Qed.

(** X23: [splice(front(), h)], the promotion step of the splice
    benchmark, moves a hook of the list to the front: the call returns,
    [front()] then returns [h] and the traversal yields [h] followed by
    the other hooks in their old order.  No object is created or
    destroyed and nothing outside the hooks is written. *)
Theorem hook_splice_to_front :
  ∀ (E : Type) (this : nat) (m : gmap nat (Intrusive.object E)) (fuel : nat)
    (l : list nat) (h : nat),
    Intrusive.reachable this m → Intrusive.to_list fuel this m = Ok l m →
    h ∈ l →
    ∃ m',
      (f ← Intrusive.front this; Intrusive.splice this f (Some h)) m = Ok tt m' ∧
      Intrusive.front this m' = Ok (Some h) m' ∧
      Intrusive.to_list fuel this m' = Ok (h :: filter (.≠ h) l) m' ∧
      Intrusive.same_objects m m'.
Proof.
  intros E this m fuel l h Hreach Hl Hin.
  destruct (hook_traversed this m fuel l Hreach Hl) as [[Hr _] Hlen].
  pose proof (Ring.ring_NoDup _ _ _ _ Hr) as Hnd.
  apply list_elem_of_split in Hin as (l1 & l2 & ->).
  destruct (hook_observe this m _ Hr) as (Hf & _ & _).
  destruct (hook_promote this m l1 h l2 Hr) as (m' & Es & Hr' & Hobj).
  destruct (hook_observe this m' _ Hr') as (Hf' & _ & _).
  exists m'. split_and!; [|done| |done].
  - by rewrite (bind_Ok _ _ _ _ _ Hf).
  - rewrite filter_out_middle by (by apply NoDup_cons in Hnd as [_ ?]).
    apply Intrusive.hook_to_list_ok; [done|].
    simpl. rewrite !length_app in *. simpl in *. lia.
Qed.

(** Promoting hook 2 of the list [1, 2]. *)
Lemma hook_splice_to_front_witness :
  ∃ m', Intrusive.splice 0 (Some 1) (Some 2) Examples.hooks12 = Ok tt m' ∧
    Intrusive.to_list 2 0 m' = Ok [2; 1] m'.
Proof.
  destruct (hook_splice_to_front nat 0 Examples.hooks12 2 [1; 2] 2 hooks12_reachable)
    as (m' & Es & _ & Hl' & _).
  - vm_compute. reflexivity.
  - repeat constructor.
  - exists m'. split; [exact Es|exact Hl'].
Defined.

(** X24: the guarded call [if (!empty()) splice(front(), back())] of the
    list demonstration rotates the list by one: it returns, and the
    traversal then yields the old last hook followed by the other hooks
    in their old order; an empty list is left as it is. *)
Theorem hook_splice_back_to_front :
  ∀ (E : Type) (this : nat) (m : gmap nat (Intrusive.object E)) (fuel : nat)
    (l : list nat),
    Intrusive.reachable this m → Intrusive.to_list fuel this m = Ok l m →
    ∃ m',
      (e ← Intrusive.empty this;
       if (e : bool) then mret tt
       else f ← Intrusive.front this; b ← Intrusive.back this;
            Intrusive.splice this f b) m = Ok tt m' ∧
      Intrusive.to_list fuel this m'
        = Ok (drop (length l - 1) l ++ take (length l - 1) l) m' ∧
      (l = [] → m' = m).
Proof.
  intros E this m fuel l Hreach Hl.
  destruct (hook_traversed this m fuel l Hreach Hl) as [[Hr _] Hlen].
  destruct (hook_observe this m _ Hr) as (Hf & Hb & He).
  induction l as [|x l1 _] using rev_ind.
  - exists m. rewrite (bind_Ok _ _ _ _ _ He). by split_and!.
  - rewrite last_last in Hb.
    destruct (hook_promote this m l1 x [] Hr) as (m' & Es & Hr' & _).
    rewrite app_nil_r in Hr'.
    exists m'. split_and!.
    + rewrite (bind_Ok _ _ _ _ _ He).
      rewrite bool_decide_eq_false_2 by (by destruct l1).
      rewrite (bind_Ok _ _ _ _ _ Hf). by rewrite (bind_Ok _ _ _ _ _ Hb).
    + rewrite length_app in *. simpl in *.
      replace (length l1 + 1 - 1) with (length l1) by lia.
      rewrite drop_app_length, take_app_length.
      apply Intrusive.hook_to_list_ok; [done|simpl; lia].
    + by destruct l1.
Qed.

(** The list [1, 2] becomes [2, 1]. *)
Lemma hook_splice_back_to_front_witness :
  ∃ m', Intrusive.splice 0 (Some 1) (Some 2) Examples.hooks12 = Ok tt m' ∧
    Intrusive.to_list 2 0 m' = Ok [2; 1] m'.
Proof.
  destruct (hook_splice_back_to_front nat 0 Examples.hooks12 2 [1; 2] hooks12_reachable)
    as (m' & Es & Hl' & _).
  - vm_compute. reflexivity.
  - exists m'. split; [exact Es|exact Hl'].
Defined.

(** X25: [splice] also moves a hook from one list to another.  With two
    lists in one memory that share no hook, [splice(pos, h)] for a hook
    [h] of the first list and a position [pos] of the second (one of its
    hooks, or its [end()]) returns; afterwards the first list holds its
    old hooks without [h], the second holds [h] immediately before [pos]
    and its old hooks around it, both in their old order, and either
    traversal yields just that.  No object is created or destroyed and
    nothing outside the hooks is written. *)
Theorem hook_splice_across_lists :
  ∀ (E : Type) (s1 s2 : nat) (m : gmap nat (Intrusive.object E))
    (la lb : list nat) (h p : nat),
    Intrusive.contents s1 m la → Intrusive.contents s2 m lb →
    (∀ u, u ∈ s1 :: la → u ∉ s2 :: lb) →
    h ∈ la → p ∈ lb ++ [s2] →
    ∃ m' ra rb,
      lb = ra ++ rb ∧ p = hd s2 rb ∧
      Intrusive.splice s2 (Some p) (Some h) m = Ok tt m' ∧
      Intrusive.contents s1 m' (filter (.≠ h) la) ∧
      Intrusive.contents s2 m' (ra ++ h :: rb) ∧
      Intrusive.to_list (length la) s1 m' = Ok (filter (.≠ h) la) m' ∧
      Intrusive.to_list (S (length lb)) s2 m' = Ok (ra ++ h :: rb) m' ∧
      Intrusive.same_objects m m'.
Proof.
  intros E s1 s2 m la lb h p Hr1 Hr2 Hdisj Hh Hp.
  pose proof (Ring.ring_NoDup _ _ _ _ Hr1) as Hnd1.
  pose proof (Ring.ring_NoDup _ _ _ _ Hr2) as Hnd2.
  destruct (Ring.split_at_pos s2 lb p Hp) as (ra & rb & -> & ->).
  apply list_elem_of_split in Hh as (l1 & l2 & ->).
  assert (HA : Ring.lastd s1 l1 ∈ s1 :: l1 ++ h :: l2).
  { pose proof (Ring.lastd_elem s1 l1). set_solver. }
  assert (HB : hd s1 l2 ∈ s1 :: l1 ++ h :: l2).
  { pose proof (Ring.hd_elem s1 l2). set_solver. }
  assert (Hbefore : Ring.lastd s2 ra ∈ s2 :: ra ++ rb).
  { pose proof (Ring.lastd_elem s2 ra). set_solver. }
  assert (Hpos : hd s2 rb ∈ s2 :: ra ++ rb).
  { pose proof (Ring.hd_elem s2 rb). set_solver. }
  assert (Hh1 : h ∈ s1 :: l1 ++ h :: l2) by set_solver.
  assert (Hhp : h ≠ hd s2 rb).
  { intros Heq. apply (Hdisj h Hh1). by rewrite Heq. }
  (* the hook leaves the first list *)
  destruct (Intrusive.remove_ok s1 m l1 h l2 Hr1)
    as (m1 & E1 & Hr1' & Hu1 & Hn1 & Hp1 & Hobj1).
  assert (Hfar2 : ∀ u, u ∈ s2 :: ra ++ rb →
            u ≠ h ∧ u ≠ Ring.lastd s1 l1 ∧ u ≠ hd s1 l2).
  { intros u Hu. split_and!; intros ->;
      [exact (Hdisj _ Hh1 Hu)|exact (Hdisj _ HA Hu)|exact (Hdisj _ HB Hu)]. }
  assert (Hr2' : Intrusive.contents s2 m1 (ra ++ rb)).
  { apply (Ring.ring_frame (Intrusive.nextf m) (Intrusive.prevf m)); [| |done].
    - intros u Hu. rewrite Hn1. destruct (Hfar2 u Hu) as (? & ? & ?).
      by rewrite !decide_False.
    - intros u Hu. rewrite Hp1. destruct (Hfar2 u Hu) as (? & ? & ?).
      by rewrite !decide_False. }
  (* and enters the second *)
  destruct (Intrusive.splice_unlinked s2 m1 ra rb h Hr2' Hu1)
    as (m' & E2 & Hr2'' & Hn2 & Hp2 & Hobj2).
  assert (Hfar1 : ∀ u, u ∈ s1 :: l1 ++ l2 →
            u ≠ h ∧ u ≠ Ring.lastd s2 ra ∧ u ≠ hd s2 rb).
  { intros u Hu.
    assert (Hu' : u ∈ s1 :: l1 ++ h :: l2) by (clear -Hu; set_solver).
    split_and!; intros ->;
      [clear -Hnd1 Hu; nodup_solver
      |exact (Hdisj _ Hu' Hbefore)|exact (Hdisj _ Hu' Hpos)]. }
  assert (Hr1'' : Intrusive.contents s1 m' (l1 ++ l2)).
  { apply (Ring.ring_frame (Intrusive.nextf m1) (Intrusive.prevf m1)); [| |done].
    - intros u Hu. rewrite Hn2. destruct (Hfar1 u Hu) as (? & ? & ?).
      by rewrite !decide_False.
    - intros u Hu. rewrite Hp2. destruct (Hfar1 u Hu) as (? & ? & ?).
      by rewrite !decide_False. }
  assert (Es : Intrusive.splice s2 (Some (hd s2 rb)) (Some h) m = Ok tt m').
  { unfold Intrusive.splice in E2 |- *.
    rewrite decide_False in E2 |- * by congruence.
    rewrite (bind_Ok _ _ _ _ _ (Intrusive.unlink_unlinked_ok h m1 Hu1)) in E2.
    unfold Intrusive.remove in E1. by rewrite (bind_Ok _ _ _ _ _ E1). }
  rewrite filter_out_middle by (by apply NoDup_cons in Hnd1 as [_ ?]).
  exists m', ra, rb. split_and!; [done|done|done|done|done| | |].
  - apply Intrusive.hook_to_list_ok; [done|]. rewrite !length_app. simpl. lia.
  - apply Intrusive.hook_to_list_ok; [done|]. rewrite !length_app. simpl. lia.
  - by apply (Intrusive.same_objects_trans m m1 m').
Qed.

(** Two lists in one memory: the list at 0 holds the hooks 1 and 2, the
    list at 4 holds the hook 3. *)
Definition two_lists : gmap nat (Intrusive.object nat) :=
  let m0 := <[4 := Intrusive.list_object Intrusive.unlinked_hook]> Examples.hooks12 in
  let m1 := state_of m0 (Intrusive.construct 4 m0) in
  state_of m1 (Intrusive.push_back 4 (Some 3) m1).

(** Hook 2 of the list at 0 moved before hook 3 of the list at 4. *)
Lemma hook_splice_across_lists_witness :
  ∃ m', Intrusive.splice 4 (Some 3) (Some 2) two_lists = Ok tt m' ∧
    Intrusive.to_list 2 0 m' = Ok [1] m' ∧
    Intrusive.to_list 2 4 m' = Ok [2; 3] m'.
Proof.
  destruct (hook_splice_across_lists nat 0 4 two_lists [1; 2] [3] 2 3)
    as (m' & ra & rb & Hsplit & Hp & Es & _ & _ & Hl1 & Hl2 & _).
  - Examples.check_ring.
  - Examples.check_ring.
  - apply Forall_forall. apply (bool_decide_unpack _). vm_compute. exact I.
  - repeat constructor.
  - repeat constructor.
  - exists m'. destruct ra as [|a ra].
    + simpl in Hsplit. subst rb. split_and!; [exact Es|exact Hl1|exact Hl2].
    + exfalso. injection Hsplit as <- Hsplit.
      symmetry in Hsplit. apply app_eq_nil in Hsplit as [-> ->].
      simpl in Hp. discriminate Hp.
Defined.

(** * The promotion loops of the splice benchmark *)

(** [for (...) pool_list.splice(pool_list.begin(), pool_iters[pick(rng)])]:
    the iterators picked, in the order they are picked. *)
Fixpoint benchmark_splice_pool {T} (picks : list (Pool.iterator))
    : M (Pool.ll_list_pool T) unit :=
  match picks with
  | [] => mret tt
  | it :: picks' =>
      (b ← gets Pool.begin_; Pool.splice b it);;
      benchmark_splice_pool picks'
  end.

(** [for (...) intr_list.splice(intr_list.front(), &intr_orders[pick(rng)].hook)]. *)
Fixpoint benchmark_splice_intr {E} (this : nat) (picks : list nat)
    : M (gmap nat (Intrusive.object E)) unit :=
  match picks with
  | [] => mret tt
  | h :: picks' =>
      (f ← Intrusive.front this; Intrusive.splice this f (Some h));;
      benchmark_splice_intr this picks'
  end.

(** The list after a run of promotions: each pick moves to the front. *)
Definition promoted (l picks : list nat) : list nat :=
  foldl (λ acc h, h :: filter (.≠ h) acc) l picks.

(** One promotion, on the nodes. *)
Lemma pool_promote_nodes {T lost} (st : Pool.ll_list_pool T) l fl x :
  Pool.pool_inv st l fl lost → x ∈ l →
  ∃ st' l', (b ← gets Pool.begin_; Pool.splice b (Some x)) st = Ok tt st' ∧
    Pool.pool_inv st' (x :: l') fl lost ∧ x :: l' ≡ₚ l ∧
    (∀ u, Pool.valuef st' u = Pool.valuef st u).
Proof.
  intros Hinv Hx. apply list_elem_of_split in Hx as (l1 & l2 & ->).
  assert (Hbegin : Pool.begin_ st = Some (hd Pool.Sentinel (l1 ++ x :: l2))).
  { destruct Hinv as [Hr _ _ _ _ _ _ _].
    by apply (Ring.ring_next_pos _ _ _ [] (l1 ++ x :: l2)) in Hr. }
  rewrite Pool.bind_gets, Hbegin. destruct l1 as [|y l1'].
  - exists st, l2. simpl. rewrite Pool.splice_self. by split_and!.
  - destruct (pool_splice_at st (y :: l1') x l2 [] ((y :: l1') ++ l2) fl Hinv eq_refl)
      as (st' & E & Hinv' & Hframe).
    exists st', ((y :: l1') ++ l2). split_and!; [done|done| |done].
    by rewrite <- Permutation_middle.
Qed.

Lemma benchmark_splice_pool_ok {T lost} (picks : list Pool.iterator) :
  ∀ (st : Pool.ll_list_pool T) l fl,
    Pool.pool_inv st l fl lost →
    Forall (λ it, ∃ x, it = Some x ∧ x ∈ l) picks →
    ∃ st' l', benchmark_splice_pool picks st = Ok tt st' ∧
      Pool.pool_inv st' l' fl lost ∧ l' ≡ₚ l ∧
      (∀ u, Pool.valuef st' u = Pool.valuef st u) ∧
      (∀ it, last picks = Some it → Some (hd Pool.Sentinel l') = it).
Proof.
  induction picks as [|it picks IH]; intros st l fl Hinv Hpicks.
  - exists st, l. by split_and!.
  - apply Forall_cons in Hpicks as [(x & -> & Hx) Hpicks].
    destruct (pool_promote_nodes st l fl x Hinv Hx) as (st1 & l1 & E1 & Hinv1 & Hp1 & Hv1).
    destruct (IH st1 (x :: l1) fl Hinv1) as (st' & l' & E & Hinv' & Hp & Hv & Hlast).
    { eapply Forall_impl; [exact Hpicks|]. intros it (y & -> & Hy).
      exists y. split; [done|]. by rewrite Hp1. }
    exists st', l'. split_and!.
    + simpl. by rewrite (bind_Ok _ _ _ _ _ E1).
    + done.
    + by rewrite Hp, Hp1.
    + intros u. by rewrite Hv, Hv1.
    + intros it Hit. destruct picks as [|it' picks'].
      * simpl in Hit. injection Hit as <-. unfold benchmark_splice_pool in E.
        injection E as <-.
        by rewrite (Ring.ring_unique _ _ _ _ _ (Pool.inv_ring _ _ _ Hinv')
                      (Pool.inv_ring _ _ _ Hinv1)).
      * apply Hlast. by rewrite last_cons_cons in Hit.
Qed.

(** X26: the promotion loop of the splice benchmark on the pool list: for
    any sequence of picks among the iterators of the list every
    [splice(begin(), it)] returns; afterwards [size()] is unchanged, the
    traversal yields a permutation of the values it yielded before,
    every iterator yields the value it yielded before, and [begin()] is
    the iterator picked last. *)
Theorem pool_benchmark_splice :
  ∀ (T : Type) (st : Pool.ll_list_pool T) (picks : list Pool.iterator),
    Pool.reachable st →
    Forall (λ it, ∃ i, i < N.to_nat (Pool.size st) ∧
              Pool.follow Pool.load_next (S i) (Some Pool.Sentinel) st = Ok it st) picks →
    ∃ vs vs' st',
      Pool.to_list (N.to_nat (Pool.size st)) st = Ok vs st ∧
      benchmark_splice_pool picks st = Ok tt st' ∧
      Pool.size st' = Pool.size st ∧
      Pool.to_list (N.to_nat (Pool.size st')) st' = Ok vs' st' ∧
      vs' ≡ₚ vs ∧
      (∀ it w, Pool.iter_deref it st = Ok w st → Pool.iter_deref it st' = Ok w st') ∧
      (∀ it, last picks = Some it → Pool.begin_ st' = it).
Proof.
  intros T st picks Hreach Hpicks.
  destruct (pool_reachable_view st Hreach) as (lost & l & fl & vs & Hinv & Hvs & Hs & _ & _).
  assert (Hpicks' : Forall (λ it, ∃ x, it = Some x ∧ x ∈ l) picks).
  { eapply Forall_impl; [exact Hpicks|]. intros it (i & Hi & Hit). rewrite Hs in Hi.
    destruct (lookup_lt_is_Some_2 l i Hi) as [x Hx].
    rewrite (pool_iter_at st l i x) in Hit;
      [|by destruct Hinv|by rewrite lookup_app_l].
    injection Hit as <-. exists x. split; [done|]. by eapply list_elem_of_lookup_2. }
  destruct (benchmark_splice_pool_ok picks st l fl Hinv Hpicks')
    as (st' & l' & E & Hinv' & Hp & Hv & Hlast).
  destruct (Pool.values_exist st' l' (Pool.inv_live _ _ _ Hinv')) as [vs' Hvs'].
  destruct (pool_observe st _ _ _ Hinv Hvs) as [Hz Hl].
  destruct (pool_observe st' _ _ _ Hinv' Hvs') as [Hz' Hl'].
  exists vs, vs', st'. split_and!; [done|done| |done| | |].
  - by rewrite Hz', Hz, Hp.
  - by apply (pool_values_perm st st' l l').
  - intros it w (u & -> & Hu)%pool_deref_value. apply pool_deref_value.
    exists u. by rewrite Hv.
  - intros it Hit. rewrite <- (Hlast it Hit).
    destruct Hinv' as [Hr' _ _ _ _ _ _ _].
    by apply (Ring.ring_next_pos _ _ _ [] l') in Hr'.
Qed.

(** Picking the third and then the second element of [1, 2, 3]. *)
Lemma pool_benchmark_splice_witness :
  ∃ st', benchmark_splice_pool [Some (Pool.Slot 1); Some (Pool.Slot 2)]
           Examples.list123 = Ok tt st' ∧
    Pool.to_list 3 st' = Ok [2; 3; 1] st'.
Proof.
  destruct (pool_benchmark_splice nat Examples.list123
              [Some (Pool.Slot 1); Some (Pool.Slot 2)] Examples.list123_reachable)
    as (vs & vs' & st' & _ & E & _).
  - repeat constructor.
    + exists 2%nat. split; [vm_compute; lia|vm_compute; reflexivity].
    + exists 1%nat. split; [vm_compute; lia|vm_compute; reflexivity].
  - exists st'. split; [exact E|].
    vm_compute in E. injection E as <-. vm_compute. reflexivity.
Defined.

Lemma benchmark_splice_intr_ok {E} this (picks : list nat) :
  ∀ (m : gmap nat (Intrusive.object E)) l,
    Intrusive.contents this m l → Forall (.∈ l) picks →
    ∃ m', benchmark_splice_intr this picks m = Ok tt m' ∧
      Intrusive.contents this m' (promoted l picks) ∧
      length (promoted l picks) = length l ∧
      Intrusive.same_objects m m'.
Proof.
  induction picks as [|h picks IH]; intros m l Hr Hpicks.
  - exists m. split_and!; [done|done|done|apply Intrusive.same_objects_refl].
  - apply Forall_cons in Hpicks as [Hh Hpicks].
    pose proof (Ring.ring_NoDup _ _ _ _ Hr) as Hnd.
    apply list_elem_of_split in Hh as (l1 & l2 & ->).
    destruct (hook_observe this m _ Hr) as (Hf & _ & _).
    destruct (hook_promote this m l1 h l2 Hr) as (m1 & E1 & Hr1 & Hobj1).
    assert (Hfilter : filter (.≠ h) (l1 ++ h :: l2) = l1 ++ l2).
    { apply filter_out_middle. by apply NoDup_cons in Hnd as [_ ?]. }
    destruct (IH m1 (h :: l1 ++ l2) Hr1) as (m' & Eb & Hr' & Hlen & Hobj).
    { eapply Forall_impl; [exact Hpicks|]. intros u Hu. simpl in Hu.
      clear -Hu. set_solver. }
    assert (Estep : (f ← Intrusive.front this; Intrusive.splice this f (Some h)) m
                    = Ok tt m1) by (by rewrite (bind_Ok _ _ _ _ _ Hf)).
    exists m'. unfold promoted in *. split_and!.
    + simpl. by rewrite (bind_Ok _ _ _ _ _ Estep).
    + simpl. by rewrite Hfilter.
    + simpl. rewrite Hfilter, Hlen. simpl. rewrite !length_app. simpl. lia.
    + by apply (Intrusive.same_objects_trans m m1 m').
Qed.

(** X27: the promotion loop of the splice benchmark on the intrusive
    list: for any sequence of picks among the hooks of the list every
    [splice(front(), h)] returns, and the traversal afterwards yields the
    hooks in move-to-front order: each pick, in turn, taken out of the
    sequence and put in front.  No object is created or destroyed and
    nothing outside the hooks is written. *)
Theorem hook_benchmark_splice :
  ∀ (E : Type) (this : nat) (m : gmap nat (Intrusive.object E)) (fuel : nat)
    (l picks : list nat),
    Intrusive.reachable this m → Intrusive.to_list fuel this m = Ok l m →
    Forall (.∈ l) picks →
    ∃ m',
      benchmark_splice_intr this picks m = Ok tt m' ∧
      Intrusive.to_list fuel this m' = Ok (promoted l picks) m' ∧
      promoted l picks ≡ₚ l ∧
      Intrusive.same_objects m m'.
Proof.
  intros E this m fuel l picks Hreach Hl Hpicks.
  destruct (hook_traversed this m fuel l Hreach Hl) as [[Hr _] Hlen].
  destruct (benchmark_splice_intr_ok this picks m l Hr Hpicks)
    as (m' & Eb & Hr' & Hlen' & Hobj).
  exists m'. split_and!; [done| | |done].
  - apply Intrusive.hook_to_list_ok; [done|lia].
  - clear -Hr Hpicks. pose proof (Ring.ring_NoDup _ _ _ _ Hr) as Hnd.
    apply NoDup_cons in Hnd as [_ Hnd]. clear Hr.
    revert l Hnd Hpicks. induction picks as [|h picks IH]; intros l Hnd Hpicks; [done|].
    apply Forall_cons in Hpicks as [Hh Hpicks].
    apply list_elem_of_split in Hh as (l1 & l2 & ->).
    unfold promoted in *. simpl. rewrite filter_out_middle by done.
    rewrite IH.
    + by rewrite <- Permutation_middle.
    + apply NoDup_cons. rewrite NoDup_app in Hnd |- *. rewrite NoDup_cons in Hnd.
      clear -Hnd. set_solver.
    + eapply Forall_impl; [exact Hpicks|]. intros u Hu. simpl in Hu.
      clear -Hu. set_solver.
Qed.

(** Picking hook 2 and then hook 1 of the list [1, 2]. *)
Lemma hook_benchmark_splice_witness :
  ∃ m', benchmark_splice_intr 0 [2; 1] Examples.hooks12 = Ok tt m' ∧
    Intrusive.to_list 2 0 m' = Ok [1; 2] m'.
Proof.
  destruct (hook_benchmark_splice nat 0 Examples.hooks12 2 [1; 2] [2; 1]
              hooks12_reachable)
    as (m' & Eb & Hl' & _).
  - vm_compute. reflexivity.
  - repeat constructor.
  - exists m'. split; [exact Eb|exact Hl'].
Defined.

(** * The longest-token scan

    The single pass of the token benchmark: the loop that fills the
    character vector and the loop that scans it.  A [char] is a signed
    byte, an [int] has 32 bits and its overflow is undefined. *)

Module Tokens.

Local Open Scope Z_scope.

Definition INT_MAX : Z := 2 ^ 31 - 1.

(** [const int N = 200000000]. *)
Definition N : Z := 200000000.

(** [(i % 50 == 0) ? ' ' : char('a' + (i % 26))]. *)
Definition fill_char (i : Z) : Z :=
  if Z.rem i 50 =? 0 then 32 else 97 + Z.rem i 26.

(** [for (int i = 0; i < n; i++) s[i] = ...]: the vector after the loop. *)
Definition fill (n : Z) : list Z := fill_char <$> seqZ 0 n.

(** [char c = s[i] | 32; bool isLetter = (c >= 'a' && c <= 'z')]. *)
Definition isLetter (ch : Z) : bool :=
  let c := Z.lor ch 32 in (97 <=? c) && (c <=? 122).

(** The two counters of the scan. *)
Record counters : Type := Counters {
  current : Z;
  best : Z;
}.

(** One iteration of the scan:
    [current = isLetter ? current + 1 : 0;
     best = (current > best) ? current : best].
    [None] is the signed overflow of [current + 1]. *)
Definition step (st : counters) (ch : Z) : option counters :=
  let cur :=
    if isLetter ch then
      if current st <? INT_MAX then Some (current st + 1) else None
    else Some 0 in
  cur' ← cur;
  Some (Counters cur' (if cur' >? best st then cur' else best st)).

(** [int current = 0; int best = 0; for (...) { ... }]. *)
Definition scan (s : list Z) : option counters :=
  foldl (λ acc ch, acc ≫= λ st, step st ch) (Some (Counters 0 0)) s.

(** The number the program prints for the vector [s]. *)
Definition longest_token (s : list Z) : option Z := best <$> scan s.

(** The number [main] prints. *)
Definition main_output : option Z := longest_token (fill N).

(** A run of letters of [s]: a contiguous part all of whose characters
    pass the letter test. *)
Definition letter_run (s run : list Z) : Prop :=
  (∃ pre post, s = pre ++ run ++ post) ∧ Forall (λ ch, isLetter ch = true) run.

Lemma scan_snoc s ch : scan (s ++ [ch]) = scan s ≫= λ st, step st ch.
Proof. unfold scan. by rewrite foldl_snoc. Qed.

Lemma fill_snoc (k : nat) :
  fill (Z.of_nat (S k)) = fill (Z.of_nat k) ++ [fill_char (Z.of_nat k)].
Proof. unfold fill. by rewrite seqZ_S, fmap_app. Qed.

(** The letter test on every [char]. *)
Lemma isLetter_chars :
  Forall (λ ch, isLetter ch =
            ((65 <=? ch) && (ch <=? 90)) || ((97 <=? ch) && (ch <=? 122)))
    (seqZ (-128) 256).
Proof. apply (bool_decide_unpack _). vm_compute. exact I. Qed.

(** The characters the fill loop writes. *)
Lemma isLetter_fill_char (i : Z) :
  0 ≤ i → isLetter (fill_char i) = negb (i mod 50 =? 0).
Proof.
  intros Hi. unfold fill_char. rewrite !Z.rem_mod_nonneg by lia.
  destruct (i mod 50 =? 0); [done|]. simpl.
  pose proof (Z.mod_pos_bound i 26 ltac:(lia)) as Hb.
  assert (Hall : Forall (λ r, isLetter (97 + r) = true) (seqZ 0 26)).
  { apply (bool_decide_unpack _). vm_compute. exact I. }
  rewrite Forall_seqZ in Hall. apply Hall. lia.
Qed.

Lemma snoc_split {A} (s pre suf : list A) (x : A) :
  s ++ [x] = pre ++ suf →
  (suf = [] ∧ pre = s ++ [x]) ∨ (∃ suf0, suf = suf0 ++ [x] ∧ s = pre ++ suf0).
Proof.
  intros Heq. induction suf as [|z suf0 _] using rev_ind.
  - left. by rewrite app_nil_r in Heq.
  - right. rewrite app_assoc in Heq. apply app_inj_tail in Heq as [-> ->].
    by exists suf0.
Qed.

(** What the counters hold after the scan of [s]: [current] is the
    length of the longest suffix of letters, [best] the length of the
    longest run of letters. *)
Lemma scan_counters (s : list Z) :
  Z.of_nat (length s) ≤ INT_MAX →
  ∃ cur b, scan s = Some (Counters cur b) ∧ 0 ≤ cur ≤ b ∧
    (∃ pre suf, s = pre ++ suf ∧ Forall (λ ch, isLetter ch = true) suf ∧
                Z.of_nat (length suf) = cur) ∧
    (∀ pre suf, s = pre ++ suf → Forall (λ ch, isLetter ch = true) suf →
                Z.of_nat (length suf) ≤ cur) ∧
    (∃ run, letter_run s run ∧ Z.of_nat (length run) = b) ∧
    (∀ run, letter_run s run → Z.of_nat (length run) ≤ b).
Proof.
  induction s as [|ch s IH] using rev_ind; intros Hlen.
  { exists 0, 0. split_and!; try done.
    - by exists [], [].
    - intros pre suf Heq _. symmetry in Heq. by apply app_eq_nil in Heq as [_ ->].
    - exists []. split; [|done]. split; [by exists [], []|done].
    - intros run [(pre & post & Heq) _]. symmetry in Heq.
      apply app_eq_nil in Heq as [_ Heq]. by apply app_eq_nil in Heq as [-> _]. }
  rewrite length_app in Hlen. simpl in Hlen.
  destruct IH as (cur & b & Hscan & Hcb & (pre0 & suf0 & Hs0 & Hsuf0 & Hl0)
                  & Hsufmax & (run0 & [(pr & po & Hr0) Hrun0] & Hlr0) & Hrunmax);
    [lia|].
  assert (Hcur : cur ≤ Z.of_nat (length s)).
  { rewrite <- Hl0, Hs0, length_app. lia. }
  rewrite scan_snoc, Hscan. simpl. unfold step. simpl.
  destruct (isLetter ch) eqn:Hch.
  - replace (cur <? INT_MAX) with true by (symmetry; apply Z.ltb_lt; lia). simpl.
    exists (cur + 1), (if cur + 1 >? b then cur + 1 else b).
    assert (Hnew : Forall (λ c, isLetter c = true) (suf0 ++ [ch])).
    { apply Forall_app. split; [done|]. by apply Forall_singleton. }
    split_and!.
    + done.
    + lia.
    + destruct (cur + 1 >? b) eqn:Hgt; lia.
    + exists pre0, (suf0 ++ [ch]). split_and!.
      * by rewrite Hs0, app_assoc.
      * done.
      * rewrite length_app. simpl. lia.
    + intros pre suf Heq Hsuf.
      destruct (snoc_split _ _ _ _ Heq) as [[-> _]|(suf1 & -> & Hs1)]; [simpl; lia|].
      apply Forall_app in Hsuf as [Hsuf _].
      pose proof (Hsufmax pre suf1 Hs1 Hsuf). rewrite length_app. simpl. lia.
    + destruct (cur + 1 >? b) eqn:Hgt.
      * exists (suf0 ++ [ch]). split; [|rewrite length_app; simpl; lia].
        split; [|done]. exists pre0, []. by rewrite Hs0, app_nil_r, app_assoc.
      * exists run0. split; [|done]. split; [|done].
        exists pr, (po ++ [ch]). by rewrite Hr0, !app_assoc.
    + intros run [(pre & post & Heq) Hrun].
      assert (Z.of_nat (length run) ≤ Z.max (cur + 1) b);
        [|destruct (cur + 1 >? b) eqn:Hgt; lia].
      rewrite app_assoc in Heq.
      destruct (snoc_split _ _ _ _ Heq) as [[-> Heq']|(post1 & -> & Hs1)].
      * symmetry in Heq'.
        destruct (snoc_split _ _ _ _ Heq') as [[-> _]|(run1 & -> & Hs2)]; [simpl; lia|].
        apply Forall_app in Hrun as [Hrun _].
        pose proof (Hsufmax pre run1 Hs2 Hrun). rewrite length_app. simpl. lia.
      * assert (Hle : Z.of_nat (length run) ≤ b); [|lia].
        apply Hrunmax. split; [|done]. exists pre, post1. by rewrite Hs1, app_assoc.
  - simpl. exists 0, b.
    replace (0 >? b) with false by (symmetry; rewrite Z.gtb_ltb; apply Z.ltb_ge; lia).
    assert (Hno : ∀ k : list Z, ¬ Forall (λ c, isLetter c = true) (k ++ [ch])).
    { intros k [_ Hk]%Forall_app. rewrite Forall_singleton in Hk. congruence. }
    split_and!.
    + done.
    + lia.
    + lia.
    + exists (s ++ [ch]), []. by rewrite app_nil_r.
    + intros pre suf Heq Hsuf.
      destruct (snoc_split _ _ _ _ Heq) as [[-> _]|(suf1 & -> & Hs1)]; [simpl; lia|].
      by apply Hno in Hsuf.
    + exists run0. split; [|done]. split; [|done].
      exists pr, (po ++ [ch]). by rewrite Hr0, !app_assoc.
    + intros run [(pre & post & Heq) Hrun].
      rewrite app_assoc in Heq.
      destruct (snoc_split _ _ _ _ Heq) as [[-> Heq']|(post1 & -> & Hs1)].
      * symmetry in Heq'.
        destruct (snoc_split _ _ _ _ Heq') as [[-> _]|(run1 & -> & Hs2)]; [simpl; lia|].
        by apply Hno in Hrun.
      * apply Hrunmax. split; [|done]. exists pre, post1. by rewrite Hs1, app_assoc.
Qed.

End Tokens.

Local Open Scope Z_scope.

(** The counters after the scan of the first [k] characters the fill
    loop writes. *)
Lemma scan_fill_counters (k : nat) :
  (1 ≤ k)%nat → Z.of_nat k ≤ Tokens.INT_MAX →
  Tokens.scan (Tokens.fill (Z.of_nat k))
    = Some (Tokens.Counters ((Z.of_nat k - 1) mod 50) (Z.min (Z.of_nat k - 1) 49)).
Proof.
  induction k as [|k IH]; intros Hk Hmax; [lia|].
  destruct (decide (k = 0%nat)) as [->|Hne]; [by vm_compute|].
  rewrite Tokens.fill_snoc, Tokens.scan_snoc, IH by lia. simpl.
  unfold Tokens.step. simpl.
  rewrite Tokens.isLetter_fill_char by lia.
  replace (Z.of_nat (S k) - 1) with (Z.of_nat k) by lia.
  pose proof (Z.mod_pos_bound (Z.of_nat k) 50 ltac:(lia)) as Hb.
  pose proof (Z.mod_pos_bound (Z.of_nat k - 1) 50 ltac:(lia)) as Hb'.
  destruct (Z.of_nat k mod 50 =? 0) eqn:Hz; simpl.
  - apply Z.eqb_eq in Hz. rewrite Hz.
    assert (50 ≤ Z.of_nat k) by (Z.to_euclidean_division_equations; lia).
    replace (0 >? Z.min (Z.of_nat k - 1) 49) with false
      by (symmetry; rewrite Z.gtb_ltb; apply Z.ltb_ge; lia).
    do 2 f_equal. lia.
  - apply Z.eqb_neq in Hz.
    replace ((Z.of_nat k - 1) mod 50 <? Tokens.INT_MAX) with true
      by (symmetry; apply Z.ltb_lt; unfold Tokens.INT_MAX; lia).
    simpl.
    assert (Hstep : (Z.of_nat k - 1) mod 50 + 1 = Z.of_nat k mod 50)
      by (Z.to_euclidean_division_equations; lia).
    rewrite Hstep. f_equal. f_equal.
    destruct (Z.of_nat k mod 50 >? Z.min (Z.of_nat k - 1) 49) eqn:Hgt.
    + rewrite Z.gtb_ltb in Hgt. apply Z.ltb_lt in Hgt.
      Z.to_euclidean_division_equations; lia.
    + rewrite Z.gtb_ltb in Hgt. apply Z.ltb_ge in Hgt.
      Z.to_euclidean_division_equations; lia.
Qed.

(** X28: the letter test of the scan, [(c | 32)] between ['a'] and
    ['z'], accepts exactly the ASCII letters: for every [char] value it
    is true exactly for ['A'..'Z'] and ['a'..'z']. *)
Theorem token_letter_test :
  ∀ ch : Z, -128 ≤ ch ≤ 127 →
    (Tokens.isLetter ch = true ↔ 65 ≤ ch ≤ 90 ∨ 97 ≤ ch ≤ 122).
Proof.
  intros ch Hch.
  pose proof Tokens.isLetter_chars as Hall. rewrite Forall_seqZ in Hall.
  rewrite (Hall ch) by lia.
  rewrite orb_true_iff, !andb_true_iff, !Z.leb_le. tauto.
Qed.

(** ['Z'] is a letter, ['['] and ['@'] are not. *)
Lemma token_letter_test_witness :
  Tokens.isLetter 90 = true ∧ Tokens.isLetter 91 ≠ true ∧ Tokens.isLetter 64 ≠ true.
Proof.
  split_and!.
  - apply (token_letter_test 90); lia.
  - intros H. apply (token_letter_test 91) in H; lia.
  - intros H. apply (token_letter_test 64) in H; lia.
Defined.

(** X29: on a vector short enough for an [int] counter, the scan does
    not overflow and the number printed is the length of the longest run
    of letters: some contiguous part of the vector consisting of letters
    only has that length, and none is longer. *)
Theorem token_scan_longest_run :
  ∀ s : list Z, Z.of_nat (length s) ≤ Tokens.INT_MAX →
    ∃ b, Tokens.longest_token s = Some b ∧
      (∃ run, Tokens.letter_run s run ∧ Z.of_nat (length run) = b) ∧
      (∀ run, Tokens.letter_run s run → Z.of_nat (length run) ≤ b).
Proof.
  intros s Hlen.
  destruct (Tokens.scan_counters s Hlen) as (cur & b & Hscan & _ & _ & _ & Hex & Hmax).
  exists b. unfold Tokens.longest_token. rewrite Hscan. by split_and!.
Qed.

(** The vector "ab,cde" (97 98 44 99 100 101). *)
Lemma token_scan_longest_run_witness :
  Tokens.longest_token [97; 98; 44; 99; 100; 101] = Some 3.
Proof.
  destruct (token_scan_longest_run [97; 98; 44; 99; 100; 101]) as (b & Hb & _).
  - vm_compute. discriminate.
  - pose proof Hb as Hb'. vm_compute in Hb'. injection Hb' as <-. exact Hb.
Defined.

(** X30: on the vector the fill loop writes, of any length from 1 up to
    the largest [int], the scan prints the smaller of the length minus
    one and 49: every 50th character is a space and the 49 characters
    between two spaces are letters. *)
Theorem token_scan_of_fill :
  ∀ n : Z, 1 ≤ n ≤ Tokens.INT_MAX →
    Tokens.longest_token (Tokens.fill n) = Some (Z.min (n - 1) 49).
Proof.
  intros n Hn.
  pose proof (scan_fill_counters (Z.to_nat n)) as Hscan.
  rewrite Z2Nat.id in Hscan by lia.
  unfold Tokens.longest_token. rewrite Hscan by lia. done.
Qed.

(** The number [main] prints, for [N] = 200000000, is 49. *)
Lemma token_scan_of_fill_witness : Tokens.main_output = Some 49.
Proof.
  unfold Tokens.main_output.
  rewrite (token_scan_of_fill Tokens.N) by (vm_compute; split; discriminate).
  reflexivity.
Defined.
